(** * PseudoTopProducer: a shallow embedding and its properties

    The development follows
    [TopQuarkAnalysis/TopEventProducers/src/PseudoTopProducer.cc].

    - A C++ [double] is an IEEE binary64 number, here Rocq's primitive
      [float]: the comparisons are the IEEE ones (any comparison with a NaN
      is false) and the constants are read as the compiler reads them.
    - C++ [int] and [size_t] values are [Z] and [nat]; the arithmetic the
      producer does on them (charges, species codes, indices) stays far from
      the machine bounds, and the one conversion to [unsigned int] is
      written out.
    - A particle carries its mothers and its daughters as trees, a history
      being acyclic; the two input collections are lists, read by index.
    - [at] throws on an index out of range and a pointer made by [ptrAt] can
      be dereferenced only if it points into the collection: the stages that
      use them live in a small error monad.  The pointers put into a jet are
      kept as keys; this source does not dereference them.
    - [lepDauIdxs] and [bHadronIdxs] are sets of which the source asks
      membership and, for the second, iterates in increasing order: they are
      lists, the second built in increasing order.
    - The jet clustering (fastjet), [std::sort] and the four-vector accessors
      [mass()] and [pt()] are library code: they are the fields of the class
      [Library], and a statement that needs a part of their contract has it as
      a hypothesis.  [reserve] calls, the counter [nStables] that only sizes
      one, and the jet-specific sums of [writeSpecific] have no bearing on
      what is emitted and are left out.

    The definitions come first: the model of the source, a reference library
    and example events to run it on, and the notions the statements are
    written with.  The properties follow. *)

From Stdlib Require Import ZArith List Bool Lia Floats Permutation Sorted.
Import ListNotations.

(* ================================================================== *)
(** ** Doubles *)

Module Double.

Open Scope float_scope.

(** [std::isnan]. *)
Definition isnan (x : float) : bool := negb (x =? x).

(** Conversion of an [int] to [double] (exact on the 32-bit range). *)
Definition of_int (z : Z) : float :=
  if (z <? 0)%Z then - of_uint63 (Uint63.of_Z (- z))
  else of_uint63 (Uint63.of_Z z).

(** [a > b] and [a >= b] as C++ evaluates them. *)
Definition gtb (a b : float) : bool := b <? a.
Definition geb (a b : float) : bool := b <=? a.

End Double.

(* ================================================================== *)
(** ** Failure: [at] out of range, dereference of an invalid pointer *)

Inductive exn : Set := OutOfRange | InvalidPtr.

Inductive result (A : Type) : Type :=
| Ok (a : A)
| Raise (e : exn).

Arguments Ok {A} a.
Arguments Raise {A} e.

Definition bind {A B : Type} (m : result A) (k : A -> result B) : result B :=
  match m with
  | Ok a => k a
  | Raise e => Raise e
  end.

Notation "x <- m ;; k" := (bind m (fun x => k))
  (at level 61, m at next level, right associativity).
Notation "' p <- m ;; k" := (bind m (fun p => k))
  (at level 61, p pattern, m at next level, right associativity).

(** [v.at(i)] for a [size_t] index. *)
Definition at_ {A : Type} (v : list A) (i : nat) : result A :=
  match nth_error v i with
  | Some a => Ok a
  | None => Raise OutOfRange
  end.

(** [v.at(i)] for an [int] index: a negative one converts to a huge [size_t]. *)
Definition atZ {A : Type} (v : list A) (i : Z) : result A :=
  if (i <? 0)%Z then Raise OutOfRange else at_ v (Z.to_nat i).

(** A loop whose body can fail. *)
Fixpoint foldM {A S : Type} (f : S -> A -> result S) (l : list A) (s : S)
  : result S :=
  match l with
  | [] => Ok s
  | a :: l' => s' <- f s a ;; foldM f l' s'
  end.

(* ================================================================== *)
(** ** Particle records and event content *)

Open Scope Z_scope.

(** [reco::Candidate::LorentzVector], Cartesian components. *)
Record LorentzVector : Set := mkLorentzVector {
  lv_px : float; lv_py : float; lv_pz : float; lv_E : float
}.

(** [operator+] of two four-vectors, which is library code: the sum, component
    by component. *)
Definition lv_add (a b : LorentzVector) : LorentzVector :=
  mkLorentzVector (lv_px a + lv_px b)%float (lv_py a + lv_py b)%float
                  (lv_pz a + lv_pz b)%float (lv_E a + lv_E b)%float.

Record Point : Set := mkPoint { pt_x : float; pt_y : float; pt_z : float }.

(** [genVertex_ = reco::Particle::Point(0,0,0)]. *)
Definition genVertex_ : Point := mkPoint 0%float 0%float 0%float.

(** What the producer reads of a [reco::Candidate]: species code, status,
    charge, four-momentum, vertex, the accessors [pt()] and [p()], and the
    mother and daughter links.  A particle's history is acyclic, so the links
    are the trees the recursive functions walk. *)
#[warnings="-register-all"] Inductive Candidate : Type := mkCandidate {
  cand_pdgId : Z;
  cand_status : Z;
  cand_charge : Z;
  cand_p4 : LorentzVector;
  cand_vertex : Point;
  cand_pt : float;
  cand_p : float;
  cand_mothers : list Candidate;
  cand_daughters : list Candidate
}.

Definition numberOfMothers (c : Candidate) : nat := length (cand_mothers c).
Definition numberOfDaughters (c : Candidate) : nat := length (cand_daughters c).

(** An event: the two input collections, [finalStates] and [genParticles]. *)
Record Event : Type := mkEvent {
  finalStates : list Candidate;
  genParticles : list Candidate
}.

(** The configuration read in the constructor. *)
Record Config : Set := mkConfig {
  leptonMinPt_ : float;
  leptonMaxEta_ : float;
  jetMinPt_ : float;
  jetMaxEta_ : float;
  wMass_ : float;
  tMass_ : float;
  leptonConeSize : float;
  jetConeSize : float
}.

(* ================================================================== *)
(** ** Particle classifier *)

(** Conversion of a non-negative [int] to [unsigned int]. *)
Definition to_unsigned (z : Z) : Z := z mod 2 ^ 32.

(** [isBHadron(const unsigned int absPdgId)]. *)
Definition isBHadron_code (absPdgId : Z) : bool :=
  if absPdgId <=? 100 then false            (* fundamental particles, MC internals *)
  else if absPdgId >=? 1000000000 then false (* nuclei *)
  else
    let nq3 := (absPdgId / 10) mod 10 in
    let nq2 := (absPdgId / 100) mod 10 in
    let nq1 := (absPdgId / 1000) mod 10 in
    if nq3 =? 0 then false                   (* diquarks *)
    else if (nq1 =? 0) && (nq2 =? 5) then true  (* B mesons *)
    else if nq1 =? 5 then true               (* B baryons *)
    else false.

(** [abs(p->pdgId())] as the [unsigned int] handed to the test above. *)
Definition absPdgId (p : Candidate) : Z := to_unsigned (Z.abs (cand_pdgId p)).

(** The daughter loop of [isBHadron] on a particle. *)
Fixpoint noBHadronDaughter (daus : list Candidate) : bool :=
  match daus with
  | [] => true
  | dau :: rest =>
      if isBHadron_code (absPdgId dau) then false else noBHadronDaughter rest
  end.

(** [isBHadron] on a particle: the digit test on its own code, and no direct
    daughter that passes it. *)
Definition isBHadron (p : Candidate) : bool :=
  if negb (isBHadron_code (absPdgId p)) then false
  else noBHadronDaughter (cand_daughters p).

(** [isFromHadron]: walks the mothers, skipping an incident beam particle
    (one without mothers). *)
Fixpoint isFromHadron (p : Candidate) : bool :=
  match p with
  | mkCandidate _ _ _ _ _ _ _ ms _ =>
      (fix loop (ms : list Candidate) : bool :=
         match ms with
         | [] => false
         | mother :: rest =>
             match cand_mothers mother with
             | [] => loop rest
             | _ :: _ =>
                 if Z.abs (cand_pdgId mother) >? 100 then true
                 else if isFromHadron mother then true
                 else loop rest
             end
         end) ms
  end.

(** [getLast]: goes down to the first daughter that carries the species code of
    the particle, and from there on in the same way; a particle without such
    a daughter is returned as it is. *)
Fixpoint getLast (p : Candidate) : Candidate :=
  match p with
  | mkCandidate _ _ _ _ _ _ _ _ ds =>
      (fix loop (ds : list Candidate) : Candidate :=
         match ds with
         | [] => p
         | dau :: rest =>
             if cand_pdgId p =? cand_pdgId dau then getLast dau else loop rest
         end) ds
  end.

(** The b-hadron pass over [genParticles]: the indices of the unstable
    particles that pass [isBHadron], in increasing order (the iteration order
    of the [std::set] they are kept in). *)
Fixpoint collectBHadrons (i : nat) (ps : list Candidate) : list nat :=
  match ps with
  | [] => []
  | p :: rest =>
      if cand_status p =? 1 then collectBHadrons (S i) rest
      else if isBHadron p then i :: collectBHadrons (S i) rest
      else collectBHadrons (S i) rest
  end.

Definition bHadronIdxs (ev : Event) : list nat :=
  collectBHadrons 0 (genParticles ev).

(** The pass over [finalStates]: what becomes of one particle. *)
Inductive StableKind : Set :=
| NotUsed       (* skipped by one of the [continue]s, or no case of the switch *)
| ForDressing   (* 11, 13 or 22: input of the lepton dressing *)
| IsNeutrino.   (* 12, 14 or 16: copied to the neutrino collection *)

Definition classifyStable (p : Candidate) : StableKind :=
  let absPdgId := Z.abs (cand_pdgId p) in
  if negb (cand_status p =? 1) then NotUsed
  else
    match cand_mothers p with
    | [] => NotUsed                                   (* orphans *)
    | mother :: _ =>
        if cand_status mother =? 4 then NotUsed       (* directly from the beam *)
        else if isFromHadron p then NotUsed
        else if (absPdgId =? 11) || (absPdgId =? 13) || (absPdgId =? 22)
             then ForDressing
        else if (absPdgId =? 12) || (absPdgId =? 14) || (absPdgId =? 16)
             then IsNeutrino
        else NotUsed
    end.

(** [leptonIdxs]: the indices kept for dressing, in increasing order. *)
Fixpoint collectLeptonIdxs (i : nat) (ps : list Candidate) : list nat :=
  match ps with
  | [] => []
  | p :: rest =>
      match classifyStable p with
      | ForDressing => i :: collectLeptonIdxs (S i) rest
      | _ => collectLeptonIdxs (S i) rest
      end
  end.

Definition leptonIdxs (ev : Event) : list nat :=
  collectLeptonIdxs 0 (finalStates ev).

(* ================================================================== *)
(** ** Output records *)

(** Modelled from the spec: the class [reco::GenParticle] is declared outside
    the sources at hand.  The record keeps the arguments of the constructor
    call as the producer computes them (the spec's particle record carries a
    charge that may be fractional, so the charge is kept as the [double] the
    call site hands over, an [int] argument being converted), and the
    daughter and mother references added afterwards, as indices into the
    output collection. *)
Record GenParticle : Set := mkGenParticle {
  gp_charge : float;
  gp_p4 : LorentzVector;
  gp_vertex : Point;
  gp_pdgId : Z;
  gp_status : Z;
  gp_integerCharge : bool;
  gp_daughters : list nat;
  gp_mothers : list nat
}.

Definition newGenParticle (q : float) (p4 : LorentzVector) (vtx : Point)
    (pdgId status : Z) (integerCharge : bool) : GenParticle :=
  mkGenParticle q p4 vtx pdgId status integerCharge [] [].

(** [reco::GenJet] as [writeSpecific] and the setters fill it: four-momentum,
    vertex, the constituents as keys into [finalStates], species code, charge
    and area. *)
Record GenJet : Set := mkGenJet {
  jet_p4 : LorentzVector;
  jet_vertex : Point;
  jet_constituents : list nat;
  jet_pdgId : Z;
  jet_charge : Z;
  jet_area : float
}.

(** [fastjet::PseudoJet] as an input of the clustering. *)
Record PseudoJet : Set := mkPseudoJet {
  pj_px : float; pj_py : float; pj_pz : float; pj_E : float;
  user_index : nat
}.

(** A jet as the clustering returns it: kinematics, area, and its
    constituents (already in the order of [sorted_by_pt]). *)
Record FjJet : Set := mkFjJet {
  fj_px : float; fj_py : float; fj_pz : float; fj_E : float;
  fj_eta : float;
  fj_has_area : bool;
  fj_area : float;
  fj_constituents : list PseudoJet
}.

Definition fj_p4 (j : FjJet) : LorentzVector :=
  mkLorentzVector (fj_px j) (fj_py j) (fj_pz j) (fj_E j).

Definition fj_jetArea (j : FjJet) : float :=
  if fj_has_area j then fj_area j else 0%float.

(** The neutrino pass: a copy of every neutrino of the final state. *)
Definition neutrinoCopy (p : Candidate) : GenParticle :=
  newGenParticle (Double.of_int (cand_charge p)) (cand_p4 p) (cand_vertex p)
                 (cand_pdgId p) (cand_status p) true.

Fixpoint collectNeutrinos (ps : list Candidate) : list GenParticle :=
  match ps with
  | [] => []
  | p :: rest =>
      match classifyStable p with
      | IsNeutrino => neutrinoCopy p :: collectNeutrinos rest
      | _ => collectNeutrinos rest
      end
  end.

(** The test that keeps a particle out of a clustering input:
    [std::isnan(p.pt()) or p.pt() <= 0]. *)
Definition badPt (p : Candidate) : bool :=
  Double.isnan (cand_pt p) || (cand_pt p <=? 0)%float.

Definition toPseudoJet (p : Candidate) (index : nat) : PseudoJet :=
  mkPseudoJet (lv_px (cand_p4 p)) (lv_py (cand_p4 p)) (lv_pz (cand_p4 p))
              (lv_E (cand_p4 p)) index.

(** [fjLepInputs]. *)
Fixpoint fjLepInputs (final : list Candidate) (idxs : list nat)
  : result (list PseudoJet) :=
  match idxs with
  | [] => Ok []
  | index :: rest =>
      p <- at_ final index ;;
      inputs <- fjLepInputs final rest ;;
      if badPt p then Ok inputs else Ok (toPseudoJet p index :: inputs)
  end.

(* ================================================================== *)
(** ** Lepton dresser *)

(** [finalStateHandle->ptrAt(index)] followed by a dereference. *)
Definition derefPtrAt (final : list Candidate) (index : nat) : result Candidate :=
  match nth_error final index with
  | Some c => Ok c
  | None => Raise InvalidPtr
  end.

(** The loop over the constituents of one cluster.  Its state is the
    constituent list of the jet under construction and [lepCand] (the null
    pointer is [None]); a charged lepton softer than the current [lepCand]
    is left out of the constituent list by the [continue]. *)
Definition LepLoopState : Type := (list nat * option (nat * Candidate))%type.

Definition lepConstituent (final : list Candidate) (st : LepLoopState)
    (fjConstituent : PseudoJet) : result LepLoopState :=
  let '(constituents, lepCand) := st in
  let index := user_index fjConstituent in
  cand <- derefPtrAt final index ;;
  let absPdgId := Z.abs (cand_pdgId cand) in
  if (absPdgId =? 11) || (absPdgId =? 13) then
    match lepCand with
    | Some (_, lep) =>
        if Double.gtb (cand_pt lep) (cand_pt cand) then Ok st
        else Ok (constituents ++ [index], Some (index, cand))
    | None => Ok (constituents ++ [index], Some (index, cand))
    end
  else Ok (constituents ++ [index], lepCand).

Definition lepConstituents (final : list Candidate) (fjConstituents : list PseudoJet)
  : result LepLoopState :=
  foldM (lepConstituent final) fjConstituents ([], None).

(** One turn of the loop over the lepton clusters; the state is [leptons]
    and [lepDauIdxs] (a set, of which only membership is ever asked). *)
Definition DressState : Type := (list GenJet * list nat)%type.

Definition dressLepton (cfg : Config) (final : list Candidate) (st : DressState)
    (fjJet : FjJet) : result DressState :=
  let '(leptons, lepDauIdxs) := st in
  if Double.gtb (abs (fj_eta fjJet)) (leptonMaxEta_ cfg) then Ok st
  else
    '(constituents, lepCand) <- lepConstituents final (fj_constituents fjJet) ;;
    match lepCand with
    | None => Ok st
    | Some (_, lep) =>
        let lepJet := mkGenJet (fj_p4 fjJet) genVertex_ constituents
                               (cand_pdgId lep) (cand_charge lep)
                               (fj_jetArea fjJet) in
        Ok (leptons ++ [lepJet],
            lepDauIdxs ++ map user_index (fj_constituents fjJet))
    end.

Definition buildLeptons (cfg : Config) (final : list Candidate)
    (fjLepJets : list FjJet) : result DressState :=
  foldM (dressLepton cfg final) fjLepJets ([], []).

(* ================================================================== *)
(** ** Jet builder *)

Definition inSet (i : nat) (s : list nat) : bool := existsb (Nat.eqb i) s.

(** First loop of [fjJetInputs]: the stable particles of the final state,
    without neutrinos and without the constituents of the dressed leptons. *)
Fixpoint fjJetInputsFinal (lepDauIdxs : list nat) (i : nat) (ps : list Candidate)
  : list PseudoJet :=
  match ps with
  | [] => []
  | p :: rest =>
      let absId := Z.abs (cand_pdgId p) in
      if negb (cand_status p =? 1) then fjJetInputsFinal lepDauIdxs (S i) rest
      else if badPt p then fjJetInputsFinal lepDauIdxs (S i) rest
      else if (absId =? 12) || (absId =? 14) || (absId =? 16)
           then fjJetInputsFinal lepDauIdxs (S i) rest
      else if inSet i lepDauIdxs then fjJetInputsFinal lepDauIdxs (S i) rest
      else toPseudoJet p i :: fjJetInputsFinal lepDauIdxs (S i) rest
  end.

(** A b hadron scaled down to a negligible momentum ([1e-20] is read as the
    nearest double, as the compiler does). *)
#[warnings="-inexact-float"] Definition ghost (p : Candidate) (index : nat) : PseudoJet :=
  let scale := (1e-20 / cand_p p)%float in
  mkPseudoJet (lv_px (cand_p4 p) * scale)%float (lv_py (cand_p4 p) * scale)%float
              (lv_pz (cand_p4 p) * scale)%float (lv_E (cand_p4 p) * scale)%float
              index.

(** Second loop of [fjJetInputs]: the b hadrons, by their index in
    [genParticles]. *)
Fixpoint fjJetInputsGhosts (gen : list Candidate) (idxs : list nat)
  : result (list PseudoJet) :=
  match idxs with
  | [] => Ok []
  | index :: rest =>
      p <- at_ gen index ;;
      inputs <- fjJetInputsGhosts gen rest ;;
      if badPt p then Ok inputs else Ok (ghost p index :: inputs)
  end.

Definition fjJetInputs (ev : Event) (lepDauIdxs bHadrons : list nat)
  : result (list PseudoJet) :=
  ghosts <- fjJetInputsGhosts (genParticles ev) bHadrons ;;
  Ok (fjJetInputsFinal lepDauIdxs 0 (finalStates ev) ++ ghosts).

(** The loop over the constituents of one jet: the keys of its constituents
    and whether one of them is the index of a b hadron. *)
Definition jetConstituent (bHadrons : list nat) (st : list nat * bool)
    (fjConstituent : PseudoJet) : list nat * bool :=
  let '(constituents, hasBHadron) := st in
  let index := user_index fjConstituent in
  (constituents ++ [index], if inSet index bHadrons then true else hasBHadron).

(** One turn of the loop over the jets; the state is [jets], [bjetIdxs] and
    [ljetIdxs]. *)
Record JetState : Set := mkJetState {
  js_jets : list GenJet;
  js_bjetIdxs : list nat;
  js_ljetIdxs : list nat
}.

Definition buildJet (cfg : Config) (bHadrons : list nat) (st : JetState)
    (fjJet : FjJet) : JetState :=
  if Double.gtb (abs (fj_eta fjJet)) (jetMaxEta_ cfg) then st
  else
    let '(constituents, hasBHadron) :=
      fold_left (jetConstituent bHadrons) (fj_constituents fjJet) ([], false) in
    let genJet := mkGenJet (fj_p4 fjJet) genVertex_ constituents 0 0
                           (fj_jetArea fjJet) in
    if hasBHadron then
      mkJetState (js_jets st
                    ++ [mkGenJet (jet_p4 genJet) (jet_vertex genJet)
                                 (jet_constituents genJet) 5 (jet_charge genJet)
                                 (jet_area genJet)])
                 (js_bjetIdxs st ++ [length (js_jets st)])
                 (js_ljetIdxs st)
    else
      mkJetState (js_jets st ++ [genJet])
                 (js_bjetIdxs st)
                 (js_ljetIdxs st ++ [length (js_jets st)]).

Definition buildJets (cfg : Config) (bHadrons : list nat) (fjJets : list FjJet)
  : JetState :=
  fold_left (buildJet cfg bHadrons) fjJets (mkJetState [] [] []).

(* ================================================================== *)
(** ** Library code the producer calls *)

(** The four-vector accessors [mass()] and [pt()], [std::sort], and the
    clustering: [fjCluster R inputs ptmin] stands for
    [sorted_by_pt(ClusterSequence(inputs, JetDef(antikt, R)).inclusive_jets(ptmin))],
    each jet with its constituents in [sorted_by_pt] order. *)
Class Library : Type := {
  lv_mass : LorentzVector -> float;
  lv_pt : LorentzVector -> float;
  std_sort : (GenParticle -> GenParticle -> bool) ->
             list GenParticle -> list GenParticle;
  fjCluster : float -> list PseudoJet -> float -> list FjJet
}.

Definition gp_pt {L : Library} (g : GenParticle) : float := lv_pt (gp_p4 g).

(** Modelled from the spec: the comparator [GreaterByPt]
    (CommonTools/Utils/interface/PtComparator.h) is not among the sources; the
    neutrino list is ordered by decreasing transverse momentum, so it holds of
    [a] and [b] when the pt of [a] is greater than the pt of [b]. *)
Definition GreaterByPt {L : Library} (a b : GenParticle) : bool :=
  Double.gtb (gp_pt a) (gp_pt b).

(* ================================================================== *)
(** ** Kinematic combinator *)

Section Combinator.

Context {L : Library}.
Variable cfg : Config.

(** [std::abs(v.mass() - target)]. *)
Definition massDev (target : float) (v : LorentzVector) : float :=
  abs (lv_mass v - target)%float.

(** The running best of a search over pairs: [dm] and the two selected
    indices, [-1] until something is selected. *)
Definition PairBest : Type := (float * (Z * Z))%type.

(** *** Dilepton channel: the neutrino pair *)

Definition nuPairInner (lepton2 : GenJet) (neutrinos : list GenParticle)
    (i : nat) (dm1 : float) (st : PairBest) (j : nat) : result PairBest :=
  if (i =? j)%nat then Ok st
  else
    nu_j <- at_ neutrinos j ;;
    let dm2 := massDev (wMass_ cfg) (lv_add (jet_p4 lepton2) (gp_p4 nu_j)) in
    let newDm := (dm1 + dm2)%float in
    if (newDm <? fst st)%float then Ok (newDm, (Z.of_nat i, Z.of_nat j))
    else Ok st.

Definition nuPairOuter (lepton1 lepton2 : GenJet) (neutrinos : list GenParticle)
    (st : PairBest) (i : nat) : result PairBest :=
  nu_i <- at_ neutrinos i ;;
  let dm1 := massDev (wMass_ cfg) (lv_add (jet_p4 lepton1) (gp_p4 nu_i)) in
  foldM (nuPairInner lepton2 neutrinos i dm1) (seq 0 (length neutrinos)) st.

Definition selectNuPair (lepton1 lepton2 : GenJet) (neutrinos : list GenParticle)
  : result PairBest :=
  foldM (nuPairOuter lepton1 lepton2 neutrinos) (seq 0 (length neutrinos))
        (1e9%float, (-1, -1)).

(** *** Both channels: the b-jet pair *)

Definition bPairInner (w2LVec : LorentzVector) (jets : list GenJet)
    (i : nat) (dm1 : float) (st : PairBest) (j : nat) : result PairBest :=
  if (i =? j)%nat then Ok st
  else
    jet_j <- at_ jets j ;;
    let dm2 := massDev (tMass_ cfg) (lv_add w2LVec (jet_p4 jet_j)) in
    let newDm := (dm1 + dm2)%float in
    if (newDm <? fst st)%float then Ok (newDm, (Z.of_nat i, Z.of_nat j))
    else Ok st.

Definition bPairOuter (w1LVec w2LVec : LorentzVector) (jets : list GenJet)
    (bjetIdxs : list nat) (st : PairBest) (i : nat) : result PairBest :=
  jet_i <- at_ jets i ;;
  let dm1 := massDev (tMass_ cfg) (lv_add w1LVec (jet_p4 jet_i)) in
  foldM (bPairInner w2LVec jets i dm1) bjetIdxs st.

Definition selectBJetPair (w1LVec w2LVec : LorentzVector) (jets : list GenJet)
    (bjetIdxs : list nat) : result PairBest :=
  foldM (bPairOuter w1LVec w2LVec jets bjetIdxs) bjetIdxs (1e9%float, (-1, -1)).

(** *** Semileptonic channel: the neutrino and the light-jet pair *)

Definition TripleBest : Type := (float * (Z * (Z * Z)))%type.

Definition wJetInner (jets : list GenJet) (i : nat) (dm1 : float)
    (j1 : nat) (jet1 : GenJet) (st : TripleBest) (j2 : nat) : result TripleBest :=
  jet2 <- at_ jets j2 ;;
  let dm2 := massDev (wMass_ cfg) (lv_add (jet_p4 jet1) (jet_p4 jet2)) in
  let newDm := (dm1 + dm2)%float in
  if (newDm <? fst st)%float
  then Ok (newDm, (Z.of_nat i, (Z.of_nat j1, Z.of_nat j2)))
  else Ok st.

(** The loop of [j1Itr] over [ljetIdxs], [j2Itr] running over what follows. *)
Fixpoint wJetLoop (jets : list GenJet) (i : nat) (dm1 : float)
    (ljets : list nat) (st : TripleBest) : result TripleBest :=
  match ljets with
  | [] => Ok st
  | j1 :: rest =>
      jet1 <- at_ jets j1 ;;
      st' <- foldM (wJetInner jets i dm1 j1 jet1) rest st ;;
      wJetLoop jets i dm1 rest st'
  end.

Definition wOuter (lepton : GenJet) (neutrinos : list GenParticle)
    (jets : list GenJet) (ljetIdxs : list nat) (st : TripleBest) (i : nat)
  : result TripleBest :=
  nu_i <- at_ neutrinos i ;;
  let dm1 := massDev (wMass_ cfg) (lv_add (jet_p4 lepton) (gp_p4 nu_i)) in
  wJetLoop jets i dm1 ljetIdxs st.

Definition selectW (lepton : GenJet) (neutrinos : list GenParticle)
    (jets : list GenJet) (ljetIdxs : list nat) : result TripleBest :=
  foldM (wOuter lepton neutrinos jets ljetIdxs) (seq 0 (length neutrinos))
        (1e9%float, (-1, (-1, -1))).

(** *** The two channels *)

(** The ten particles of the dilepton channel, in the order they are pushed. *)
Definition dileptonParticles (q1 q2 : Z) (lepton1 lepton2 : GenJet)
    (nu1 nu2 : GenParticle) (bJet1 bJet2 : GenJet) : list GenParticle :=
  let w1LVec := lv_add (jet_p4 lepton1) (gp_p4 nu1) in
  let w2LVec := lv_add (jet_p4 lepton2) (gp_p4 nu2) in
  let t1LVec := lv_add w1LVec (jet_p4 bJet1) in
  let t2LVec := lv_add w2LVec (jet_p4 bJet2) in
  let t1 := newGenParticle (Double.of_int (q1 * 2) / 3)%float t1LVec
                           genVertex_ (q1 * 6) 3 false in
  let w1 := newGenParticle (Double.of_int q1) w1LVec genVertex_
                           (q1 * 24) 3 true in
  let b1 := newGenParticle (Double.of_int (- q1) / 3)%float (jet_p4 bJet1)
                           genVertex_ (q1 * 5) 1 true in
  let l1 := newGenParticle (Double.of_int q1) (jet_p4 lepton1) genVertex_
                           (jet_pdgId lepton1) 1 true in
  let n1 := newGenParticle (Double.of_int 0) (gp_p4 nu1) genVertex_
                           (gp_pdgId nu1) 1 true in
  let t2 := newGenParticle (Double.of_int (q2 * 2) / 3)%float t2LVec
                           genVertex_ (q2 * 6) 3 false in
  let w2 := newGenParticle (Double.of_int q2) w2LVec genVertex_
                           (q2 * 24) 3 true in
  let b2 := newGenParticle (Double.of_int (- q1) / 3)%float (jet_p4 bJet2)
                           genVertex_ (q2 * 5) 1 true in
  let l2 := newGenParticle (Double.of_int q2) (jet_p4 lepton2) genVertex_
                           (jet_pdgId lepton2) 1 true in
  let n2 := newGenParticle (Double.of_int 0) (gp_p4 nu2) genVertex_
                           (gp_pdgId nu2) 1 true in
  [t1; t2; w1; b1; l1; n1; w2; b2; l2; n2].

Definition dileptonChannel (leptons : list GenJet) (neutrinos : list GenParticle)
    (jets : list GenJet) (bjetIdxs : list nat) : result (list GenParticle) :=
  lep0 <- at_ leptons 0 ;;
  lep1 <- at_ leptons 1 ;;
  let q1 := jet_charge lep0 in
  let q2 := jet_charge lep1 in
  if q1 * q2 >? 0 then Ok []
  else
    let lepton1 := if q1 >? 0 then lep0 else lep1 in
    let lepton2 := if q1 >? 0 then lep1 else lep0 in
    '(dm, (selNu1, selNu2)) <- selectNuPair lepton1 lepton2 neutrinos ;;
    if Double.geb dm 1e9 then Ok []
    else
      nu1 <- atZ neutrinos selNu1 ;;
      nu2 <- atZ neutrinos selNu2 ;;
      let w1LVec := lv_add (jet_p4 lepton1) (gp_p4 nu1) in
      let w2LVec := lv_add (jet_p4 lepton2) (gp_p4 nu2) in
      '(dm, (selB1, selB2)) <- selectBJetPair w1LVec w2LVec jets bjetIdxs ;;
      if Double.geb dm 1e9 then Ok []
      else
        bJet1 <- atZ jets selB1 ;;
        bJet2 <- atZ jets selB2 ;;
        Ok (dileptonParticles q1 q2 lepton1 lepton2 nu1 nu2 bJet1 bJet2).

(** The ten particles of the semileptonic channel. *)
Definition semileptonicParticles (q : Z) (lepton : GenJet) (nu1 : GenParticle)
    (wJet1 wJet2 bJet1 bJet2 : GenJet) : list GenParticle :=
  let w1LVec := lv_add (jet_p4 lepton) (gp_p4 nu1) in
  let w2LVec := lv_add (jet_p4 wJet1) (jet_p4 wJet2) in
  let t1LVec := lv_add w1LVec (jet_p4 bJet1) in
  let t2LVec := lv_add w2LVec (jet_p4 bJet2) in
  let t1 := newGenParticle (Double.of_int (q * 2) / 3)%float t1LVec
                           genVertex_ (q * 6) 3 false in
  let w1 := newGenParticle (Double.of_int q) w1LVec genVertex_
                           (q * 24) 3 true in
  let b1 := newGenParticle (Double.of_int (- q) / 3)%float (jet_p4 bJet1)
                           genVertex_ (q * 5) 1 true in
  let l1 := newGenParticle (Double.of_int q) (jet_p4 lepton) genVertex_
                           (jet_pdgId lepton) 1 true in
  let n1 := newGenParticle (Double.of_int 0) (gp_p4 nu1) genVertex_
                           (gp_pdgId nu1) 1 true in
  let t2 := newGenParticle (Double.of_int (- q * 2) / 3)%float t2LVec
                           genVertex_ (- q * 6) 3 false in
  let w2 := newGenParticle (Double.of_int (- q)) w2LVec genVertex_
                           (- q * 24) 3 true in
  let b2 := newGenParticle (Double.of_int 0) (jet_p4 bJet2) genVertex_
                           (- q * 5) 1 true in
  let u2 := newGenParticle (Double.of_int 0) (jet_p4 wJet1) genVertex_
                           (-2 * q) 1 true in
  let d2 := newGenParticle (Double.of_int 0) (jet_p4 wJet2) genVertex_
                           q 1 true in
  [t1; t2; w1; b1; l1; n1; w2; b2; u2; d2].

Definition semileptonicChannel (leptons : list GenJet)
    (neutrinos : list GenParticle) (jets : list GenJet)
    (bjetIdxs ljetIdxs : list nat) : result (list GenParticle) :=
  lepton <- at_ leptons 0 ;;
  '(dm, (selNu, (selJ1, selJ2))) <- selectW lepton neutrinos jets ljetIdxs ;;
  if Double.geb dm 1e9 then Ok []
  else
    nu1 <- atZ neutrinos selNu ;;
    wJet1 <- atZ jets selJ1 ;;
    wJet2 <- atZ jets selJ2 ;;
    let w1LVec := lv_add (jet_p4 lepton) (gp_p4 nu1) in
    let w2LVec := lv_add (jet_p4 wJet1) (jet_p4 wJet2) in
    '(dm, (selB1, selB2)) <- selectBJetPair w1LVec w2LVec jets bjetIdxs ;;
    if Double.geb dm 1e9 then Ok []
    else
      bJet1 <- atZ jets selB1 ;;
      bJet2 <- atZ jets selB2 ;;
      Ok (semileptonicParticles (jet_charge lepton) lepton nu1 wJet1 wJet2
                                bJet1 bJet2).

(** The [do { ... } while (false)] block: what [pseudoTop] holds when it is
    left, by a [break] (nothing was pushed yet) or at its end. *)
Definition combinePseudoTop (leptons : list GenJet) (neutrinos : list GenParticle)
    (jets : list GenJet) (bjetIdxs ljetIdxs : list nat)
  : result (list GenParticle) :=
  if (length bjetIdxs <? 2)%nat then Ok []
  else if (length leptons =? 2)%nat && (2 <=? length neutrinos)%nat then
    dileptonChannel leptons neutrinos jets bjetIdxs
  else if (length leptons =? 1)%nat && (1 <=? length neutrinos)%nat then
    semileptonicChannel leptons neutrinos jets bjetIdxs ljetIdxs
  else Ok [].

End Combinator.

(* ================================================================== *)
(** ** Decay graph *)

Definition addDaughter (k : nat) (g : GenParticle) : GenParticle :=
  mkGenParticle (gp_charge g) (gp_p4 g) (gp_vertex g) (gp_pdgId g) (gp_status g)
                (gp_integerCharge g) (gp_daughters g ++ [k]) (gp_mothers g).

Definition addMother (k : nat) (g : GenParticle) : GenParticle :=
  mkGenParticle (gp_charge g) (gp_p4 g) (gp_vertex g) (gp_pdgId g) (gp_status g)
                (gp_integerCharge g) (gp_daughters g) (gp_mothers g ++ [k]).

(** [pseudoTop->at(i).f(...)]: an update in place. *)
Definition modifyAt (l : list GenParticle) (op : nat * (GenParticle -> GenParticle))
  : result (list GenParticle) :=
  g <- at_ l (fst op) ;;
  Ok (firstn (fst op) l ++ snd op g :: skipn (S (fst op)) l).

(** The sixteen links, in the order of the source. *)
Definition decayLinks : list (nat * (GenParticle -> GenParticle)) :=
  [ (0, addDaughter 2); (0, addDaughter 3); (2, addMother 0); (3, addMother 0);
    (2, addDaughter 4); (2, addDaughter 5); (4, addMother 2); (5, addMother 2);
    (1, addDaughter 6); (1, addDaughter 7); (6, addMother 1); (7, addMother 1);
    (6, addDaughter 8); (6, addDaughter 9); (8, addMother 6); (9, addMother 6) ]%nat.

Definition linkDecayTree (pseudoTop : list GenParticle)
  : result (list GenParticle) :=
  if (length pseudoTop =? 10)%nat then foldM modifyAt decayLinks pseudoTop
  else Ok pseudoTop.

(* ================================================================== *)
(** ** Copies for an output collection *)

Section BuildGenParticle.

(** [dynamic_cast<const reco::GenParticle*>(p)]: the particle as a
    [reco::GenParticle] when it is one, the null pointer otherwise. *)
Variable asGenParticle : Candidate -> option GenParticle.

(** [buildGenParticle]: a copy of the particle, its mother and daughter
    references cleared, is pushed on the output collection, and the reference
    to it, the index [size() - 1], is returned; the collection is returned
    with it.  The copy is made through the pointer the cast returns, whose
    dereference fails when it is null.  References are positions in the
    output collection, so that resetting the product of the two reference
    vectors to the one of the collection changes nothing here. *)
Definition buildGenParticle (p : Candidate) (outColl : list GenParticle)
  : result (nat * list GenParticle) :=
  match asGenParticle p with
  | None => Raise InvalidPtr
  | Some g =>
      let pOut := mkGenParticle (gp_charge g) (gp_p4 g) (gp_vertex g)
                                (gp_pdgId g) (gp_status g) (gp_integerCharge g)
                                [] [] in
      let outColl' := outColl ++ [pOut] in
      Ok ((length outColl' - 1)%nat, outColl')
  end.

End BuildGenParticle.

(* ================================================================== *)
(** ** The producer *)

(** What [produce] puts into the event. *)
Record Output : Set := mkOutput {
  out_neutrinos : list GenParticle;
  out_leptons : list GenJet;
  out_jets : list GenJet;
  out_pseudoTop : list GenParticle
}.

Section Producer.

Context {L : Library}.
Variable cfg : Config.

(** The neutrino collection after [std::sort]. *)
Definition sortedNeutrinos (ev : Event) : list GenParticle :=
  std_sort GreaterByPt (collectNeutrinos (finalStates ev)).

(** The building blocks the combinator works on. *)
Record Blocks : Set := mkBlocks {
  bl_neutrinos : list GenParticle;
  bl_leptons : list GenJet;
  bl_lepDauIdxs : list nat;
  bl_jetInputs : list PseudoJet;
  bl_jets : list GenJet;
  bl_bjetIdxs : list nat;
  bl_ljetIdxs : list nat
}.

Definition buildingBlocks (ev : Event) : result Blocks :=
  let bHadrons := bHadronIdxs ev in
  let neutrinos := sortedNeutrinos ev in
  lepInputs <- fjLepInputs (finalStates ev) (leptonIdxs ev) ;;
  let fjLepJets := fjCluster (leptonConeSize cfg) lepInputs (leptonMinPt_ cfg) in
  '(leptons, lepDauIdxs) <- buildLeptons cfg (finalStates ev) fjLepJets ;;
  jetInputs <- fjJetInputs ev lepDauIdxs bHadrons ;;
  let fjJets := fjCluster (jetConeSize cfg) jetInputs (jetMinPt_ cfg) in
  let js := buildJets cfg bHadrons fjJets in
  Ok (mkBlocks neutrinos leptons lepDauIdxs jetInputs
               (js_jets js) (js_bjetIdxs js) (js_ljetIdxs js)).

Definition pseudoTopOf (b : Blocks) : result (list GenParticle) :=
  pseudoTop <- combinePseudoTop cfg (bl_leptons b) (bl_neutrinos b) (bl_jets b)
                                (bl_bjetIdxs b) (bl_ljetIdxs b) ;;
  linkDecayTree pseudoTop.

Definition produce (ev : Event) : result Output :=
  b <- buildingBlocks ev ;;
  pseudoTop <- pseudoTopOf b ;;
  Ok (mkOutput (bl_neutrinos b) (bl_leptons b) (bl_jets b) pseudoTop).

End Producer.

(* ================================================================== *)
(** ** A concrete library, for running the producer on examples *)

Module Reference.

Open Scope float_scope.

(** Invariant mass and transverse momentum of a Cartesian four-vector. *)
Definition cartesianMass (v : LorentzVector) : float :=
  let mm := lv_E v * lv_E v - lv_px v * lv_px v - lv_py v * lv_py v
            - lv_pz v * lv_pz v in
  if 0 <=? mm then sqrt mm else - sqrt (- mm).

Definition cartesianPt (v : LorentzVector) : float :=
  sqrt (lv_px v * lv_px v + lv_py v * lv_py v).

(** Insertion sort: [x] goes in front of the first element it must precede. *)
Fixpoint insertSorted {A : Type} (cmp : A -> A -> bool) (x : A) (l : list A)
  : list A :=
  match l with
  | [] => [x]
  | y :: l' => if cmp x y then x :: y :: l' else y :: insertSorted cmp x l'
  end.

Fixpoint insertionSort {A : Type} (cmp : A -> A -> bool) (l : list A) : list A :=
  match l with
  | [] => []
  | x :: l' => insertSorted cmp x (insertionSort cmp l')
  end.

(** The clustering in the limit of a vanishing radius: every input above
    [ptmin] is a jet of its own, the jets by decreasing pt.  The
    pseudorapidity is the one of a particle in the transverse plane, which
    is where the examples below put theirs. *)
Definition singletonJet (c : PseudoJet) : FjJet :=
  mkFjJet (pj_px c) (pj_py c) (pj_pz c) (pj_E c) 0 false 0 [c].

Definition pj_pt (c : PseudoJet) : float :=
  sqrt (pj_px c * pj_px c + pj_py c * pj_py c).

Definition singletonCluster (R : float) (inputs : list PseudoJet) (ptmin : float)
  : list FjJet :=
  map singletonJet
      (insertionSort (fun a b => pj_pt b <? pj_pt a)
                     (filter (fun c => ptmin <=? pj_pt c) inputs)).

#[export] Instance library : Library := {|
  lv_mass := cartesianMass;
  lv_pt := cartesianPt;
  std_sort := insertionSort;
  fjCluster := singletonCluster
|}.

End Reference.

(* ================================================================== *)
(** ** Example events *)

Module Examples.

Import Reference.

(** A massless particle in the transverse plane; its [pt()] and [p()] are
    those of its four-momentum. *)
Definition particle (pdgId status charge : Z) (px py : float)
    (mothers daughters : list Candidate) : Candidate :=
  let pt := sqrt (px * px + py * py)%float in
  mkCandidate pdgId status charge (mkLorentzVector px py 0 pt) genVertex_
              pt pt mothers daughters.

(** The hard process the stable particles descend from. *)
Definition proton : Candidate := particle 2212 4 1 0 0 [] [].
Definition gluon : Candidate := particle 21 21 0 0 0 [proton] [].
Definition top : Candidate := particle 6 22 0 0 0 [gluon] [].
Definition antitop : Candidate := particle (-6) 22 0 0 0 [gluon] [].
Definition Wplus : Candidate := particle 24 22 1 0 0 [top] [].
Definition Wminus : Candidate := particle (-24) 22 (-1) 0 0 [antitop] [].
Definition bquark : Candidate := particle 5 23 0 0 0 [top] [].
Definition antibquark : Candidate := particle (-5) 23 0 0 0 [antitop] [].

Definition positron : Candidate := particle (-11) 1 1 50 0 [Wplus] [].
Definition muon : Candidate := particle 13 1 (-1) 0 40 [Wminus] [].
Definition nu_e : Candidate := particle 12 1 0 30 10 [Wplus] [].
Definition nu_mubar : Candidate := particle (-14) 1 0 (-10) 25 [Wminus] [].
Definition pion : Candidate := particle 211 1 1 5 5 [bquark] [].
Definition Bminus : Candidate := particle (-521) 2 (-1) 60 (-20) [bquark] [pion].
Definition Bplus : Candidate := particle 521 2 1 (-45) (-30) [antibquark] [pion].
(** An excited B that decays to a B, and is therefore not counted. *)
Definition Bstar : Candidate := particle 523 2 1 (-45) (-30) [antibquark] [Bplus].

#[warnings="-inexact-float"] Definition cfg : Config :=
  mkConfig 20 2.4 0 2.4 80.4 172.5 0.1 0.4.

(** A dilepton event; both handles read the same collection. *)
Definition dileptonParticlesList : list Candidate :=
  [positron; muon; nu_e; nu_mubar; Bminus; Bplus; Bstar].
Definition dileptonEvent : Event :=
  mkEvent dileptonParticlesList dileptonParticlesList.

(** The same event with the negative lepton leading in pt. *)
Definition hardMuon : Candidate := particle 13 1 (-1) 0 70 [Wminus] [].
Definition muonLeadingEvent : Event :=
  let ps := [positron; hardMuon; nu_e; nu_mubar; Bminus; Bplus] in
  mkEvent ps ps.

(** One b hadron only. *)
Definition singleBEvent : Event :=
  let ps := [positron; muon; nu_e; nu_mubar; Bminus] in
  mkEvent ps ps.

(** A reference W mass that no lepton-neutrino pair comes within 1e9 of. *)
#[warnings="-inexact-float"] Definition farCfg : Config :=
  mkConfig 20 2.4 0 2.4 1e10 172.5 0.1 0.4.

(** The two handles read different collections: index 0 is a positron in the
    final state and a b hadron in [genParticles]. *)
Definition misalignedEvent : Event := mkEvent [positron] [Bminus].

(** An electron and a positron of exactly the same momentum in one cluster,
    in the two orders the constituents can come in. *)
Definition electronA : Candidate := particle 11 1 (-1) 10 0 [Wminus] [].
Definition positronB : Candidate := particle (-11) 1 1 10 0 [Wplus] [].
Definition tieFinal : list Candidate := [electronA; positronB].
Definition tieCluster : FjJet :=
  mkFjJet 20 0 0 20 0 false 0
          [toPseudoJet electronA 0; toPseudoJet positronB 1].
Definition tieClusterSwapped : FjJet :=
  mkFjJet 20 0 0 20 0 false 0
          [toPseudoJet positronB 1; toPseudoJet electronA 0].

(** A neutrino whose momentum is not a number, and a lepton whose momentum
    is infinite. *)
Definition nanNeutrino : Candidate := particle 12 1 0 nan 10 [Wplus] [].
Definition nanNeutrinoEvent : Event :=
  let ps := [nanNeutrino; nu_mubar] in mkEvent ps ps.
Definition infinitePositron : Candidate := particle (-11) 1 1 infinity 0 [Wplus] [].
Definition infiniteB : Candidate := particle 521 2 1 infinity 0 [antibquark] [pion].
Definition infinitePtEvent : Event :=
  let ps := [infinitePositron; infiniteB] in mkEvent ps ps.
(** Two neutrinos of the same pt. *)
Definition nu_e_twin : Candidate := particle (-12) 1 0 10 30 [Wminus] [].
Definition twinNeutrinoEvent : Event :=
  let ps := [nu_e; nu_e_twin] in mkEvent ps ps.
(** Leptons the pt test removes. *)
Definition nanPositron : Candidate := particle (-11) 1 1 nan 0 [Wplus] [].
Definition restPositron : Candidate := particle (-11) 1 1 0 0 [Wplus] [].
Definition nanB : Candidate := particle 521 2 1 nan 0 [antibquark] [pion].
Definition badPtEvent : Event :=
  let ps := [nanPositron; restPositron; positron; nanB; pion] in mkEvent ps ps.

(** The pt values of a list of particles, and whether they never increase. *)
Fixpoint nonIncreasing (pts : list float) : bool :=
  match pts with
  | [] => true
  | x :: rest => forallb (fun y => (y <=? x)%float) rest && nonIncreasing rest
  end.

(** What the producer returns on three of these events. *)
Definition noOutput : Output := mkOutput [] [] [] [].

Definition outputOf (c : Config) (ev : Event) : Output :=
  match produce c ev with
  | Ok out => out
  | Raise _ => noOutput
  end.

Definition blocksOf (c : Config) (ev : Event) : Blocks :=
  match buildingBlocks c ev with
  | Ok b => b
  | Raise _ => mkBlocks [] [] [] [] [] [] []
  end.

Definition dileptonOutput : Output := Eval vm_compute in outputOf cfg dileptonEvent.
Definition muonLeadingOutput : Output :=
  Eval vm_compute in outputOf cfg muonLeadingEvent.
Definition singleBBlocks : Blocks := Eval vm_compute in blocksOf cfg singleBEvent.
Definition dileptonBlocks : Blocks := Eval vm_compute in blocksOf cfg dileptonEvent.

Definition misalignedBlocks : Blocks :=
  Eval vm_compute in blocksOf cfg misalignedEvent.
Definition nanNeutrinoOutput : Output :=
  Eval vm_compute in outputOf cfg nanNeutrinoEvent.
Definition twinNeutrinoOutput : Output :=
  Eval vm_compute in outputOf cfg twinNeutrinoEvent.

Definition noJet : GenJet :=
  mkGenJet (mkLorentzVector 0 0 0 0) genVertex_ [] 0 0 0.
Definition leadingLepton : GenJet :=
  Eval vm_compute in nth 0 (bl_leptons dileptonBlocks) noJet.
Definition secondLepton : GenJet :=
  Eval vm_compute in nth 1 (bl_leptons dileptonBlocks) noJet.

Definition dileptonComb : list GenParticle :=
  Eval vm_compute in
    match combinePseudoTop cfg (bl_leptons dileptonBlocks)
                           (bl_neutrinos dileptonBlocks) (bl_jets dileptonBlocks)
                           (bl_bjetIdxs dileptonBlocks) (bl_ljetIdxs dileptonBlocks)
    with
    | Ok out => out
    | Raise _ => []
    end.

(** A semileptonic event: one lepton, one neutrino, two b hadrons and two
    light hadrons. *)
Definition uquark : Candidate := particle 2 23 0 0 0 [Wminus] [].
Definition pionA : Candidate := particle 211 1 1 20 35 [uquark] [].
Definition pionB : Candidate := particle (-211) 1 (-1) (-30) 10 [uquark] [].
Definition semileptonicParticlesList : list Candidate :=
  [positron; nu_e; Bminus; Bplus; pionA; pionB].
Definition semileptonicEvent : Event :=
  mkEvent semileptonicParticlesList semileptonicParticlesList.

Definition semileptonicBlocks : Blocks :=
  Eval vm_compute in blocksOf cfg semileptonicEvent.
Definition semileptonicOutput : Output :=
  Eval vm_compute in outputOf cfg semileptonicEvent.
Definition semileptonicLepton : GenJet :=
  Eval vm_compute in nth 0 (bl_leptons semileptonicBlocks) noJet.

(** A muon, a softer electron and a photon in one cluster. *)
Definition softElectron : Candidate := particle 11 1 (-1) 10 0 [Wminus] [].
Definition photon : Candidate := particle 22 1 0 1 1 [Wminus] [].
Definition dressFinal : list Candidate := [muon; softElectron; photon].
Definition dressCluster : FjJet :=
  mkFjJet 11 41 0 52 0 false 0
          [toPseudoJet muon 0; toPseudoJet softElectron 1; toPseudoJet photon 2].
(** A cluster of the muon and the electron, and a cluster of the photon
    alone. *)
Definition leptonPairCluster : FjJet :=
  mkFjJet 10 40 0 50 0 false 0 [toPseudoJet muon 0; toPseudoJet softElectron 1].
Definition photonCluster : FjJet :=
  mkFjJet 1 1 0 (sqrt 2) 0 false 0 [toPseudoJet photon 2].

Definition dressedState : DressState :=
  Eval vm_compute in
    match buildLeptons cfg dressFinal [leptonPairCluster; photonCluster] with
    | Ok st => st
    | Raise _ => ([], [])
    end.

Definition semileptonicComb : list GenParticle :=
  Eval vm_compute in
    match combinePseudoTop cfg (bl_leptons semileptonicBlocks)
                           (bl_neutrinos semileptonicBlocks)
                           (bl_jets semileptonicBlocks)
                           (bl_bjetIdxs semileptonicBlocks)
                           (bl_ljetIdxs semileptonicBlocks)
    with
    | Ok out => out
    | Raise _ => []
    end.

(** The antiparticle of the excited B, which decays to a B-: both carry a
    negative species code. *)
Definition BstarMinus : Candidate :=
  particle (-523) 2 (-1) 60 (-20) [bquark] [Bminus].

(** The pairs the two searches of the dilepton example select: the second
    neutrino with [lepton1] and the first with [lepton2]; the first b jet
    with the first W and the second with the second.  And the pairs they
    pass over. *)
Definition chosenNuPair : (nat * GenParticle) * (nat * GenParticle) :=
  Eval vm_compute in
    ((1%nat, nth 1 (bl_neutrinos dileptonBlocks) (neutrinoCopy nu_e)),
     (0%nat, nth 0 (bl_neutrinos dileptonBlocks) (neutrinoCopy nu_e))).
Definition otherNuPair : (nat * GenParticle) * (nat * GenParticle) :=
  Eval vm_compute in (snd chosenNuPair, fst chosenNuPair).
Definition chosenBPair : (nat * GenJet) * (nat * GenJet) :=
  Eval vm_compute in
    ((0%nat, nth 0 (bl_jets dileptonBlocks) noJet),
     (1%nat, nth 1 (bl_jets dileptonBlocks) noJet)).
Definition otherBPair : (nat * GenJet) * (nat * GenJet) :=
  Eval vm_compute in (snd chosenBPair, fst chosenBPair).

End Examples.

(* ================================================================== *)
(** ** Notions the statements are written with *)

(** The elements a loop over indices visits, each with its index. *)
Definition resolve {X : Type} (l : list X) (idxs : list nat) : list (nat * X) :=
  flat_map (fun i => match nth_error l i with
                     | Some x => [(i, x)]
                     | None => []
                     end) idxs.

(** The pairs a double loop over [l] visits, in the order it visits them:
    the outer element first, then the inner one, equal indices skipped. *)
Definition orderedPairs {X : Type} (l : list (nat * X))
  : list ((nat * X) * (nat * X)) :=
  flat_map (fun a => flat_map (fun b => if (fst a =? fst b)%nat then []
                                        else [(a, b)]) l) l.

(** The pairs of an element of [l] with a later one, as the loops of
    [j1Itr] and [j2Itr] visit them. *)
Fixpoint laterPairs {X : Type} (l : list X) : list (X * X) :=
  match l with
  | [] => []
  | a :: r => map (pair a) r ++ laterPairs r
  end.

(** A search for the least deviation: the running best is replaced only by a
    strictly smaller deviation. *)
Section Search.

Variables C S : Type.
Variable dev : C -> float.
Variable enc : C -> S.

Definition better (st : float * S) (c : C) : float * S :=
  if (dev c <? fst st)%float then (dev c, enc c) else st.

Definition search (none : S) (cs : list C) : float * S :=
  fold_left better cs (1e9%float, none).

(** What a search started from [(dm0, s0)] ends with: either nothing was
    below [dm0] and the state is untouched, or it holds the first of the
    combinations of least deviation. *)
Inductive SearchOutcome (dm0 : float) (s0 : S) (cs : list C) (r : float * S)
  : Prop :=
| Untouched :
    r = (dm0, s0) ->
    Forall (fun c => (dev c <? dm0)%float = false) cs ->
    SearchOutcome dm0 s0 cs r
| Selected (pre : list C) (c : C) (post : list C) :
    cs = pre ++ c :: post ->
    r = (dev c, enc c) ->
    (dev c <? dm0)%float = true ->
    Forall (fun c' => (dev c' <=? dev c)%float = false) pre ->
    Forall (fun c' => (dev c' <? dev c)%float = false) post ->
    SearchOutcome dm0 s0 cs r.

End Search.

Arguments better {C S} dev enc st c.
Arguments search {C S} dev enc none cs.
Arguments SearchOutcome {C S} dev enc dm0 s0 cs r.

Section Deviations.

Context {L : Library}.
Variable cfg : Config.

(** The deviation of a neutrino pair, of a b-jet pair, and of a neutrino
    with a light-jet pair. *)
Definition nuPairDev (lepton1 lepton2 : GenJet)
    (c : (nat * GenParticle) * (nat * GenParticle)) : float :=
  (massDev (wMass_ cfg) (lv_add (jet_p4 lepton1) (gp_p4 (snd (fst c))))
   + massDev (wMass_ cfg) (lv_add (jet_p4 lepton2) (gp_p4 (snd (snd c)))))%float.

Definition bPairDev (w1LVec w2LVec : LorentzVector)
    (c : (nat * GenJet) * (nat * GenJet)) : float :=
  (massDev (tMass_ cfg) (lv_add w1LVec (jet_p4 (snd (fst c))))
   + massDev (tMass_ cfg) (lv_add w2LVec (jet_p4 (snd (snd c)))))%float.

Definition wDev (lepton : GenJet)
    (c : (nat * GenParticle) * ((nat * GenJet) * (nat * GenJet))) : float :=
  (massDev (wMass_ cfg) (lv_add (jet_p4 lepton) (gp_p4 (snd (fst c))))
   + massDev (wMass_ cfg)
             (lv_add (jet_p4 (snd (fst (snd c)))) (jet_p4 (snd (snd (snd c))))))%float.

(** The combinations the semileptonic search visits. *)
Definition wCombos (neutrinos : list GenParticle) (jets : list GenJet)
    (ljetIdxs : list nat)
  : list ((nat * GenParticle) * ((nat * GenJet) * (nat * GenJet))) :=
  flat_map (fun a => map (pair a) (laterPairs (resolve jets ljetIdxs)))
           (resolve neutrinos (seq 0 (length neutrinos))).

End Deviations.

Definition encPair {X Y : Type} (c : (nat * X) * (nat * Y)) : Z * Z :=
  (Z.of_nat (fst (fst c)), Z.of_nat (fst (snd c))).

Definition encTriple {X Y W : Type} (c : (nat * X) * ((nat * Y) * (nat * W)))
  : Z * (Z * Z) :=
  (Z.of_nat (fst (fst c)),
   (Z.of_nat (fst (fst (snd c))), Z.of_nat (fst (snd (snd c))))).

(** [c] is the first of the combinations of least deviation, and its
    deviation is below the sentinel: nothing visited before it ties it or
    beats it, nothing visited after it beats it. *)
Definition firstLeast {C : Type} (dev : C -> float) (cs : list C) (c : C) : Prop :=
  (dev c <? 1e9)%float = true /\
  exists pre post,
    cs = pre ++ c :: post /\
    Forall (fun c' => (dev c' <=? dev c)%float = false) pre /\
    Forall (fun c' => (dev c' <? dev c)%float = false) post.

(** No combination has a deviation below the sentinel. *)
Definition noneBelow {C : Type} (dev : C -> float) (cs : list C) : Prop :=
  Forall (fun c => (dev c <? 1e9)%float = false) cs.

Section Outcomes.

Context {L : Library}.
Variable cfg : Config.

Definition nuPairsOf (neutrinos : list GenParticle) :=
  orderedPairs (resolve neutrinos (seq 0 (length neutrinos))).

Definition bPairsOf (jets : list GenJet) (bjetIdxs : list nat) :=
  orderedPairs (resolve jets bjetIdxs).

(** Which dressed lepton plays [lepton1] and which [lepton2]. *)
Definition lepton1Of (lep0 lep1 : GenJet) : GenJet :=
  if jet_charge lep0 >? 0 then lep0 else lep1.
Definition lepton2Of (lep0 lep1 : GenJet) : GenJet :=
  if jet_charge lep0 >? 0 then lep1 else lep0.

(** The four ways through the dilepton channel. *)
Inductive DileptonOutcome (lep0 lep1 : GenJet) (neutrinos : list GenParticle)
    (jets : list GenJet) (bjetIdxs : list nat) : list GenParticle -> Prop :=
| DL_sameSign :
    jet_charge lep0 * jet_charge lep1 > 0 ->
    DileptonOutcome lep0 lep1 neutrinos jets bjetIdxs []
| DL_noNuPair :
    jet_charge lep0 * jet_charge lep1 <= 0 ->
    noneBelow (nuPairDev cfg (lepton1Of lep0 lep1) (lepton2Of lep0 lep1))
              (nuPairsOf neutrinos) ->
    DileptonOutcome lep0 lep1 neutrinos jets bjetIdxs []
| DL_noBPair cN :
    jet_charge lep0 * jet_charge lep1 <= 0 ->
    firstLeast (nuPairDev cfg (lepton1Of lep0 lep1) (lepton2Of lep0 lep1))
               (nuPairsOf neutrinos) cN ->
    noneBelow (bPairDev cfg
                 (lv_add (jet_p4 (lepton1Of lep0 lep1)) (gp_p4 (snd (fst cN))))
                 (lv_add (jet_p4 (lepton2Of lep0 lep1)) (gp_p4 (snd (snd cN)))))
              (bPairsOf jets bjetIdxs) ->
    DileptonOutcome lep0 lep1 neutrinos jets bjetIdxs []
| DL_built cN cB :
    jet_charge lep0 * jet_charge lep1 <= 0 ->
    firstLeast (nuPairDev cfg (lepton1Of lep0 lep1) (lepton2Of lep0 lep1))
               (nuPairsOf neutrinos) cN ->
    firstLeast (bPairDev cfg
                  (lv_add (jet_p4 (lepton1Of lep0 lep1)) (gp_p4 (snd (fst cN))))
                  (lv_add (jet_p4 (lepton2Of lep0 lep1)) (gp_p4 (snd (snd cN)))))
               (bPairsOf jets bjetIdxs) cB ->
    DileptonOutcome lep0 lep1 neutrinos jets bjetIdxs
      (dileptonParticles (jet_charge lep0) (jet_charge lep1)
         (lepton1Of lep0 lep1) (lepton2Of lep0 lep1)
         (snd (fst cN)) (snd (snd cN)) (snd (fst cB)) (snd (snd cB))).

(** The three ways through the semileptonic channel. *)
Inductive SemileptonicOutcome (lepton : GenJet) (neutrinos : list GenParticle)
    (jets : list GenJet) (bjetIdxs ljetIdxs : list nat)
  : list GenParticle -> Prop :=
| SL_noW :
    noneBelow (wDev cfg lepton) (wCombos neutrinos jets ljetIdxs) ->
    SemileptonicOutcome lepton neutrinos jets bjetIdxs ljetIdxs []
| SL_noBPair cW :
    firstLeast (wDev cfg lepton) (wCombos neutrinos jets ljetIdxs) cW ->
    noneBelow (bPairDev cfg
                 (lv_add (jet_p4 lepton) (gp_p4 (snd (fst cW))))
                 (lv_add (jet_p4 (snd (fst (snd cW))))
                         (jet_p4 (snd (snd (snd cW))))))
              (bPairsOf jets bjetIdxs) ->
    SemileptonicOutcome lepton neutrinos jets bjetIdxs ljetIdxs []
| SL_built cW cB :
    firstLeast (wDev cfg lepton) (wCombos neutrinos jets ljetIdxs) cW ->
    firstLeast (bPairDev cfg
                  (lv_add (jet_p4 lepton) (gp_p4 (snd (fst cW))))
                  (lv_add (jet_p4 (snd (fst (snd cW))))
                          (jet_p4 (snd (snd (snd cW))))))
               (bPairsOf jets bjetIdxs) cB ->
    SemileptonicOutcome lepton neutrinos jets bjetIdxs ljetIdxs
      (semileptonicParticles (jet_charge lepton) lepton (snd (fst cW))
         (snd (fst (snd cW))) (snd (snd (snd cW)))
         (snd (fst cB)) (snd (snd cB))).

(** The ways through the whole block. *)
Inductive CombineOutcome (leptons : list GenJet) (neutrinos : list GenParticle)
    (jets : list GenJet) (bjetIdxs ljetIdxs : list nat)
  : list GenParticle -> Prop :=
| CO_fewBJets :
    (length bjetIdxs < 2)%nat ->
    CombineOutcome leptons neutrinos jets bjetIdxs ljetIdxs []
| CO_dilepton lep0 lep1 out :
    (2 <= length bjetIdxs)%nat ->
    leptons = [lep0; lep1] -> (2 <= length neutrinos)%nat ->
    DileptonOutcome lep0 lep1 neutrinos jets bjetIdxs out ->
    CombineOutcome leptons neutrinos jets bjetIdxs ljetIdxs out
| CO_semileptonic lepton out :
    (2 <= length bjetIdxs)%nat ->
    leptons = [lepton] -> (1 <= length neutrinos)%nat ->
    SemileptonicOutcome lepton neutrinos jets bjetIdxs ljetIdxs out ->
    CombineOutcome leptons neutrinos jets bjetIdxs ljetIdxs out
| CO_unsupported :
    (2 <= length bjetIdxs)%nat ->
    ~ (length leptons = 2 /\ 2 <= length neutrinos)%nat ->
    ~ (length leptons = 1 /\ 1 <= length neutrinos)%nat ->
    CombineOutcome leptons neutrinos jets bjetIdxs ljetIdxs [].

End Outcomes.

(** A particle without its links. *)
Definition unlinked (g : GenParticle) : GenParticle :=
  mkGenParticle (gp_charge g) (gp_p4 g) (gp_vertex g) (gp_pdgId g) (gp_status g)
                (gp_integerCharge g) [] [].

(** Every combination has a deviation of at least the sentinel. *)
Definition allAtSentinel {C : Type} (dev : C -> float) (cs : list C) : Prop :=
  Forall (fun c => Double.geb (dev c) 1e9 = true) cs.

(** The events [produce] reconstructs nothing from, by cause, read on the
    building blocks: too few b jets; multiplicities of neither channel; two
    leptons of the same sign; a search that finds no combination. *)
Inductive NoResult {L : Library} (cfg : Config) (b : Blocks) : Prop :=
| NR_fewBJets :
    (length (bl_bjetIdxs b) < 2)%nat -> NoResult cfg b
| NR_multiplicities :
    ~ (length (bl_leptons b) = 2 /\ 2 <= length (bl_neutrinos b))%nat ->
    ~ (length (bl_leptons b) = 1 /\ 1 <= length (bl_neutrinos b))%nat ->
    NoResult cfg b
| NR_sameSign lep0 lep1 :
    bl_leptons b = [lep0; lep1] -> (2 <= length (bl_neutrinos b))%nat ->
    jet_charge lep0 * jet_charge lep1 > 0 ->
    NoResult cfg b
| NR_noNeutrinoPair lep0 lep1 :
    bl_leptons b = [lep0; lep1] -> (2 <= length (bl_neutrinos b))%nat ->
    noneBelow (nuPairDev cfg (lepton1Of lep0 lep1) (lepton2Of lep0 lep1))
              (nuPairsOf (bl_neutrinos b)) ->
    NoResult cfg b
| NR_noBJetPairDilepton lep0 lep1 cN :
    bl_leptons b = [lep0; lep1] -> (2 <= length (bl_neutrinos b))%nat ->
    firstLeast (nuPairDev cfg (lepton1Of lep0 lep1) (lepton2Of lep0 lep1))
               (nuPairsOf (bl_neutrinos b)) cN ->
    noneBelow (bPairDev cfg
                 (lv_add (jet_p4 (lepton1Of lep0 lep1)) (gp_p4 (snd (fst cN))))
                 (lv_add (jet_p4 (lepton2Of lep0 lep1)) (gp_p4 (snd (snd cN)))))
              (bPairsOf (bl_jets b) (bl_bjetIdxs b)) ->
    NoResult cfg b
| NR_noWCombination lepton :
    bl_leptons b = [lepton] -> (1 <= length (bl_neutrinos b))%nat ->
    noneBelow (wDev cfg lepton)
              (wCombos (bl_neutrinos b) (bl_jets b) (bl_ljetIdxs b)) ->
    NoResult cfg b
| NR_noBJetPairSemileptonic lepton cW :
    bl_leptons b = [lepton] -> (1 <= length (bl_neutrinos b))%nat ->
    firstLeast (wDev cfg lepton)
               (wCombos (bl_neutrinos b) (bl_jets b) (bl_ljetIdxs b)) cW ->
    noneBelow (bPairDev cfg
                 (lv_add (jet_p4 lepton) (gp_p4 (snd (fst cW))))
                 (lv_add (jet_p4 (snd (fst (snd cW))))
                         (jet_p4 (snd (snd (snd cW))))))
              (bPairsOf (bl_jets b) (bl_bjetIdxs b)) ->
    NoResult cfg b.

(** A charged lepton: absolute species code 11 or 13. *)
Definition isChargedLepton (p : Candidate) : bool :=
  (Z.abs (cand_pdgId p) =? 11) || (Z.abs (cand_pdgId p) =? 13).

(** [r], at index [i] of the final state, is the charged lepton of highest pt
    among the constituents [cs], and the last of them in case of a tie: no
    charged lepton before it has a greater pt, every one after it has a
    smaller pt. *)
Definition representative (final : list Candidate) (cs : list PseudoJet)
    (i : nat) (r : Candidate) : Prop :=
  exists pre c post,
    cs = pre ++ c :: post /\ user_index c = i
    /\ nth_error final i = Some r /\ isChargedLepton r = true
    /\ Forall (fun c' => forall p, nth_error final (user_index c') = Some p ->
                          isChargedLepton p = true ->
                          (cand_pt p <=? cand_pt r)%float = true) pre
    /\ Forall (fun c' => forall p, nth_error final (user_index c') = Some p ->
                          isChargedLepton p = true ->
                          (cand_pt p <? cand_pt r)%float = true) post.

(** No constituent is a charged lepton. *)
Definition noChargedLepton (final : list Candidate) (cs : list PseudoJet) : Prop :=
  Forall (fun c => forall p, nth_error final (user_index c) = Some p ->
                   isChargedLepton p = false) cs.

(** A constituent that points into the final state, at a particle whose pt
    is a number. *)
Definition goodConstituent (final : list Candidate) (c : PseudoJet) : Prop :=
  exists p, nth_error final (user_index c) = Some p
            /\ Double.isnan (cand_pt p) = false.

(** What the statements ask of the library code. *)
Section Contracts.

Context {L : Library}.

(** The constituents of the jets the clustering returns are among its
    inputs. *)
Definition constituentsAreInputs : Prop :=
  forall R inputs ptmin jet c,
    In jet (fjCluster R inputs ptmin) -> In c (fj_constituents jet) ->
    In c inputs.

(** The jets the clustering returns share no constituent: when the inputs
    carry distinct indices, no index comes twice among the constituents. *)
Definition clustersAreDisjoint : Prop :=
  forall R inputs ptmin,
    NoDup (map user_index inputs) ->
    NoDup (map user_index (flat_map fj_constituents (fjCluster R inputs ptmin))).

(** [cmp] is a strict weak ordering of the elements of [l], which is what
    [std::sort] asks of its comparator. *)
Definition strictWeakOrderOn {A : Type} (cmp : A -> A -> bool) (l : list A)
  : Prop :=
  (forall a, In a l -> cmp a a = false)
  /\ (forall a b c, In a l -> In b l -> In c l ->
       cmp a b = true -> cmp b c = true -> cmp a c = true)
  /\ (forall a b c, In a l -> In b l -> In c l ->
       cmp a b = false -> cmp b a = false ->
       cmp b c = false -> cmp c b = false ->
       cmp a c = false /\ cmp c a = false).

(** [std::sort] permutes its input and, for such a comparator, leaves no
    element in front of one that must precede it. *)
Definition sortContract : Prop :=
  forall cmp l,
    Permutation (std_sort cmp l) l
    /\ (strictWeakOrderOn cmp l ->
        StronglySorted (fun a b => cmp b a = false) (std_sort cmp l)).

End Contracts.

(** The two collections share their index space: where the final state holds
    a stable particle, [genParticles] holds a stable particle too. *)
Definition sharedIndexSpace (ev : Event) : Prop :=
  forall i p g,
    nth_error (finalStates ev) i = Some p ->
    nth_error (genParticles ev) i = Some g ->
    cand_status p = 1 -> cand_status g = 1.

(** Auxiliary notions of the proofs. *)

(** The indices in [bjetIdxs] and [ljetIdxs] point into [jets]. *)
Definition jetIdxsValid (js : JetState) : Prop :=
  Forall (fun i => (i < length (js_jets js))%nat) (js_bjetIdxs js)
  /\ Forall (fun i => (i < length (js_jets js))%nat) (js_ljetIdxs js).

(** What [lepCand] is after the constituents [seen]. *)
Definition repInv (final : list Candidate) (seen : list PseudoJet)
    (lepCand : option (nat * Candidate)) : Prop :=
  match lepCand with
  | None => noChargedLepton final seen
  | Some (i, r) => representative final seen i r
  end.

(** The indices of the constituents of a list of clusters. *)
Definition clusterIdxs (js : list FjJet) : list nat :=
  map user_index (flat_map fj_constituents js).

(* ================================================================== *)
(** ** Notions of the further properties *)

(** *** Decay chains and ancestry *)

(** [q] ends the chain that starts at [p] and goes, at each particle, to the
    first of its daughters that carries its species code. *)
Inductive lastOfChain : Candidate -> Candidate -> Prop :=
| LC_stop p :
    Forall (fun d => cand_pdgId d <> cand_pdgId p) (cand_daughters p) ->
    lastOfChain p p
| LC_follow p pre d post q :
    cand_daughters p = pre ++ d :: post ->
    Forall (fun d' => cand_pdgId d' <> cand_pdgId p) pre ->
    cand_pdgId d = cand_pdgId p ->
    lastOfChain d q ->
    lastOfChain p q.

(** The daughter loop of [getLast], on what is left of the daughters. *)
Fixpoint getLastFrom (p : Candidate) (ds : list Candidate) : Candidate :=
  match ds with
  | [] => p
  | dau :: rest =>
      if cand_pdgId p =? cand_pdgId dau then getLast dau else getLastFrom p rest
  end.

(** [p] has a hadron among its ancestors, on a line of mothers none of which
    is an incident beam particle (a particle without mothers). *)
Inductive hadronAncestor : Candidate -> Prop :=
| HA_mother p m :
    In m (cand_mothers p) -> cand_mothers m <> [] ->
    Z.abs (cand_pdgId m) > 100 -> hadronAncestor p
| HA_further p m :
    In m (cand_mothers p) -> cand_mothers m <> [] ->
    hadronAncestor m -> hadronAncestor p.

(** One turn of the mother loop of [isFromHadron]. *)
Definition viaMother (m : Candidate) : bool :=
  match cand_mothers m with
  | [] => false
  | _ :: _ => (Z.abs (cand_pdgId m) >? 100) || isFromHadron m
  end.

(** *** The particles of the final state *)

(** A stable particle of the final state that the producer takes as prompt:
    it has a mother, its first mother does not carry the status of an incident
    beam particle, and [isFromHadron] fails on it. *)
Definition promptStable (p : Candidate) : Prop :=
  cand_status p = 1
  /\ (exists m ms, cand_mothers p = m :: ms /\ cand_status m <> 4)
  /\ isFromHadron p = false.

(** The particles the neutrino pass copies. *)
Definition keptAsNeutrino (p : Candidate) : bool :=
  match classifyStable p with
  | IsNeutrino => true
  | _ => false
  end.

(** The species codes of the neutrinos. *)
Definition neutrinoCode (p : Candidate) : Prop :=
  Z.abs (cand_pdgId p) = 12 \/ Z.abs (cand_pdgId p) = 14
  \/ Z.abs (cand_pdgId p) = 16.

(** *** Clusters and dressed leptons *)

(** Whether the constituent [c] points at a charged lepton. *)
Definition pointsAtChargedLepton (final : list Candidate) (c : PseudoJet) : bool :=
  match nth_error final (user_index c) with
  | Some p => isChargedLepton p
  | None => false
  end.

(** A charged lepton that comes after a harder charged lepton of its
    cluster: [seen] are the constituents before [c]. *)
Definition overshadowed (final : list Candidate) (seen : list PseudoJet)
    (c : PseudoJet) : bool :=
  match nth_error final (user_index c) with
  | Some p =>
      isChargedLepton p
      && existsb (fun c' =>
                    match nth_error final (user_index c') with
                    | Some p' => isChargedLepton p'
                                 && (cand_pt p <? cand_pt p')%float
                    | None => false
                    end) seen
  | None => false
  end.

(** The indices of the constituents [cs] that are not overshadowed, [seen]
    being what comes before them in the cluster. *)
Fixpoint keptConstituents (final : list Candidate) (seen cs : list PseudoJet)
  : list nat :=
  match cs with
  | [] => []
  | c :: rest =>
      (if overshadowed final seen c then [] else [user_index c])
      ++ keptConstituents final (seen ++ [c]) rest
  end.

(** The clusters that become dressed leptons: not beyond the pseudorapidity
    cut, and with a charged lepton among the constituents. *)
Definition dressable (cfg : Config) (final : list Candidate) (fjJet : FjJet)
  : bool :=
  negb (Double.gtb (abs (fj_eta fjJet)) (leptonMaxEta_ cfg))
  && existsb (pointsAtChargedLepton final) (fj_constituents fjJet).

(** What a dressed lepton takes from its cluster. *)
Definition dressedFrom (lepJet : GenJet) (fjJet : FjJet) : Prop :=
  jet_p4 lepJet = fj_p4 fjJet
  /\ jet_vertex lepJet = genVertex_
  /\ jet_area lepJet = fj_jetArea fjJet
  /\ (Z.abs (jet_pdgId lepJet) = 11 \/ Z.abs (jet_pdgId lepJet) = 13)
  /\ incl (jet_constituents lepJet) (map user_index (fj_constituents fjJet)).

(** A cluster of the lepton clustering that the loop looks into and that has
    a constituent whose index is not in the final state. *)
Definition danglingCluster (cfg : Config) (final : list Candidate)
    (fjJet : FjJet) : bool :=
  negb (Double.gtb (abs (fj_eta fjJet)) (leptonMaxEta_ cfg))
  && existsb (fun c => (length final <=? user_index c)%nat)
             (fj_constituents fjJet).

(** The particle at index [i] of the final state is a prompt stable electron,
    muon or photon whose pt is a number above zero. *)
Definition dressingParticleAt (ev : Event) (i : nat) : Prop :=
  exists p, nth_error (finalStates ev) i = Some p
            /\ promptStable p
            /\ (Z.abs (cand_pdgId p) = 11 \/ Z.abs (cand_pdgId p) = 13
                \/ Z.abs (cand_pdgId p) = 22)
            /\ badPt p = false.

(** *** Jets *)

(** The clusters the jet loop does not skip. *)
Definition withinJetEta (cfg : Config) (fjJet : FjJet) : bool :=
  negb (Double.gtb (abs (fj_eta fjJet)) (jetMaxEta_ cfg)).

(** A constituent of the cluster carries the index of a b hadron. *)
Definition hasBHadronIndex (bHadrons : list nat) (fjJet : FjJet) : bool :=
  existsb (fun c => inSet (user_index c) bHadrons) (fj_constituents fjJet).

(** The jet made of a cluster. *)
Definition genJetOf (bHadrons : list nat) (fjJet : FjJet) : GenJet :=
  mkGenJet (fj_p4 fjJet) genVertex_ (map user_index (fj_constituents fjJet))
           (if hasBHadronIndex bHadrons fjJet then 5 else 0) 0
           (fj_jetArea fjJet).

(** Whether the jet at position [i] is tagged as a b jet. *)
Definition taggedAt (jets : list GenJet) (i : nat) : bool :=
  match nth_error jets i with
  | Some jet => jet_pdgId jet =? 5
  | None => false
  end.

(** The two index lists during the jet loop. *)
Definition tagInv (st : JetState) : Prop :=
  js_bjetIdxs st = filter (taggedAt (js_jets st)) (seq 0 (length (js_jets st)))
  /\ js_ljetIdxs st
     = filter (fun i => negb (taggedAt (js_jets st) i))
              (seq 0 (length (js_jets st))).

(** The constituent [c] is the ghost of an unstable b hadron of
    [genParticles], under the index of that hadron. *)
Definition isGhostOfBHadron (ev : Event) (c : PseudoJet) : Prop :=
  exists g, nth_error (genParticles ev) (user_index c) = Some g
            /\ cand_status g <> 1 /\ isBHadron g = true /\ badPt g = false
            /\ c = ghost g (user_index c).

(** *** The pseudo-top collection *)

(** The daughters and the mothers of the ten entries of a completed decay
    tree, as positions in the collection. *)
Definition treeDaughters : list (list nat) :=
  [[2; 3]; [6; 7]; [4; 5]; []; []; []; [8; 9]; []; []; []]%nat.

Definition treeMothers : list (list nat) :=
  [[]; []; [0]; [0]; [2]; [2]; [1]; [1]; [6]; [6]]%nat.

(** The entry [i] lists [j], in a list of link lists. *)
Definition linkedTo (links : list (list nat)) (i j : nat) : Prop :=
  exists l, nth_error links i = Some l /\ In j l.

(** A particle that carries no link yet. *)
Definition noLinks (g : GenParticle) : Prop :=
  gp_daughters g = [] /\ gp_mothers g = [].

(** [a] comes before [b] in [l]. *)
Definition before {X : Type} (l : list X) (a b : X) : Prop :=
  exists pre mid post, l = pre ++ a :: mid ++ b :: post.

(** The jet at position [i] of [jets] carries the species code [code], and
    the entry [k] of the pseudo-top collection has its four-momentum. *)
Definition builtOnJet (jets : list GenJet) (pseudoTop : list GenParticle)
    (k i : nat) (code : Z) : Prop :=
  exists jet g,
    nth_error jets i = Some jet /\ jet_pdgId jet = code
    /\ nth_error pseudoTop k = Some g /\ gp_p4 g = jet_p4 jet.

(** The entry [k] of the pseudo-top collection has the four-momentum and the
    species code of the neutrino at position [i]. *)
Definition builtOnNeutrino (neutrinos pseudoTop : list GenParticle)
    (k i : nat) : Prop :=
  exists nu g,
    nth_error neutrinos i = Some nu
    /\ nth_error pseudoTop k = Some g
    /\ gp_p4 g = gp_p4 nu /\ gp_pdgId g = gp_pdgId nu.

(** [buildGenParticle] called on one particle after the other, each call on
    the collection the one before has left: the references returned, in
    order, and the final collection. *)
Fixpoint buildGenParticles (asGenParticle : Candidate -> option GenParticle)
    (ps : list Candidate) (outColl : list GenParticle)
  : result (list nat * list GenParticle) :=
  match ps with
  | [] => Ok ([], outColl)
  | p :: rest =>
      '(ref, outColl1) <- buildGenParticle asGenParticle p outColl ;;
      '(refs, outColl2) <- buildGenParticles asGenParticle rest outColl1 ;;
      Ok (ref :: refs, outColl2)
  end.

(* ================================================================== *)
(** * Properties *)

(** ** The order of the doubles *)

Module DoubleOrder.

Import Double.
Open Scope float_scope.

(** The order facts below are read off the specification of the IEEE
    comparison, [SFcompare], by case analysis on the two or three operands. *)

Ltac sf_cases :=
  repeat match goal with s : bool |- _ => destruct s end;
  simpl; try congruence;
  change (PosDef.Pos.compare_cont Eq) with Pos.compare;
  repeat match goal with
         | |- context [Z.compare ?a ?b] => destruct (Z.compare_spec a b)
         | H : context [Z.compare ?a ?b] |- _ => destruct (Z.compare_spec a b)
         end;
  simpl in *; try congruence; try lia; subst;
  repeat match goal with
         | |- context [Pos.compare ?a ?b] => destruct (Pos.compare_spec a b)
         | H : context [Pos.compare ?a ?b] |- _ => destruct (Pos.compare_spec a b)
         end;
  simpl in *; subst; try congruence; try lia.

Lemma SFcompare_trans c x y z :
  SFcompare x y = Some c -> SFcompare y z = Some c -> SFcompare x z = Some c.
Proof.
  destruct c, x as [sx|sx| |sx mx ex], y as [sy|sy| |sy my ey],
    z as [sz|sz| |sz mz ez]; simpl; try congruence; sf_cases.
Qed.

Lemma SFcompare_eq_l c x y z :
  SFcompare x y = Some Eq -> SFcompare y z = Some c -> SFcompare x z = Some c.
Proof.
  destruct c, x as [sx|sx| |sx mx ex], y as [sy|sy| |sy my ey],
    z as [sz|sz| |sz mz ez]; simpl; try congruence; sf_cases.
Qed.

Lemma SFcompare_eq_r c x y z :
  SFcompare x y = Some c -> SFcompare y z = Some Eq -> SFcompare x z = Some c.
Proof.
  destruct c, x as [sx|sx| |sx mx ex], y as [sy|sy| |sy my ey],
    z as [sz|sz| |sz mz ez]; simpl; try congruence; sf_cases.
Qed.

Lemma SFcompare_opp c x y :
  SFcompare x y = Some c -> SFcompare y x = Some (CompOpp c).
Proof.
  destruct c, x as [sx|sx| |sx mx ex], y as [sy|sy| |sy my ey];
    simpl; try congruence; sf_cases.
Qed.

Lemma SFcompare_refl x : SFcompare x x = None \/ SFcompare x x = Some Eq.
Proof.
  destruct x as [sx|sx| |sx mx ex]; simpl; auto; right; destruct sx; auto;
    rewrite Z.compare_refl; change (PosDef.Pos.compare_cont Eq) with Pos.compare;
    rewrite Pos.compare_refl; reflexivity.
Qed.

Lemma SFcompare_None x y :
  SFcompare x y = None -> SFcompare x x = None \/ SFcompare y y = None.
Proof.
  destruct x as [sx|sx| |sx mx ex], y as [sy|sy| |sy my ey]; simpl; auto;
    discriminate.
Qed.

Lemma SFcompare_Some_l c x y : SFcompare x y = Some c -> SFcompare x x = Some Eq.
Proof.
  intros H. destruct (SFcompare_refl x) as [N|E]; auto.
  destruct x; simpl in *; congruence.
Qed.

Lemma SFcompare_Some_r c x y : SFcompare x y = Some c -> SFcompare y y = Some Eq.
Proof.
  intros H. apply SFcompare_opp in H. eapply SFcompare_Some_l; eauto.
Qed.

(** The primitive comparisons in terms of [SFcompare]. *)

Definition cmp (a b : float) : option comparison :=
  SFcompare (Prim2SF a) (Prim2SF b).

Lemma ltb_cmp a b : (a <? b) = true <-> cmp a b = Some Lt.
Proof.
  rewrite ltb_spec. unfold SFltb, cmp.
  destruct (SFcompare _ _) as [[]|]; split; congruence.
Qed.

Lemma leb_cmp a b : (a <=? b) = true <-> cmp a b = Some Lt \/ cmp a b = Some Eq.
Proof.
  rewrite leb_spec. unfold SFleb, cmp.
  destruct (SFcompare _ _) as [[]|]; split; intros; auto; try congruence;
    destruct H; congruence.
Qed.

Lemma isnan_cmp a : isnan a = false <-> cmp a a = Some Eq.
Proof.
  unfold isnan. rewrite negb_false_iff, eqb_spec. unfold SFeqb, cmp.
  destruct (SFcompare _ _) as [[]|]; split; congruence.
Qed.

Lemma ltb_trans a b c : (a <? b) = true -> (b <? c) = true -> (a <? c) = true.
Proof. rewrite !ltb_cmp. apply SFcompare_trans. Qed.

Lemma leb_ltb_trans a b c : (a <=? b) = true -> (b <? c) = true -> (a <? c) = true.
Proof.
  rewrite leb_cmp, !ltb_cmp. intros [H|H] H'.
  - eapply SFcompare_trans; eauto.
  - eapply SFcompare_eq_l; eauto.
Qed.

Lemma ltb_leb_trans a b c : (a <? b) = true -> (b <=? c) = true -> (a <? c) = true.
Proof.
  rewrite leb_cmp, !ltb_cmp. intros H [H'|H'].
  - eapply SFcompare_trans; eauto.
  - eapply SFcompare_eq_r; eauto.
Qed.

Lemma leb_trans a b c : (a <=? b) = true -> (b <=? c) = true -> (a <=? c) = true.
Proof.
  rewrite !leb_cmp. intros [H|H] [H'|H'].
  - left. eapply SFcompare_trans; eauto.
  - left. eapply SFcompare_eq_r; eauto.
  - left. eapply SFcompare_eq_l; eauto.
  - right. eapply SFcompare_trans; eauto.
Qed.

Lemma ltb_leb a b : (a <? b) = true -> (a <=? b) = true.
Proof. rewrite ltb_cmp, leb_cmp. auto. Qed.

Lemma ltb_not_leb a b : (a <? b) = true -> (b <=? a) = false.
Proof.
  rewrite ltb_cmp. intros H. apply SFcompare_opp in H. simpl in H.
  apply not_true_is_false. rewrite leb_cmp. unfold cmp. intros [E|E]; congruence.
Qed.

Lemma leb_not_ltb a b : (a <=? b) = true -> (b <? a) = false.
Proof.
  intros H. apply not_true_is_false. intros H'.
  apply ltb_not_leb in H'. congruence.
Qed.

Lemma ltb_irrefl a : (a <? a) = false.
Proof.
  apply not_true_is_false. intros H. pose proof (ltb_not_leb _ _ H) as N.
  apply ltb_leb in H. congruence.
Qed.

Lemma ltb_notnan_l a b : (a <? b) = true -> isnan a = false.
Proof. rewrite ltb_cmp, isnan_cmp. apply SFcompare_Some_l. Qed.

Lemma ltb_notnan_r a b : (a <? b) = true -> isnan b = false.
Proof. rewrite ltb_cmp, isnan_cmp. apply SFcompare_Some_r. Qed.

Lemma leb_notnan_l a b : (a <=? b) = true -> isnan a = false.
Proof. rewrite leb_cmp, isnan_cmp. intros [H|H]; eapply SFcompare_Some_l; eauto. Qed.

Lemma leb_notnan_r a b : (a <=? b) = true -> isnan b = false.
Proof. rewrite leb_cmp, isnan_cmp. intros [H|H]; eapply SFcompare_Some_r; eauto. Qed.

(** Away from NaN the order is total. *)
Lemma not_ltb_leb a b :
  isnan a = false -> isnan b = false -> (a <? b) = false -> (b <=? a) = true.
Proof.
  rewrite !isnan_cmp. intros Ha Hb H. rewrite leb_cmp.
  destruct (cmp b a) as [c|] eqn:E.
  - destruct c; auto. unfold cmp in E. apply SFcompare_opp in E. simpl in E.
    apply ltb_cmp in E. congruence.
  - unfold cmp in *. apply SFcompare_None in E. destruct E; congruence.
Qed.

Lemma leb_refl a : isnan a = false -> (a <=? a) = true.
Proof. rewrite isnan_cmp, leb_cmp. auto. Qed.

End DoubleOrder.

(** ** Failure *)

Lemma bind_Ok_inv {A B : Type} (m : result A) (k : A -> result B) b :
  bind m k = Ok b -> exists a, m = Ok a /\ k a = Ok b.
Proof. destruct m; simpl; intros H; [eauto | discriminate]. Qed.

Lemma at_Ok {A : Type} (v : list A) i :
  (i < length v)%nat -> exists a, at_ v i = Ok a /\ nth_error v i = Some a.
Proof.
  intros H. unfold at_. destruct (nth_error v i) eqn:E; eauto.
  apply nth_error_None in E. lia.
Qed.

Lemma at_Ok_inv {A : Type} (v : list A) i a :
  at_ v i = Ok a -> nth_error v i = Some a.
Proof. unfold at_. destruct (nth_error v i); congruence. Qed.

Lemma atZ_of_nat {A : Type} (v : list A) (i : nat) : atZ v (Z.of_nat i) = at_ v i.
Proof.
  unfold atZ. destruct (Z.ltb_spec (Z.of_nat i) 0); [lia|]. now rewrite Nat2Z.id.
Qed.


(** ** The b-hadron test *)

Lemma noBHadronDaughter_spec daus :
  noBHadronDaughter daus = true <->
  forall d, In d daus -> isBHadron_code (absPdgId d) = false.
Proof.
  induction daus as [|d daus IH]; simpl.
  - split; [intros _ d [] | reflexivity].
  - destruct (isBHadron_code (absPdgId d)) eqn:E.
    + split; [discriminate|]. intros H. rewrite <- E. symmetry. apply H. now left.
    + rewrite IH. split.
      * intros H d' [<-|Hin]; auto.
      * intros H d' Hin. apply H. now right.
Qed.

(** C4. [isBHadron] on a code is false up to 100 and from 10^9 on; in between,
    with q3, q2, q1 the tens, hundreds and thousands digits, it is true exactly
    when q3 is not 0 and either (q1 = 0 and q2 = 5) or q1 = 5.  [isBHadron] on
    a particle is true exactly when the test passes on the absolute value of
    the particle's code and fails on the absolute value of the code of each
    of its direct daughters: the sign of a code plays no part.  (The absolute
    value is handed over as an [unsigned int]; for the codes an [int] holds
    the conversion changes nothing, and in general it is the remainder
    modulo 2^32.) *)
Theorem isBHadron_digits_and_daughters :
  (forall code, code <= 100 \/ 1000000000 <= code -> isBHadron_code code = false)
  /\ (forall code, 100 < code < 1000000000 ->
        (isBHadron_code code = true <->
         (code / 10) mod 10 <> 0 /\
         (((code / 1000) mod 10 = 0 /\ (code / 100) mod 10 = 5)
          \/ (code / 1000) mod 10 = 5)))
  /\ (forall p,
        Z.abs (cand_pdgId p) < 2 ^ 32 ->
        (forall d, In d (cand_daughters p) -> Z.abs (cand_pdgId d) < 2 ^ 32) ->
        (isBHadron p = true <->
         isBHadron_code (Z.abs (cand_pdgId p)) = true /\
         forall d, In d (cand_daughters p) ->
                   isBHadron_code (Z.abs (cand_pdgId d)) = false))
  /\ (forall p,
        isBHadron p = true <->
        isBHadron_code (Z.abs (cand_pdgId p) mod 2 ^ 32) = true /\
        forall d, In d (cand_daughters p) ->
                  isBHadron_code (Z.abs (cand_pdgId d) mod 2 ^ 32) = false).
Proof.
  assert (Hgen : forall p,
            isBHadron p = true <->
            isBHadron_code (Z.abs (cand_pdgId p) mod 2 ^ 32) = true /\
            forall d, In d (cand_daughters p) ->
                      isBHadron_code (Z.abs (cand_pdgId d) mod 2 ^ 32) = false).
  { intros p. unfold isBHadron.
    change (Z.abs (cand_pdgId p) mod 2 ^ 32) with (absPdgId p).
    destruct (isBHadron_code (absPdgId p)); simpl.
    - rewrite noBHadronDaughter_spec. split; [auto | now intros [_ H]].
    - split; [discriminate | now intros [H _]]. }
  split; [|split; [|split]].
  - intros code H. unfold isBHadron_code.
    destruct (Z.leb_spec code 100); auto.
    destruct (Z.geb_spec code 1000000000); auto. lia.
  - intros code H. unfold isBHadron_code.
    destruct (Z.leb_spec code 100); [lia|].
    destruct (Z.geb_spec code 1000000000); [lia|]. cbv zeta.
    destruct (Z.eqb_spec ((code / 10) mod 10) 0);
      destruct (Z.eqb_spec ((code / 1000) mod 10) 0);
      destruct (Z.eqb_spec ((code / 100) mod 10) 5);
      destruct (Z.eqb_spec ((code / 1000) mod 10) 5); simpl;
      split; intros; try discriminate; try lia; auto.
  - intros p Hp Hd. rewrite (Hgen p).
    rewrite Z.mod_small by lia. split; intros [H1 H2]; (split; [exact H1|]);
      intros d Hin; specialize (H2 d Hin); specialize (Hd d Hin);
      rewrite Z.mod_small in * by lia; exact H2.
  - exact Hgen.
Qed.

(** The statement above at the codes of the B+ (521), the B0 (511) and the
    Lambda_b (5122); at a B+ and at a B- (code -521) that decay to a pion;
    and at an excited B and its antiparticle (code -523), which decay to a
    B+ and to a B-. *)
Lemma isBHadron_digits_and_daughters_witness :
  isBHadron_code 521 = true /\ isBHadron_code 511 = true
  /\ isBHadron_code 5122 = true /\ isBHadron_code 22 = false
  /\ cand_pdgId Examples.Bminus = -521
  /\ cand_pdgId Examples.BstarMinus = -523
  /\ map cand_pdgId (cand_daughters Examples.BstarMinus) = [-521]
  /\ isBHadron Examples.Bplus = true /\ isBHadron Examples.Bstar = false
  /\ isBHadron Examples.Bminus = true /\ isBHadron Examples.BstarMinus = false.
Proof.
  destruct isBHadron_digits_and_daughters as (Hout & Hin & Hp & _).
  assert (H521 : isBHadron_code 521 = true).
  { apply (Hin 521); [lia|]. split; [discriminate | left; split; reflexivity]. }
  assert (Hsmall : forall p d : Candidate,
            In d [p] -> Z.abs (cand_pdgId p) < 2 ^ 32 ->
            Z.abs (cand_pdgId d) < 2 ^ 32).
  { intros p d [<-|[]] H. exact H. }
  split; [exact H521|].
  split.
  { apply (Hin 511); [lia|]. split; [discriminate | left; split; reflexivity]. }
  split.
  { apply (Hin 5122); [lia|]. split; [discriminate | right; reflexivity]. }
  split; [apply Hout; lia|].
  split; [reflexivity|]. split; [reflexivity|]. split; [reflexivity|].
  split; [|split; [|split]].
  - apply (Hp Examples.Bplus); [reflexivity | |].
    + intros d Hd. apply (Hsmall Examples.pion d Hd). reflexivity.
    + split; [exact H521|]. intros d [<-|[]]. reflexivity.
  - destruct (isBHadron Examples.Bstar) eqn:E; [|reflexivity].
    assert (Hlt : Z.abs (cand_pdgId Examples.Bstar) < 2 ^ 32) by reflexivity.
    assert (Hdau : forall d, In d (cand_daughters Examples.Bstar) ->
                             Z.abs (cand_pdgId d) < 2 ^ 32).
    { intros d Hd. apply (Hsmall Examples.Bplus d Hd). reflexivity. }
    destruct (proj1 (Hp Examples.Bstar Hlt Hdau) E) as [_ Hd].
    specialize (Hd Examples.Bplus (or_introl eq_refl)).
    change (Z.abs (cand_pdgId Examples.Bplus)) with 521 in Hd. congruence.
  - apply (Hp Examples.Bminus); [reflexivity | |].
    + intros d Hd. apply (Hsmall Examples.pion d Hd). reflexivity.
    + split; [exact H521|]. intros d [<-|[]]. reflexivity.
  - destruct (isBHadron Examples.BstarMinus) eqn:E; [|reflexivity].
    assert (Hlt : Z.abs (cand_pdgId Examples.BstarMinus) < 2 ^ 32) by reflexivity.
    assert (Hdau : forall d, In d (cand_daughters Examples.BstarMinus) ->
                             Z.abs (cand_pdgId d) < 2 ^ 32).
    { intros d Hd. apply (Hsmall Examples.Bminus d Hd). reflexivity. }
    destruct (proj1 (Hp Examples.BstarMinus Hlt Hdau) E) as [_ Hd].
    specialize (Hd Examples.Bminus (or_introl eq_refl)).
    change (Z.abs (cand_pdgId Examples.Bminus)) with 521 in Hd. congruence.
Defined.

(* ================================================================== *)
(** ** The least-deviation search *)

Section SearchFacts.

Variables C S : Type.
Variable dev : C -> float.
Variable enc : C -> S.

Lemma fold_better_outcome cs :
  forall dm0 s0,
    SearchOutcome dev enc dm0 s0 cs (fold_left (better dev enc) cs (dm0, s0)).
Proof.
  induction cs as [|c cs IH]; intros dm0 s0; simpl.
  - apply Untouched; auto.
  - unfold better at 2. simpl fst.
    destruct (dev c <? dm0)%float eqn:Hc.
    + destruct (IH (dev c) (enc c)) as [Hr Hall | pre c' post Hcs Hr Hlt Hpre Hpost].
      * apply Selected with (pre := []) (c := c) (post := cs); auto.
      * apply Selected with (pre := c :: pre) (c := c') (post := post); auto.
        -- simpl. now rewrite Hcs.
        -- eapply DoubleOrder.ltb_trans; eauto.
        -- constructor; auto. now apply DoubleOrder.ltb_not_leb.
    + destruct (IH dm0 s0) as [Hr Hall | pre c' post Hcs Hr Hlt Hpre Hpost].
      * apply Untouched; auto.
      * apply Selected with (pre := c :: pre) (c := c') (post := post); auto.
        -- simpl. now rewrite Hcs.
        -- constructor; auto. apply not_true_is_false. intros Hle.
           rewrite (DoubleOrder.leb_ltb_trans _ _ _ Hle Hlt) in Hc. discriminate.
Qed.

Lemma search_outcome none cs :
  SearchOutcome dev enc 1e9%float none cs (search dev enc none cs).
Proof. apply fold_better_outcome. Qed.

(** The search keeps the sentinel exactly when no deviation is below it. *)
Lemma search_aborts_iff none cs :
  Double.geb (fst (search dev enc none cs)) 1e9 = true <->
  Forall (fun c => (dev c <? 1e9)%float = false) cs.
Proof.
  destruct (search_outcome none cs) as [Hr Hall | pre c post Hcs Hr Hlt Hpre Hpost];
    rewrite Hr; simpl; unfold Double.geb.
  - split; auto.
  - rewrite (DoubleOrder.ltb_not_leb _ _ Hlt). split; [discriminate|].
    intros Hall. rewrite Hcs in Hall. apply Forall_app in Hall as [_ Hall].
    inversion Hall; congruence.
Qed.

Lemma search_selects_iff none cs :
  Double.geb (fst (search dev enc none cs)) 1e9 = false <->
  Exists (fun c => (dev c <? 1e9)%float = true) cs.
Proof.
  destruct (search_outcome none cs) as [Hr Hall | pre c post Hcs Hr Hlt Hpre Hpost];
    rewrite Hr; simpl; unfold Double.geb.
  - split; [discriminate|]. intros Hex. apply Exists_exists in Hex as (c & Hin & Hc).
    rewrite Forall_forall in Hall. rewrite (Hall c Hin) in Hc. discriminate.
  - rewrite (DoubleOrder.ltb_not_leb _ _ Hlt). split; auto. intros _.
    apply Exists_exists. exists c. split; auto. rewrite Hcs. apply in_elt.
Qed.

End SearchFacts.

Arguments search_outcome {C S} dev enc none cs.
Arguments search_aborts_iff {C S} dev enc none cs.
Arguments search_selects_iff {C S} dev enc none cs.

(* ================================================================== *)
(** ** The loops of the combinator are such searches *)

Lemma foldM_resolve {X S : Type} (l : list X) (f : S -> nat -> result S)
    (g : S -> nat * X -> S) (idxs : list nat) :
  Forall (fun i => (i < length l)%nat) idxs ->
  (forall st i x, nth_error l i = Some x -> f st i = Ok (g st (i, x))) ->
  forall st, foldM f idxs st = Ok (fold_left g (resolve l idxs) st).
Proof.
  intros Hvalid Hf. induction Hvalid as [|i idxs Hi _ IH]; intros st; simpl.
  - reflexivity.
  - destruct (nth_error l i) as [x|] eqn:E.
    + rewrite (Hf st i x E). simpl. apply IH.
    + apply nth_error_None in E. lia.
Qed.

Lemma fold_left_flat_map {A B S : Type} (f : S -> B -> S) (h : A -> list B) l :
  forall s, fold_left f (flat_map h l) s
            = fold_left (fun s a => fold_left f (h a) s) l s.
Proof.
  induction l as [|a l IH]; intros s; simpl; auto.
  now rewrite fold_left_app, IH.
Qed.

Lemma fold_left_ext {A S : Type} (f g : S -> A -> S) l :
  (forall s a, f s a = g s a) -> forall s, fold_left f l s = fold_left g l s.
Proof.
  intros H. induction l as [|a l IH]; intros s; simpl; auto. now rewrite H, IH.
Qed.

Lemma fold_left_map {A B S : Type} (f : S -> B -> S) (h : A -> B) l :
  forall s, fold_left f (map h l) s = fold_left (fun s a => f s (h a)) l s.
Proof. induction l as [|a l IH]; intros s; simpl; auto. Qed.

Lemma seq_valid {X : Type} (l : list X) :
  Forall (fun i => (i < length l)%nat) (seq 0 (length l)).
Proof. apply Forall_forall. intros i Hi. apply in_seq in Hi. lia. Qed.

Lemma resolve_cons_valid {X : Type} (l : list X) i x idxs :
  nth_error l i = Some x -> resolve l (i :: idxs) = (i, x) :: resolve l idxs.
Proof. intros E. unfold resolve. simpl. now rewrite E. Qed.

Lemma resolve_In {X : Type} (l : list X) idxs i x :
  In (i, x) (resolve l idxs) <-> In i idxs /\ nth_error l i = Some x.
Proof.
  unfold resolve. rewrite in_flat_map. split.
  - intros (k & Hk & Hin). destruct (nth_error l k) eqn:E; simpl in Hin.
    + destruct Hin as [Heq|[]]. inversion Heq; subst. auto.
    + destruct Hin.
  - intros [Hin E]. exists i. split; auto. rewrite E. now left.
Qed.

Section LoopsAsSearch.

Context {L : Library}.
Variable cfg : Config.

(** A double loop over [idxs] into [l], equal indices skipped, is the search
    over [orderedPairs]. *)
Lemma pair_loops_search {X : Type} (l : list X) (idxs : list nat)
    (outer : PairBest -> nat -> result PairBest)
    (inner : nat -> X -> PairBest -> nat -> result PairBest)
    (dev : (nat * X) * (nat * X) -> float) :
  Forall (fun i => (i < length l)%nat) idxs ->
  (forall st i x, nth_error l i = Some x ->
                  outer st i = foldM (inner i x) idxs st) ->
  (forall st i x j y, nth_error l j = Some y ->
     inner i x st j = if (i =? j)%nat then Ok st
                      else Ok (better dev encPair st ((i, x), (j, y)))) ->
  foldM outer idxs (1e9%float, (-1, -1))
  = Ok (search dev encPair (-1, -1) (orderedPairs (resolve l idxs))).
Proof.
  intros Hvalid Houter Hinner.
  unfold search, orderedPairs. rewrite fold_left_flat_map.
  apply foldM_resolve; auto.
  intros st i x E. rewrite (Houter st i x E).
  rewrite fold_left_flat_map.
  apply foldM_resolve; auto.
  intros st' j y E'. rewrite (Hinner st' i x j y E'). simpl.
  now destruct (i =? j)%nat.
Qed.

Lemma selectNuPair_search lepton1 lepton2 neutrinos :
  selectNuPair cfg lepton1 lepton2 neutrinos
  = Ok (search (nuPairDev cfg lepton1 lepton2) encPair (-1, -1)
               (orderedPairs (resolve neutrinos (seq 0 (length neutrinos))))).
Proof.
  unfold selectNuPair.
  apply pair_loops_search
    with (inner := fun i x =>
                     nuPairInner cfg lepton2 neutrinos i
                       (massDev (wMass_ cfg) (lv_add (jet_p4 lepton1) (gp_p4 x)))).
  - apply seq_valid.
  - intros st i x E. unfold nuPairOuter, at_. now rewrite E.
  - intros st i x j y E. unfold nuPairInner, at_.
    destruct (i =? j)%nat; auto. rewrite E. simpl.
    unfold better, nuPairDev, encPair. simpl.
    now destruct (_ <? fst st)%float.
Qed.

Lemma selectBJetPair_search w1LVec w2LVec jets bjetIdxs :
  Forall (fun i => (i < length jets)%nat) bjetIdxs ->
  selectBJetPair cfg w1LVec w2LVec jets bjetIdxs
  = Ok (search (bPairDev cfg w1LVec w2LVec) encPair (-1, -1)
               (orderedPairs (resolve jets bjetIdxs))).
Proof.
  intros Hvalid. unfold selectBJetPair.
  apply pair_loops_search
    with (inner := fun i x =>
                     bPairInner cfg w2LVec jets i
                       (massDev (tMass_ cfg) (lv_add w1LVec (jet_p4 x)))); auto.
  - intros st i x E. unfold bPairOuter, at_. now rewrite E.
  - intros st i x j y E. unfold bPairInner, at_.
    destruct (i =? j)%nat; auto. rewrite E. simpl.
    unfold better, bPairDev, encPair. simpl.
    now destruct (_ <? fst st)%float.
Qed.

Lemma wJetLoop_search lepton jets i nu ljets :
  Forall (fun j => (j < length jets)%nat) ljets ->
  forall st,
    wJetLoop cfg jets i
             (massDev (wMass_ cfg) (lv_add (jet_p4 lepton) (gp_p4 nu))) ljets st
    = Ok (fold_left (better (wDev cfg lepton) encTriple)
                    (map (pair (i, nu)) (laterPairs (resolve jets ljets))) st).
Proof.
  intros Hvalid. induction Hvalid as [|j1 rest Hj1 Hrest IH]; intros st.
  - reflexivity.
  - destruct (at_Ok jets j1 Hj1) as (jet1 & Hat & E).
    rewrite (resolve_cons_valid jets j1 jet1 rest E). simpl. rewrite Hat. simpl.
    rewrite map_app, fold_left_app, !fold_left_map.
    rewrite foldM_resolve
      with (l := jets)
           (g := fun s b => better (wDev cfg lepton) encTriple s
                                   ((i, nu), ((j1, jet1), b))); auto.
    + simpl. rewrite IH. now rewrite fold_left_map.
    + intros s j2 jet2 E2. unfold wJetInner, at_. rewrite E2. simpl.
      unfold better, wDev, encTriple. simpl.
      now destruct (_ <? fst s)%float.
Qed.

Lemma selectW_search lepton neutrinos jets ljetIdxs :
  Forall (fun j => (j < length jets)%nat) ljetIdxs ->
  selectW cfg lepton neutrinos jets ljetIdxs
  = Ok (search (wDev cfg lepton) encTriple (-1, (-1, -1))
               (wCombos neutrinos jets ljetIdxs)).
Proof.
  intros Hvalid. unfold selectW, search, wCombos.
  rewrite fold_left_flat_map.
  apply foldM_resolve; [apply seq_valid|].
  intros st i nu E. unfold wOuter, at_. rewrite E. simpl.
  now apply wJetLoop_search.
Qed.

End LoopsAsSearch.

(* ================================================================== *)
(** ** The ways through the combinator *)

Lemma orderedPairs_In {X : Type} (R : list (nat * X)) a b :
  In (a, b) (orderedPairs R) <-> In a R /\ In b R /\ fst a <> fst b.
Proof.
  unfold orderedPairs. rewrite in_flat_map. split.
  - intros (a' & Ha' & Hin). apply in_flat_map in Hin as (b' & Hb' & Hin).
    destruct (Nat.eqb_spec (fst a') (fst b')); simpl in Hin; [contradiction|].
    destruct Hin as [Heq|[]]. inversion Heq; subst. auto.
  - intros (Ha & Hb & Hne). exists a. split; auto. apply in_flat_map.
    exists b. split; auto. destruct (Nat.eqb_spec (fst a) (fst b)); [contradiction|].
    now left.
Qed.

Lemma laterPairs_In {X : Type} (l : list X) a b :
  In (a, b) (laterPairs l) -> In a l /\ In b l.
Proof.
  induction l as [|x l IH]; simpl; [contradiction|].
  rewrite in_app_iff, in_map_iff. intros [(y & Heq & Hy)|Hin].
  - inversion Heq; subst. auto.
  - destruct (IH Hin). auto.
Qed.

Lemma atZ_resolved {X : Type} (l : list X) idxs (a : nat * X) :
  In a (resolve l idxs) -> atZ l (Z.of_nat (fst a)) = Ok (snd a).
Proof.
  destruct a as [i x]. rewrite resolve_In. intros [_ E]. simpl.
  rewrite atZ_of_nat. unfold at_. now rewrite E.
Qed.

Lemma firstLeast_In {C : Type} {dev : C -> float} {cs c} :
  firstLeast dev cs c -> In c cs.
Proof. intros (_ & pre & post & -> & _). apply in_elt. Qed.

Lemma firstLeast_not_aborted {C : Type} {dev : C -> float} {cs c} :
  firstLeast dev cs c -> Double.geb (dev c) 1e9 = false.
Proof. intros (H & _). now apply DoubleOrder.ltb_not_leb. Qed.

Lemma firstLeast_notnan {C : Type} {dev : C -> float} {cs c} :
  firstLeast dev cs c -> Double.isnan (dev c) = false.
Proof. intros (H & _). eapply DoubleOrder.ltb_notnan_l; eauto. Qed.

(** There is one such combination at most. *)
Lemma firstLeast_unique {C : Type} {dev : C -> float} {cs c c'} :
  firstLeast dev cs c -> firstLeast dev cs c' -> c = c'.
Proof.
  intros H H'. pose proof (firstLeast_notnan H) as Hn.
  pose proof (firstLeast_notnan H') as Hn'.
  destruct H as (_ & pre & post & Hcs & Hpre & Hpost).
  destruct H' as (_ & pre' & post' & Hcs' & Hpre' & Hpost').
  rewrite Hcs in Hcs'. apply app_eq_app in Hcs' as (l & [[-> Hl]|[-> Hl]]).
  - destruct l as [|x l]; simpl in Hl; injection Hl as Hx Hp; auto.
    exfalso. subst x post'. rewrite Forall_forall in Hpost', Hpre.
    assert (H1 : (dev c <? dev c')%float = false)
      by (apply Hpost'; apply in_elt).
    assert (H2 : (dev c' <=? dev c)%float = false)
      by (apply Hpre; apply in_or_app; right; now left).
    rewrite (DoubleOrder.not_ltb_leb _ _ Hn Hn' H1) in H2. discriminate.
  - destruct l as [|x l]; simpl in Hl; injection Hl as Hx Hp; auto.
    exfalso. subst x post. rewrite Forall_forall in Hpost, Hpre'.
    assert (H1 : (dev c' <? dev c)%float = false)
      by (apply Hpost; apply in_elt).
    assert (H2 : (dev c <=? dev c')%float = false)
      by (apply Hpre'; apply in_or_app; right; now left).
    rewrite (DoubleOrder.not_ltb_leb _ _ Hn' Hn H1) in H2. discriminate.
Qed.

Lemma firstLeast_noneBelow {C : Type} {dev : C -> float} {cs c} :
  firstLeast dev cs c -> noneBelow dev cs -> False.
Proof.
  intros H Hnone. pose proof (firstLeast_In H) as Hin.
  destruct H as (Hlt & _). unfold noneBelow in Hnone.
  rewrite Forall_forall in Hnone. rewrite (Hnone c Hin) in Hlt. discriminate.
Qed.

(** A finished search, read as one of the two notions. *)
Lemma search_cases {C S : Type} (dev : C -> float) (enc : C -> S) none cs :
  (search dev enc none cs = (1e9%float, none) /\ noneBelow dev cs)
  \/ (exists c, search dev enc none cs = (dev c, enc c) /\ firstLeast dev cs c).
Proof.
  destruct (search_outcome dev enc none cs)
    as [Hr Hall | pre c post Hcs Hr Hlt Hpre Hpost].
  - left. auto.
  - right. exists c. split; auto. split; auto. exists pre, post. auto.
Qed.

Section Ways.

Context {L : Library}.
Variable cfg : Config.

Lemma dileptonChannel_outcome lep0 lep1 neutrinos {jets bjetIdxs} :
  Forall (fun i => (i < length jets)%nat) bjetIdxs ->
  exists out,
    dileptonChannel cfg [lep0; lep1] neutrinos jets bjetIdxs = Ok out /\
    DileptonOutcome cfg lep0 lep1 neutrinos jets bjetIdxs out.
Proof.
  intros Hvalid. unfold dileptonChannel. simpl.
  destruct (Z.gtb_spec (jet_charge lep0 * jet_charge lep1) 0) as [Hq|Hq].
  { exists []. split; auto. apply DL_sameSign. lia. }
  fold (lepton1Of lep0 lep1). fold (lepton2Of lep0 lep1).
  rewrite selectNuPair_search. simpl.
  fold (nuPairsOf neutrinos).
  destruct (search_cases (nuPairDev cfg (lepton1Of lep0 lep1) (lepton2Of lep0 lep1))
                         encPair (-1, -1) (nuPairsOf neutrinos))
    as [[-> Hnone] | (cN & -> & HN)].
  { exists []. split; auto. now apply DL_noNuPair. }
  unfold encPair at 1. rewrite (firstLeast_not_aborted HN).
  pose proof (firstLeast_In HN) as HinN.
  destruct cN as [aN bN]. apply orderedPairs_In in HinN as (Ha & Hb & _).
  simpl fst. simpl snd.
  rewrite (atZ_resolved _ _ _ Ha), (atZ_resolved _ _ _ Hb). simpl.
  rewrite selectBJetPair_search by assumption. simpl.
  fold (bPairsOf jets bjetIdxs).
  match goal with
  | |- context [search ?d encPair ?n ?cs] =>
      destruct (search_cases d encPair n cs) as [[-> Hnone] | (cB & -> & HB)]
  end.
  { exists []. split; auto. eapply DL_noBPair with (cN := (aN, bN)); eauto. }
  unfold encPair at 1. rewrite (firstLeast_not_aborted HB).
  pose proof (firstLeast_In HB) as HinB.
  destruct cB as [aB bB]. apply orderedPairs_In in HinB as (Ha' & Hb' & _).
  simpl fst. simpl snd.
  rewrite (atZ_resolved _ _ _ Ha'), (atZ_resolved _ _ _ Hb'). simpl.
  eexists. split; [reflexivity|].
  apply (DL_built cfg lep0 lep1 neutrinos jets bjetIdxs (aN, bN) (aB, bB)); auto.
Qed.

Lemma wCombos_In neutrinos jets ljetIdxs a b c :
  In (a, (b, c)) (wCombos neutrinos jets ljetIdxs) ->
  In a (resolve neutrinos (seq 0 (length neutrinos)))
  /\ In b (resolve jets ljetIdxs) /\ In c (resolve jets ljetIdxs).
Proof.
  unfold wCombos. rewrite in_flat_map. intros (a' & Ha' & Hin).
  apply in_map_iff in Hin as ([b' c'] & Heq & Hin). inversion Heq; subst.
  apply laterPairs_In in Hin. tauto.
Qed.

Lemma semileptonicChannel_outcome lepton neutrinos {jets bjetIdxs ljetIdxs} :
  Forall (fun i => (i < length jets)%nat) bjetIdxs ->
  Forall (fun i => (i < length jets)%nat) ljetIdxs ->
  exists out,
    semileptonicChannel cfg [lepton] neutrinos jets bjetIdxs ljetIdxs = Ok out /\
    SemileptonicOutcome cfg lepton neutrinos jets bjetIdxs ljetIdxs out.
Proof.
  intros Hb Hl. unfold semileptonicChannel. simpl.
  rewrite selectW_search by assumption. simpl.
  destruct (search_cases (wDev cfg lepton) encTriple (-1, (-1, -1))
                         (wCombos neutrinos jets ljetIdxs))
    as [[-> Hnone] | (cW & -> & HW)].
  { exists []. split; auto. now apply SL_noW. }
  unfold encTriple at 1. rewrite (firstLeast_not_aborted HW).
  pose proof (firstLeast_In HW) as HinW.
  destruct cW as [aW [bW cW]]. apply wCombos_In in HinW as (Ha & Hb' & Hc).
  simpl fst. simpl snd.
  rewrite (atZ_resolved _ _ _ Ha), (atZ_resolved _ _ _ Hb'),
    (atZ_resolved _ _ _ Hc). simpl.
  rewrite selectBJetPair_search by assumption. simpl.
  fold (bPairsOf jets bjetIdxs).
  match goal with
  | |- context [search ?d encPair ?n ?cs] =>
      destruct (search_cases d encPair n cs) as [[-> Hnone] | (cB & -> & HB)]
  end.
  { exists []. split; auto. eapply SL_noBPair with (cW := (aW, (bW, cW))); eauto. }
  unfold encPair at 1. rewrite (firstLeast_not_aborted HB).
  pose proof (firstLeast_In HB) as HinB.
  destruct cB as [aB bB]. apply orderedPairs_In in HinB as (Ha' & Hb'' & _).
  simpl fst. simpl snd.
  rewrite (atZ_resolved _ _ _ Ha'), (atZ_resolved _ _ _ Hb''). simpl.
  eexists. split; [reflexivity|].
  apply (SL_built cfg lepton neutrinos jets bjetIdxs ljetIdxs
                  (aW, (bW, cW)) (aB, bB)); auto.
Qed.

Lemma combinePseudoTop_outcome leptons neutrinos jets bjetIdxs ljetIdxs :
  Forall (fun i => (i < length jets)%nat) bjetIdxs ->
  Forall (fun i => (i < length jets)%nat) ljetIdxs ->
  exists out,
    combinePseudoTop cfg leptons neutrinos jets bjetIdxs ljetIdxs = Ok out /\
    CombineOutcome cfg leptons neutrinos jets bjetIdxs ljetIdxs out.
Proof.
  intros Hb Hl. unfold combinePseudoTop.
  destruct (Nat.ltb_spec (length bjetIdxs) 2) as [Hfew|Hmany].
  { exists []. split; auto. now apply CO_fewBJets. }
  destruct (Nat.eqb_spec (length leptons) 2) as [H2|H2];
    destruct (Nat.leb_spec 2 (length neutrinos)) as [N2|N2]; cbn [andb].
  - destruct leptons as [|lep0 [|lep1 [|]]]; try discriminate.
    destruct (dileptonChannel_outcome lep0 lep1 neutrinos Hb) as (out & Heq & Hout);
      rewrite Heq.
    exists out. split; auto. eapply CO_dilepton; eauto.
  - destruct (Nat.eqb_spec (length leptons) 1) as [H1|H1]; [lia|]. cbn [andb].
    exists []. split; auto. apply CO_unsupported; auto; lia.
  - destruct (Nat.eqb_spec (length leptons) 1) as [H1|H1];
      destruct (Nat.leb_spec 1 (length neutrinos)) as [N1|N1]; cbn [andb];
      try (exists []; split; auto; apply CO_unsupported; auto; lia).
    destruct leptons as [|lepton [|]]; try discriminate.
    destruct (semileptonicChannel_outcome lepton neutrinos Hb Hl)
      as (out & Heq & Hout); rewrite Heq.
    exists out. split; auto. eapply CO_semileptonic; eauto.
  - destruct (Nat.eqb_spec (length leptons) 1) as [H1|H1];
      destruct (Nat.leb_spec 1 (length neutrinos)) as [N1|N1]; cbn [andb];
      try (exists []; split; auto; apply CO_unsupported; auto; lia).
    destruct leptons as [|lepton [|]]; try discriminate.
    destruct (semileptonicChannel_outcome lepton neutrinos Hb Hl)
      as (out & Heq & Hout); rewrite Heq.
    exists out. split; auto. eapply CO_semileptonic; eauto.
Qed.

Lemma CombineOutcome_length leptons neutrinos jets bjetIdxs ljetIdxs out :
  CombineOutcome cfg leptons neutrinos jets bjetIdxs ljetIdxs out ->
  (length out = 0 \/ length out = 10)%nat.
Proof.
  intros [ | lep0 lep1 o _ _ _ [] | lepton o _ _ _ [] | ]; auto.
Qed.

End Ways.

(* ================================================================== *)
(** ** The decay graph keeps the particles *)

Lemma firstn_skipn_middle {A : Type} (l1 l2 : list A) a :
  firstn (length l1) (l1 ++ a :: l2) = l1
  /\ skipn (S (length l1)) (l1 ++ a :: l2) = l2.
Proof. induction l1 as [|x l1 [IH1 IH2]]; simpl; auto. now rewrite IH1. Qed.

Lemma modifyAt_keeps l op :
  (fst op < length l)%nat ->
  (forall g, unlinked (snd op g) = unlinked g) ->
  exists l', modifyAt l op = Ok l' /\ length l' = length l
             /\ map unlinked l' = map unlinked l.
Proof.
  intros Hi Hop. unfold modifyAt.
  destruct (at_Ok l (fst op) Hi) as (g & -> & E). cbn [bind].
  eexists. split; [reflexivity|].
  apply nth_error_split in E as (l1 & l2 & Hl & Hlen).
  rewrite <- Hlen. subst l.
  destruct (firstn_skipn_middle l1 l2 g) as [-> ->].
  split.
  - rewrite !length_app. reflexivity.
  - rewrite !map_app. simpl. now rewrite Hop.
Qed.

Lemma foldM_modifyAt_keeps n ops :
  Forall (fun op => (fst op < n)%nat
                    /\ forall g, unlinked (snd op g) = unlinked g) ops ->
  forall l, length l = n ->
  exists l', foldM modifyAt ops l = Ok l' /\ length l' = n
             /\ map unlinked l' = map unlinked l.
Proof.
  induction 1 as [|op ops [Hi Hop] _ IH]; intros l Hlen; simpl.
  - eauto.
  - rewrite <- Hlen in Hi.
    destruct (modifyAt_keeps l op Hi Hop) as (l1 & -> & Hlen1 & Hmap1). simpl.
    destruct (IH l1) as (l' & Hl' & Hlen' & Hmap'); [congruence|].
    exists l'. repeat split; auto. congruence.
Qed.

Lemma linkDecayTree_keeps l :
  exists l', linkDecayTree l = Ok l' /\ length l' = length l
             /\ map unlinked l' = map unlinked l.
Proof.
  unfold linkDecayTree. destruct (Nat.eqb_spec (length l) 10) as [H10|H10].
  - rewrite H10. apply foldM_modifyAt_keeps; auto.
    unfold decayLinks. repeat constructor; simpl; lia.
  - eauto.
Qed.

(* ================================================================== *)
(** ** The indices the jet builder hands over are valid *)

Lemma fold_left_invariant {A S : Type} (P : S -> Prop) (f : S -> A -> S) l :
  (forall s a, In a l -> P s -> P (f s a)) ->
  forall s, P s -> P (fold_left f l s).
Proof.
  induction l as [|a l IH]; intros Hf s Hs; simpl; auto.
  apply IH.
  - intros s' a' Hin. apply Hf. now right.
  - apply Hf; auto. now left.
Qed.

Lemma buildJet_valid cfg bHadrons st fjJet :
  jetIdxsValid st -> jetIdxsValid (buildJet cfg bHadrons st fjJet).
Proof.
  intros [Hb Hl]. unfold buildJet.
  destruct (Double.gtb _ _); [split; auto|].
  destruct (fold_left _ _ _) as [constituents hasBHadron].
  destruct hasBHadron; split; simpl; rewrite ?length_app; simpl;
    rewrite ?Forall_app; repeat split;
    try (eapply Forall_impl; [|eassumption]; simpl; intros; lia);
    repeat constructor; lia.
Qed.

Lemma buildJets_valid cfg bHadrons fjJets :
  jetIdxsValid (buildJets cfg bHadrons fjJets).
Proof.
  unfold buildJets. apply fold_left_invariant.
  - intros s a _. apply buildJet_valid.
  - split; constructor.
Qed.

Section ProducerFacts.

Context {L : Library}.
Variable cfg : Config.

Lemma buildingBlocks_valid ev {b} :
  buildingBlocks cfg ev = Ok b ->
  Forall (fun i => (i < length (bl_jets b))%nat) (bl_bjetIdxs b)
  /\ Forall (fun i => (i < length (bl_jets b))%nat) (bl_ljetIdxs b).
Proof.
  unfold buildingBlocks. intros H.
  apply bind_Ok_inv in H as (lepInputs & _ & H).
  apply bind_Ok_inv in H as ([leptons lepDauIdxs] & _ & H).
  apply bind_Ok_inv in H as (jetInputs & _ & H).
  inversion H; subst; clear H. simpl. apply buildJets_valid.
Qed.

(** Past the building blocks nothing can fail: the combinator and the graph
    builder return, with no particle or with ten. *)
Lemma pseudoTopOf_returns ev {b} :
  buildingBlocks cfg ev = Ok b ->
  exists comb out,
    combinePseudoTop cfg (bl_leptons b) (bl_neutrinos b) (bl_jets b)
                     (bl_bjetIdxs b) (bl_ljetIdxs b) = Ok comb
    /\ CombineOutcome cfg (bl_leptons b) (bl_neutrinos b) (bl_jets b)
                      (bl_bjetIdxs b) (bl_ljetIdxs b) comb
    /\ pseudoTopOf cfg b = Ok out
    /\ length out = length comb
    /\ map unlinked out = map unlinked comb.
Proof.
  intros Hb. destruct (buildingBlocks_valid ev Hb) as [Hvb Hvl].
  destruct (combinePseudoTop_outcome cfg (bl_leptons b) (bl_neutrinos b)
              (bl_jets b) (bl_bjetIdxs b) (bl_ljetIdxs b) Hvb Hvl)
    as (comb & Hcomb & Hout).
  destruct (linkDecayTree_keeps comb) as (out & Hlink & Hlen & Hmap).
  exists comb, out. unfold pseudoTopOf. rewrite Hcomb. simpl. auto.
Qed.

End ProducerFacts.

(* ================================================================== *)
(** ** The inputs of the two clusterings *)

Lemma collectLeptonIdxs_In k ps i :
  In i (collectLeptonIdxs k ps) ->
  (k <= i)%nat /\ exists p, nth_error ps (i - k) = Some p
                            /\ classifyStable p = ForDressing.
Proof.
  revert k. induction ps as [|p ps IH]; intros k; simpl; [contradiction|].
  intros Hin.
  assert (Hrest : In i (collectLeptonIdxs (S k) ps) ->
                  (k <= i)%nat /\ exists q, nth_error (p :: ps) (i - k) = Some q
                                            /\ classifyStable q = ForDressing).
  { intros H. apply IH in H as (Hle & q & Hq & Hc). split; [lia|].
    exists q. split; auto. replace (i - k)%nat with (S (i - S k)) by lia. exact Hq. }
  destruct (classifyStable p) eqn:E; auto.
  destruct Hin as [<-|Hin]; auto.
  split; [lia|]. exists p. now rewrite Nat.sub_diag.
Qed.

Lemma collectLeptonIdxs_NoDup k ps : NoDup (collectLeptonIdxs k ps).
Proof.
  revert k. induction ps as [|p ps IH]; intros k; simpl; [constructor|].
  destruct (classifyStable p); auto. constructor; auto.
  intros Hin. apply collectLeptonIdxs_In in Hin as [Hle _]. lia.
Qed.

Lemma classifyStable_ForDressing p :
  classifyStable p = ForDressing ->
  cand_status p = 1
  /\ (Z.abs (cand_pdgId p) = 11 \/ Z.abs (cand_pdgId p) = 13
      \/ Z.abs (cand_pdgId p) = 22).
Proof.
  unfold classifyStable.
  destruct (Z.eqb_spec (cand_status p) 1); simpl; [|discriminate].
  destruct (cand_mothers p) as [|mother ?]; [discriminate|].
  destruct (cand_status mother =? 4); [discriminate|].
  destruct (isFromHadron p); [discriminate|].
  destruct (Z.eqb_spec (Z.abs (cand_pdgId p)) 11);
    destruct (Z.eqb_spec (Z.abs (cand_pdgId p)) 13);
    destruct (Z.eqb_spec (Z.abs (cand_pdgId p)) 22); simpl; auto;
    destruct (_ || _ || _); discriminate.
Qed.

Lemma leptonIdxs_spec ev i :
  In i (leptonIdxs ev) ->
  exists p, nth_error (finalStates ev) i = Some p /\ cand_status p = 1.
Proof.
  intros Hin. apply collectLeptonIdxs_In in Hin as (_ & p & Hp & Hc).
  rewrite Nat.sub_0_r in Hp. exists p. split; auto.
  now apply classifyStable_ForDressing.
Qed.

Lemma collectBHadrons_In k ps i :
  In i (collectBHadrons k ps) ->
  (k <= i)%nat /\ exists p, nth_error ps (i - k) = Some p
                            /\ cand_status p <> 1 /\ isBHadron p = true.
Proof.
  revert k. induction ps as [|p ps IH]; intros k; simpl; [contradiction|].
  intros Hin.
  assert (Hrest : In i (collectBHadrons (S k) ps) ->
                  (k <= i)%nat /\ exists q, nth_error (p :: ps) (i - k) = Some q
                                            /\ cand_status q <> 1
                                            /\ isBHadron q = true).
  { intros H. apply IH in H as (Hle & q & Hq & Hc). split; [lia|].
    exists q. split; auto. replace (i - k)%nat with (S (i - S k)) by lia. exact Hq. }
  destruct (Z.eqb_spec (cand_status p) 1); auto.
  destruct (isBHadron p) eqn:E; auto.
  destruct Hin as [<-|Hin]; auto.
  split; [lia|]. exists p. now rewrite Nat.sub_diag.
Qed.

Lemma bHadronIdxs_spec ev i :
  In i (bHadronIdxs ev) ->
  exists g, nth_error (genParticles ev) i = Some g /\ cand_status g <> 1
            /\ isBHadron g = true.
Proof.
  intros Hin. apply collectBHadrons_In in Hin as (_ & p & Hp & Hc).
  rewrite Nat.sub_0_r in Hp. eauto.
Qed.

Lemma badPt_false_notnan p : badPt p = false -> Double.isnan (cand_pt p) = false.
Proof. unfold badPt. now intros H%orb_false_elim. Qed.

(** Both index loops into a collection: they return when the indices are
    valid, and what they return are the particles that pass the pt test, by
    their index and in the order of the indices. *)
Lemma fjLepInputs_spec {final idxs} :
  Forall (fun i => (i < length final)%nat) idxs ->
  exists inputs,
    fjLepInputs final idxs = Ok inputs
    /\ (forall c, In c inputs ->
          In (user_index c) idxs
          /\ exists p, nth_error final (user_index c) = Some p
                       /\ badPt p = false /\ c = toPseudoJet p (user_index c))
    /\ (NoDup idxs -> NoDup (map user_index inputs)).
Proof.
  intros Hvalid. induction Hvalid as [|i idxs Hi _ IH]; simpl.
  - exists []. split; [reflexivity|]. split; [intros c [] | constructor].
  - destruct IH as (inputs & Heq & Hin & Hnd).
    destruct (at_Ok final i Hi) as (p & -> & E). simpl. rewrite Heq. simpl.
    destruct (badPt p) eqn:Hbad.
    + exists inputs. split; [reflexivity|]. split.
      * intros c Hc. destruct (Hin c Hc). auto.
      * intros Hn. apply Hnd. now inversion Hn.
    + exists (toPseudoJet p i :: inputs). split; [reflexivity|]. split.
      * intros c [<-|Hc]; simpl; [eauto 7|]. destruct (Hin c Hc). auto.
      * intros Hn. inversion Hn; subst. simpl. constructor; auto.
        intros Hc. apply in_map_iff in Hc as (c & <- & Hc).
        destruct (Hin c Hc). auto.
Qed.

Lemma fjJetInputsGhosts_spec {gen idxs} :
  Forall (fun i => (i < length gen)%nat) idxs ->
  exists ghosts,
    fjJetInputsGhosts gen idxs = Ok ghosts
    /\ forall c, In c ghosts ->
         In (user_index c) idxs
         /\ exists p, nth_error gen (user_index c) = Some p
                      /\ badPt p = false /\ c = ghost p (user_index c).
Proof.
  intros Hvalid. induction Hvalid as [|i idxs Hi _ IH]; simpl.
  - exists []. split; [reflexivity | contradiction].
  - destruct IH as (ghosts & Heq & Hin).
    destruct (at_Ok gen i Hi) as (p & -> & E). simpl. rewrite Heq. simpl.
    destruct (badPt p) eqn:Hbad.
    + exists ghosts. split; auto. intros c Hc. destruct (Hin c Hc). auto.
    + exists (ghost p i :: ghosts). split; auto.
      intros c [<-|Hc]; simpl; [eauto 7|]. destruct (Hin c Hc). auto.
Qed.

Lemma fjJetInputsFinal_In lepDauIdxs k ps c :
  In c (fjJetInputsFinal lepDauIdxs k ps) ->
  (k <= user_index c)%nat
  /\ inSet (user_index c) lepDauIdxs = false
  /\ exists p, nth_error ps (user_index c - k) = Some p
               /\ cand_status p = 1 /\ badPt p = false
               /\ c = toPseudoJet p (user_index c).
Proof.
  revert k. induction ps as [|p ps IH]; intros k; simpl; [contradiction|].
  intros Hin.
  assert (Hrest : In c (fjJetInputsFinal lepDauIdxs (S k) ps) ->
    (k <= user_index c)%nat
    /\ inSet (user_index c) lepDauIdxs = false
    /\ exists q, nth_error (p :: ps) (user_index c - k) = Some q
                 /\ cand_status q = 1 /\ badPt q = false
                 /\ c = toPseudoJet q (user_index c)).
  { intros H. apply IH in H as (Hle & Hset & q & Hq & Hc). split; [lia|].
    split; auto. exists q. split; auto.
    replace (user_index c - k)%nat with (S (user_index c - S k)) by lia. exact Hq. }
  destruct (Z.eqb_spec (cand_status p) 1); simpl in Hin; auto.
  destruct (badPt p) eqn:Hbad; auto.
  destruct (_ || _ || _); auto.
  destruct (inSet k lepDauIdxs) eqn:Hset; auto.
  destruct Hin as [<-|Hin]; auto. simpl.
  split; [lia|]. split; auto. exists p. rewrite Nat.sub_diag. auto.
Qed.

Lemma inSet_In i s : inSet i s = true <-> In i s.
Proof.
  unfold inSet. rewrite existsb_exists. split.
  - intros (x & Hx & E). apply Nat.eqb_eq in E. now subst.
  - intros H. exists i. split; auto. apply Nat.eqb_refl.
Qed.

Lemma leptonIdxs_valid ev :
  Forall (fun i => (i < length (finalStates ev))%nat) (leptonIdxs ev).
Proof.
  apply Forall_forall. intros i Hi. apply leptonIdxs_spec in Hi as (p & Hp & _).
  apply nth_error_Some. congruence.
Qed.

Lemma bHadronIdxs_valid ev :
  Forall (fun i => (i < length (genParticles ev))%nat) (bHadronIdxs ev).
Proof.
  apply Forall_forall. intros i Hi. apply bHadronIdxs_spec in Hi as (p & Hp & _).
  apply nth_error_Some. congruence.
Qed.

(* ================================================================== *)
(** ** The representative of a dressed lepton *)

Lemma derefPtrAt_Some {final i p} :
  nth_error final i = Some p -> derefPtrAt final i = Ok p.
Proof. unfold derefPtrAt. now intros ->. Qed.

Lemma repInv_step {final seen} constituents {lepCand c} :
  goodConstituent final c ->
  Forall (goodConstituent final) seen ->
  repInv final seen lepCand ->
  exists constituents' lepCand',
    lepConstituent final (constituents, lepCand) c = Ok (constituents', lepCand')
    /\ repInv final (seen ++ [c]) lepCand'.
Proof.
  intros (p & Hp & Hnan) Hseen Hinv. unfold lepConstituent.
  rewrite (derefPtrAt_Some Hp). simpl.
  fold (isChargedLepton p). destruct (isChargedLepton p) eqn:Hlep.
  - destruct lepCand as [[i r]|].
    + destruct Hinv as (pre & cr & post & Hcs & Hi & Hr & Hrl & Hpre & Hpost).
      unfold Double.gtb. destruct (cand_pt p <? cand_pt r)%float eqn:Hlt.
      * do 2 eexists. split; [reflexivity|].
        exists pre, cr, (post ++ [c]). rewrite Hcs, <- app_assoc. simpl.
        repeat split; auto. apply Forall_app. split; auto.
        constructor; auto. intros p' Hp' _. congruence.
      * do 2 eexists. split; [reflexivity|].
        assert (Hrn : Double.isnan (cand_pt r) = false).
        { rewrite Forall_forall in Hseen.
          destruct (Hseen cr) as (r' & Hr' & Hn'); [rewrite Hcs; apply in_elt|].
          rewrite Hi in Hr'. congruence. }
        pose proof (DoubleOrder.not_ltb_leb _ _ Hnan Hrn Hlt) as Hle.
        exists seen, c, []. repeat split; auto.
        rewrite Hcs. apply Forall_app. split; [|constructor].
        -- eapply Forall_impl; [|exact Hpre]. simpl. intros c' Hc' p' Hp' Hl'.
           eapply DoubleOrder.leb_trans; eauto.
        -- intros p' Hp' _. rewrite Hi in Hp'. congruence.
        -- eapply Forall_impl; [|exact Hpost]. simpl. intros c' Hc' p' Hp' Hl'.
           eapply DoubleOrder.leb_trans; [apply DoubleOrder.ltb_leb|]; eauto.
    + do 2 eexists. split; [reflexivity|].
      exists seen, c, []. repeat split; auto.
      eapply Forall_impl; [|exact Hinv]. simpl. intros c' Hc' p' Hp' Hl'.
      rewrite (Hc' p' Hp') in Hl'. discriminate.
  - do 2 eexists. split; [reflexivity|].
    destruct lepCand as [[i r]|]; simpl.
    + destruct Hinv as (pre & cr & post & Hcs & Hi & Hr & Hrl & Hpre & Hpost).
      exists pre, cr, (post ++ [c]). rewrite Hcs, <- app_assoc. simpl.
      repeat split; auto. apply Forall_app. split; auto.
      constructor; auto. intros p' Hp' Hl'. congruence.
    + apply Forall_app. split; auto. constructor; auto.
      intros p' Hp'. congruence.
Qed.

Lemma repInv_fold {final cs} :
  Forall (goodConstituent final) cs ->
  forall seen constituents lepCand,
    Forall (goodConstituent final) seen ->
    repInv final seen lepCand ->
    exists constituents' lepCand',
      foldM (lepConstituent final) cs (constituents, lepCand)
      = Ok (constituents', lepCand')
      /\ repInv final (seen ++ cs) lepCand'.
Proof.
  induction 1 as [|c cs Hc Hcs IH]; intros seen constituents lepCand Hseen Hinv.
  - simpl. rewrite app_nil_r. eauto.
  - destruct (repInv_step constituents Hc Hseen Hinv)
      as (constituents1 & lepCand1 & Hstep & Hinv1).
    cbn [foldM]. rewrite Hstep. cbn [bind].
    destruct (IH (seen ++ [c]) constituents1 lepCand1) as (c2 & l2 & Hfold & Hinv2);
      auto.
    + apply Forall_app. split; auto.
    + rewrite <- app_assoc in Hinv2. eauto.
Qed.

Lemma lepConstituents_representative {final cs} :
  Forall (goodConstituent final) cs ->
  exists constituents lepCand,
    lepConstituents final cs = Ok (constituents, lepCand)
    /\ repInv final cs lepCand.
Proof.
  intros Hcs. unfold lepConstituents.
  destruct (repInv_fold Hcs [] [] None) as (c' & l' & H & Hinv);
    [constructor | constructor | eauto].
Qed.

(** The clusters of the lepton clustering have such constituents: the inputs
    have passed the pt test. *)
Lemma lepton_clusters_good {L : Library} (cfg : Config) ev lepInputs fjJet :
  constituentsAreInputs ->
  fjLepInputs (finalStates ev) (leptonIdxs ev) = Ok lepInputs ->
  In fjJet (fjCluster (leptonConeSize cfg) lepInputs (leptonMinPt_ cfg)) ->
  Forall (goodConstituent (finalStates ev)) (fj_constituents fjJet).
Proof.
  intros Hcontract HlepIn Hjet.
  destruct (fjLepInputs_spec (leptonIdxs_valid ev)) as (inputs' & Heq & Hin & _).
  rewrite HlepIn in Heq. injection Heq as <-.
  apply Forall_forall. intros c Hc.
  destruct (Hin c (Hcontract _ _ _ _ _ Hjet Hc)) as (_ & p & Hp & Hbad & _).
  exists p. split; auto. now apply badPt_false_notnan.
Qed.

(** C6 (as amended).  A cluster that passes the eta cut and whose constituents
    point at particles with a pt that is a number (as those of the clusters of
    the lepton clustering do) is either dropped, when none of its
    constituents is a charged lepton (species code 11 or 13 in absolute
    value), or becomes one dressed lepton that carries the species code and
    the charge of its representative: the charged-lepton constituent of
    highest pt, the last one seen among those of equal pt.  In the first
    case nothing is recorded; in the second all constituents of the cluster
    are recorded as consumed. *)
Theorem dressed_lepton_representative :
  forall (cfg : Config) (final : list Candidate) (leptons : list GenJet)
         (lepDauIdxs : list nat) (fjJet : FjJet),
    Double.gtb (abs (fj_eta fjJet)) (leptonMaxEta_ cfg) = false ->
    Forall (goodConstituent final) (fj_constituents fjJet) ->
    (noChargedLepton final (fj_constituents fjJet)
     /\ dressLepton cfg final (leptons, lepDauIdxs) fjJet
        = Ok (leptons, lepDauIdxs))
    \/ (exists i r constituents,
          representative final (fj_constituents fjJet) i r
          /\ dressLepton cfg final (leptons, lepDauIdxs) fjJet
             = Ok (leptons
                     ++ [mkGenJet (fj_p4 fjJet) genVertex_ constituents
                                  (cand_pdgId r) (cand_charge r)
                                  (fj_jetArea fjJet)],
                   lepDauIdxs ++ map user_index (fj_constituents fjJet))).
Proof.
  intros cfg final leptons lepDauIdxs fjJet Heta Hgood.
  destruct (lepConstituents_representative Hgood)
    as (constituents & lepCand & Hloop & Hinv).
  unfold dressLepton. rewrite Heta, Hloop. cbn [bind].
  destruct lepCand as [[i r]|]; simpl in Hinv.
  - right. exists i, r, constituents. auto.
  - left. auto.
Qed.

(** The statement above at a cluster of two electrons of equal pt. *)
Lemma dressed_lepton_representative_witness :
  Double.gtb (abs (fj_eta Examples.tieCluster))
             (leptonMaxEta_ Examples.cfg) = false
  /\ Forall (goodConstituent Examples.tieFinal)
            (fj_constituents Examples.tieCluster)
  /\ ((noChargedLepton Examples.tieFinal (fj_constituents Examples.tieCluster)
       /\ dressLepton Examples.cfg Examples.tieFinal ([], []) Examples.tieCluster
          = Ok ([], []))
      \/ (exists i r constituents,
            representative Examples.tieFinal
                           (fj_constituents Examples.tieCluster) i r
            /\ dressLepton Examples.cfg Examples.tieFinal ([], [])
                           Examples.tieCluster
               = Ok ([] ++ [mkGenJet (fj_p4 Examples.tieCluster) genVertex_
                                     constituents (cand_pdgId r) (cand_charge r)
                                     (fj_jetArea Examples.tieCluster)],
                     [] ++ map user_index (fj_constituents Examples.tieCluster)))).
Proof.
  assert (Heta : Double.gtb (abs (fj_eta Examples.tieCluster))
                            (leptonMaxEta_ Examples.cfg) = false)
    by (vm_compute; reflexivity).
  assert (Hgood : Forall (goodConstituent Examples.tieFinal)
                         (fj_constituents Examples.tieCluster)).
  { repeat constructor; eexists; (split; [reflexivity | vm_compute; reflexivity]). }
  split; [exact Heta|]. split; [exact Hgood|].
  exact (dressed_lepton_representative Examples.cfg Examples.tieFinal [] []
           Examples.tieCluster Heta Hgood).
Defined.

(** Against C6 as stated: in a cluster whose two charged leptons have exactly
    the same pt, the electron (index 0, code 11, charge -1) is seen first and
    the positron (index 1, code -11, charge 1) second; the dressed lepton
    takes the code and the charge of the second.  With the constituents in
    the other order it is the electron, again the second seen. *)
Lemma tie_picks_last_seen :
  map user_index (fj_constituents Examples.tieCluster) = [0; 1]%nat
  /\ (cand_pt Examples.electronA =? cand_pt Examples.positronB)%float = true
  /\ isChargedLepton Examples.electronA = true
  /\ isChargedLepton Examples.positronB = true
  /\ dressLepton Examples.cfg Examples.tieFinal ([], []) Examples.tieCluster
     = Ok ([mkGenJet (fj_p4 Examples.tieCluster) genVertex_ [0; 1]%nat
                     (cand_pdgId Examples.positronB)
                     (cand_charge Examples.positronB) 0%float],
           [0; 1]%nat)
  /\ cand_pdgId Examples.positronB <> cand_pdgId Examples.electronA
  /\ map user_index (fj_constituents Examples.tieClusterSwapped) = [1; 0]%nat
  /\ dressLepton Examples.cfg Examples.tieFinal ([], [])
                 Examples.tieClusterSwapped
     = Ok ([mkGenJet (fj_p4 Examples.tieClusterSwapped) genVertex_ [1; 0]%nat
                     (cand_pdgId Examples.electronA)
                     (cand_charge Examples.electronA) 0%float],
           [1; 0]%nat).
Proof.
  repeat split; try (vm_compute; reflexivity). vm_compute. discriminate.
Qed.

(* ================================================================== *)
(** ** What the lepton loop records *)

Lemma clusterIdxs_cons j js :
  clusterIdxs (j :: js) = map user_index (fj_constituents j) ++ clusterIdxs js.
Proof. unfold clusterIdxs. simpl. now rewrite map_app. Qed.

Lemma lepConstituent_incl final cs :
  forall constituents lepCand constituents' lepCand',
    foldM (lepConstituent final) cs (constituents, lepCand)
    = Ok (constituents', lepCand') ->
    incl constituents' (constituents ++ map user_index cs).
Proof.
  induction cs as [|c cs IH]; intros k l k' l' H; simpl in H.
  - inversion H; subst. rewrite app_nil_r. apply incl_refl.
  - apply bind_Ok_inv in H as ([k1 l1] & Hstep & Hrest).
    apply IH in Hrest. unfold lepConstituent in Hstep.
    apply bind_Ok_inv in Hstep as (cand & _ & Hstep).
    assert (Hk1 : incl k1 (k ++ [user_index c])).
    { destruct (_ || _) in Hstep;
        [destruct l as [[? lep]|]; [destruct (Double.gtb _ _)|]|];
        inversion Hstep; subst;
        try apply incl_refl; apply incl_appl, incl_refl. }
    intros x Hx. apply Hrest in Hx. apply in_app_or in Hx as [Hx|Hx].
    + apply Hk1 in Hx. apply in_app_or in Hx as [Hx|[<-|[]]].
      * apply in_or_app. now left.
      * apply in_or_app. right. now left.
    + apply in_or_app. right. now right.
Qed.

Lemma dressLepton_inv cfg final leptons lepDauIdxs fjJet st' :
  dressLepton cfg final (leptons, lepDauIdxs) fjJet = Ok st' ->
  st' = (leptons, lepDauIdxs)
  \/ exists lepJet,
       st' = (leptons ++ [lepJet],
              lepDauIdxs ++ map user_index (fj_constituents fjJet))
       /\ incl (jet_constituents lepJet) (map user_index (fj_constituents fjJet)).
Proof.
  unfold dressLepton. destruct (Double.gtb _ _).
  - intros H. inversion H. auto.
  - intros H. apply bind_Ok_inv in H as ([constituents lepCand] & Hloop & H).
    destruct lepCand as [[i lep]|]; inversion H; subst; auto.
    right. eexists. split; [reflexivity|]. simpl.
    apply lepConstituent_incl in Hloop. exact Hloop.
Qed.

Lemma NoDup_app_inv {A : Type} (l1 l2 : list A) :
  NoDup (l1 ++ l2) ->
  NoDup l1 /\ NoDup l2 /\ forall a, In a l1 -> ~ In a l2.
Proof.
  induction l1 as [|x l1 IH]; simpl; intros H.
  - split; [constructor|]. split; [assumption|]. intros a [].
  - inversion H as [|? ? Hx Hrest]; subst.
    destruct (IH Hrest) as (H1 & H2 & H3).
    split; [|split; [assumption|]].
    + constructor; auto. intros Hin. apply Hx. apply in_or_app. now left.
    + intros a [<-|Ha]; auto. intros Hin. apply Hx. apply in_or_app. now right.
Qed.

(** The loop over the clusters appends to [lepDauIdxs] the constituents of
    the clusters it accepts, and nothing else. *)
Lemma buildLeptons_fold cfg final js :
  forall leptons lepDauIdxs leptons' lepDauIdxs',
    foldM (dressLepton cfg final) js (leptons, lepDauIdxs)
    = Ok (leptons', lepDauIdxs') ->
    exists D K,
      lepDauIdxs' = lepDauIdxs ++ D
      /\ incl D (clusterIdxs js)
      /\ (NoDup (clusterIdxs js) -> NoDup D)
      /\ flat_map jet_constituents leptons'
         = flat_map jet_constituents leptons ++ K
      /\ incl K D.
Proof.
  induction js as [|j js IH]; intros leptons dau leptons' dau' H; simpl in H.
  - inversion H; subst. exists [], []. rewrite !app_nil_r.
    split; [reflexivity|]. split; [apply incl_nil_l|].
    split; [intros _; constructor|]. split; [reflexivity | apply incl_refl].
  - apply bind_Ok_inv in H as ([leptons1 dau1] & Hstep & Hrest).
    apply IH in Hrest as (D & K & HD & HDi & HDn & HK & HKi).
    rewrite clusterIdxs_cons.
    apply dressLepton_inv in Hstep as [Heq|(lepJet & Heq & Hjet)];
      inversion Heq; subst; clear Heq.
    + exists D, K.
      split; [reflexivity|]. split; [|split; [|split; [assumption|assumption]]].
      * now apply incl_appr.
      * intros Hn. apply HDn. now apply NoDup_app_inv in Hn.
    + exists (map user_index (fj_constituents j) ++ D),
             (jet_constituents lepJet ++ K).
      split; [|split; [|split; [|split]]].
      * now rewrite app_assoc.
      * apply incl_app; [apply incl_appl, incl_refl | now apply incl_appr].
      * intros Hn. apply NoDup_app_inv in Hn as (H1 & H2 & H3).
        apply NoDup_app; auto. intros a Ha HaD. apply (H3 a Ha). now apply HDi.
      * rewrite HK, flat_map_app. simpl. now rewrite app_nil_r, app_assoc.
      * apply incl_app; [now apply incl_appl | now apply incl_appr].
Qed.

Lemma buildLeptons_returns cfg {final js} :
  Forall (fun j => Forall (goodConstituent final) (fj_constituents j)) js ->
  forall st, exists st', foldM (dressLepton cfg final) js st = Ok st'.
Proof.
  induction 1 as [|j js Hj _ IH]; intros [leptons dau]; cbn [foldM]; [eauto|].
  assert (Hstep : exists st1, dressLepton cfg final (leptons, dau) j = Ok st1).
  { unfold dressLepton. destruct (Double.gtb _ _); [eauto|].
    destruct (lepConstituents_representative Hj) as (k & l & -> & _).
    cbn [bind]. destruct l as [[? ?]|]; eauto. }
  destruct Hstep as (st1 & ->). cbn [bind]. apply IH.
Qed.

(** The jets carry the indices of the constituents of their clusters. *)
Lemma jetConstituent_fold bHadrons cs :
  forall k h, fst (fold_left (jetConstituent bHadrons) cs (k, h))
              = k ++ map user_index cs.
Proof.
  induction cs as [|c cs IH]; intros k h; simpl.
  - now rewrite app_nil_r.
  - rewrite IH, <- app_assoc. reflexivity.
Qed.

Lemma buildJets_constituents cfg bHadrons fjJets :
  incl (flat_map jet_constituents (js_jets (buildJets cfg bHadrons fjJets)))
       (clusterIdxs fjJets).
Proof.
  unfold buildJets.
  assert (H : forall st,
             incl (flat_map jet_constituents
                     (js_jets (fold_left (buildJet cfg bHadrons) fjJets st)))
                  (flat_map jet_constituents (js_jets st) ++ clusterIdxs fjJets)).
  { induction fjJets as [|j js IH]; intros st; simpl.
    - apply incl_appl, incl_refl.
    - eapply incl_tran; [apply IH|]. rewrite clusterIdxs_cons.
      apply incl_app; [|apply incl_appr, incl_appr, incl_refl].
      unfold buildJet. destruct (Double.gtb _ _); [apply incl_appl, incl_refl|].
      pose proof (jetConstituent_fold bHadrons (fj_constituents j) [] false) as Hk.
      destruct (fold_left _ _ _) as [k h]. simpl in Hk. subst k.
      destruct h; simpl; rewrite flat_map_app; simpl; rewrite app_nil_r;
        (apply incl_app; [apply incl_appl, incl_refl
                         | apply incl_appr, incl_appl, incl_refl]). }
  apply (H (mkJetState [] [] [])).
Qed.

(* ================================================================== *)
(** ** The producer as a whole *)

Section PipelineFacts.

Context {L : Library}.
Variable cfg : Config.

Lemma buildingBlocks_inv ev b :
  buildingBlocks cfg ev = Ok b ->
  exists lepInputs ghosts,
    fjLepInputs (finalStates ev) (leptonIdxs ev) = Ok lepInputs
    /\ buildLeptons cfg (finalStates ev)
         (fjCluster (leptonConeSize cfg) lepInputs (leptonMinPt_ cfg))
       = Ok (bl_leptons b, bl_lepDauIdxs b)
    /\ fjJetInputsGhosts (genParticles ev) (bHadronIdxs ev) = Ok ghosts
    /\ bl_jetInputs b
       = fjJetInputsFinal (bl_lepDauIdxs b) 0 (finalStates ev) ++ ghosts
    /\ bl_neutrinos b = sortedNeutrinos ev
    /\ bl_jets b
       = js_jets (buildJets cfg (bHadronIdxs ev)
                    (fjCluster (jetConeSize cfg) (bl_jetInputs b) (jetMinPt_ cfg))).
Proof.
  unfold buildingBlocks. intros H.
  apply bind_Ok_inv in H as (lepInputs & HlepIn & H).
  apply bind_Ok_inv in H as ([leptons lepDauIdxs] & Hlep & H).
  apply bind_Ok_inv in H as (jetInputs & HjetIn & H).
  unfold fjJetInputs in HjetIn.
  apply bind_Ok_inv in HjetIn as (ghosts & Hghosts & HjetIn).
  inversion HjetIn; subst; clear HjetIn.
  inversion H; subst; clear H. simpl.
  exists lepInputs, ghosts. repeat split; auto.
Qed.

(** When the clustering hands back constituents it was given, nothing in
    the producer fails. *)
Lemma buildingBlocks_returns ev :
  constituentsAreInputs -> exists b, buildingBlocks cfg ev = Ok b.
Proof.
  intros Hcontract. unfold buildingBlocks.
  destruct (fjLepInputs_spec (leptonIdxs_valid ev)) as (lepInputs & -> & Hin & _).
  cbn [bind].
  assert (Hgood : Forall (fun j => Forall (goodConstituent (finalStates ev))
                                          (fj_constituents j))
                         (fjCluster (leptonConeSize cfg) lepInputs
                                    (leptonMinPt_ cfg))).
  { apply Forall_forall. intros j Hj. apply Forall_forall. intros c Hc.
    destruct (Hin c (Hcontract _ _ _ _ _ Hj Hc)) as (_ & p & Hp & Hbad & _).
    exists p. split; auto. now apply badPt_false_notnan. }
  destruct (buildLeptons_returns cfg Hgood ([], [])) as ([leptons dau] & Hlep).
  unfold buildLeptons. rewrite Hlep. cbn [bind]. unfold fjJetInputs.
  destruct (fjJetInputsGhosts_spec (bHadronIdxs_valid ev)) as (ghosts & -> & _).
  cbn [bind]. eauto.
Qed.

Lemma produce_returns ev :
  constituentsAreInputs -> exists out, produce cfg ev = Ok out.
Proof.
  intros Hcontract. destruct (buildingBlocks_returns ev Hcontract) as (b & Hb).
  destruct (pseudoTopOf_returns cfg ev Hb) as (comb & out & _ & _ & Hout & _).
  unfold produce. rewrite Hb. cbn [bind]. rewrite Hout. cbn [bind]. eauto.
Qed.

End PipelineFacts.

(** C1. Whatever the event, the pseudo-top collection [produce] emits has no
    entry or ten: the combinator leaves its block either by a [break], before
    anything is pushed, or after pushing the ten particles of a channel, and
    the graph builder changes no size.  And [produce] does return when the
    clustering hands back constituents it was given. *)
Theorem pseudoTop_size_zero_or_ten :
  forall (L : Library) (cfg : Config) (ev : Event),
    (forall out, produce cfg ev = Ok out ->
                 length (out_pseudoTop out) = 0%nat
                 \/ length (out_pseudoTop out) = 10%nat)
    /\ (constituentsAreInputs -> exists out, produce cfg ev = Ok out).
Proof.
  intros L cfg ev. split; [|apply produce_returns].
  intros out H. unfold produce in H.
  apply bind_Ok_inv in H as (b & Hb & H).
  destruct (pseudoTopOf_returns cfg ev Hb)
    as (comb & pt & _ & Hcomb & Hpt & Hlen & _).
  rewrite Hpt in H. cbn [bind] in H. inversion H; subst; clear H. simpl.
  rewrite Hlen. eapply CombineOutcome_length; eauto.
Qed.

(** The statement above at the dilepton example, whose collection has ten
    entries. *)
Lemma pseudoTop_size_zero_or_ten_witness :
  @produce Reference.library Examples.cfg Examples.dileptonEvent
  = Ok Examples.dileptonOutput
  /\ length (out_pseudoTop Examples.dileptonOutput) = 10%nat
  /\ (length (out_pseudoTop Examples.dileptonOutput) = 0%nat
      \/ length (out_pseudoTop Examples.dileptonOutput) = 10%nat).
Proof.
  assert (H : @produce Reference.library Examples.cfg Examples.dileptonEvent
              = Ok Examples.dileptonOutput) by (vm_compute; reflexivity).
  split; [exact H|]. split; [vm_compute; reflexivity|].
  exact (proj1 (pseudoTop_size_zero_or_ten Reference.library Examples.cfg
                  Examples.dileptonEvent) Examples.dileptonOutput H).
Defined.

(* ================================================================== *)
(** ** The reference library meets the contracts *)

Module ReferenceFacts.

Import Reference.

Lemma insertSorted_perm {A : Type} (cmp : A -> A -> bool) x l :
  Permutation (insertSorted cmp x l) (x :: l).
Proof.
  induction l as [|y l IH]; simpl; auto.
  destruct (cmp x y); auto.
  eapply perm_trans; [apply perm_skip, IH | apply perm_swap].
Qed.

Lemma insertionSort_perm {A : Type} (cmp : A -> A -> bool) l :
  Permutation (insertionSort cmp l) l.
Proof.
  induction l as [|x l IH]; simpl; auto.
  eapply perm_trans; [apply insertSorted_perm | now apply perm_skip].
Qed.

Lemma strictWeakOrderOn_incl {A : Type} (cmp : A -> A -> bool) l l' :
  incl l' l -> strictWeakOrderOn cmp l -> strictWeakOrderOn cmp l'.
Proof.
  intros Hincl (Hirr & Htr & Heq). split; [|split].
  - intros a Ha. apply Hirr. now apply Hincl.
  - intros a b c Ha Hb Hc. apply Htr; now apply Hincl.
  - intros a b c Ha Hb Hc. apply Heq; now apply Hincl.
Qed.

Lemma insertSorted_sorted {A : Type} (cmp : A -> A -> bool) x l :
  strictWeakOrderOn cmp (x :: l) ->
  StronglySorted (fun a b => cmp b a = false) l ->
  StronglySorted (fun a b => cmp b a = false) (insertSorted cmp x l).
Proof.
  intros Hswo Hsorted. induction Hsorted as [|y l Hl IH Hy]; simpl.
  - constructor; constructor.
  - destruct Hswo as (Hirr & Htr & Heq).
    destruct (cmp x y) eqn:Hxy.
    + constructor; [constructor; auto|].
      assert (Hyx : cmp y x = false).
      { destruct (cmp y x) eqn:Hyx; auto.
        pose proof (Htr x y x (or_introl eq_refl) (or_intror (or_introl eq_refl))
                        (or_introl eq_refl) Hxy Hyx) as Hxx.
        rewrite (Hirr x (or_introl eq_refl)) in Hxx. discriminate. }
      constructor; auto.
      rewrite Forall_forall in Hy |- *. intros z Hz.
      destruct (cmp z x) eqn:Hzx; auto.
      pose proof (Htr z x y (or_intror (or_intror Hz)) (or_introl eq_refl)
                      (or_intror (or_introl eq_refl)) Hzx Hxy) as Hzy.
      rewrite (Hy z Hz) in Hzy. discriminate.
    + constructor.
      * apply IH. eapply strictWeakOrderOn_incl; [|split; [|split]; eassumption].
        intros a [<-|Ha]; simpl; auto.
      * eapply Permutation_Forall.
        -- symmetry. apply insertSorted_perm.
        -- constructor; auto.
Qed.

Lemma insertionSort_sorted {A : Type} (cmp : A -> A -> bool) l :
  strictWeakOrderOn cmp l ->
  StronglySorted (fun a b => cmp b a = false) (insertionSort cmp l).
Proof.
  induction l as [|x l IH]; intros Hswo; simpl; [constructor|].
  apply insertSorted_sorted.
  - eapply strictWeakOrderOn_incl; [|exact Hswo].
    intros a [<-|Ha]; [now left | right].
    eapply Permutation_in; [apply insertionSort_perm | exact Ha].
  - apply IH. eapply strictWeakOrderOn_incl; [|exact Hswo].
    intros a Ha. now right.
Qed.

Lemma reference_sortContract : @sortContract library.
Proof.
  intros cmp l. split.
  - apply insertionSort_perm.
  - apply insertionSort_sorted.
Qed.

Lemma singleton_constituents l :
  flat_map fj_constituents (map singletonJet l) = l.
Proof. induction l as [|c l IH]; simpl; auto. now rewrite IH. Qed.

Lemma reference_constituentsAreInputs : @constituentsAreInputs library.
Proof.
  intros R inputs ptmin jet c Hjet Hc. simpl in Hjet. unfold singletonCluster in Hjet.
  apply in_map_iff in Hjet as (c' & <- & Hc'). simpl in Hc.
  destruct Hc as [<-|[]].
  eapply Permutation_in in Hc'; [|apply insertionSort_perm].
  now apply filter_In in Hc'.
Qed.

Lemma NoDup_map_filter {A B : Type} (f : A -> B) (g : A -> bool) l :
  NoDup (map f l) -> NoDup (map f (filter g l)).
Proof.
  induction l as [|a l IH]; simpl; intros H; [constructor|].
  inversion H as [|? ? Ha Hl]; subst.
  destruct (g a); simpl; auto. constructor; auto.
  intros Hin. apply Ha. apply in_map_iff in Hin as (a' & Heq & Ha').
  apply in_map_iff. exists a'. split; auto. now apply filter_In in Ha'.
Qed.

Lemma reference_clustersAreDisjoint : @clustersAreDisjoint library.
Proof.
  intros R inputs ptmin Hn. simpl. unfold singletonCluster.
  rewrite singleton_constituents.
  eapply Permutation_NoDup.
  - apply Permutation_map. symmetry. apply insertionSort_perm.
  - now apply NoDup_map_filter.
Qed.

End ReferenceFacts.

(* ================================================================== *)
(** ** Events without a result *)

Section NoResultFacts.

Context {L : Library}.
Variable cfg : Config.

Lemma NoResult_empty {b comb} :
  NoResult cfg b ->
  CombineOutcome cfg (bl_leptons b) (bl_neutrinos b) (bl_jets b)
                 (bl_bjetIdxs b) (bl_ljetIdxs b) comb ->
  comb = [].
Proof.
  intros Hno Hcomb.
  destruct Hcomb as [ Hfew
                    | lep0 lep1 out Hmany Hlep Hnu Hout
                    | lepton out Hmany Hlep Hnu Hout
                    | Hmany Hn2 Hn1 ]; auto.
  - destruct Hout as [ | | | cN cB Hq HN HB]; auto. exfalso.
    destruct Hno as [ H | H2 H1 | l0 l1 Hl Hn Hs | l0 l1 Hl Hn Hnone
                    | l0 l1 cN' Hl Hn HN' Hnone | l Hl Hn Hnone
                    | l cW Hl Hn HW Hnone ];
      try lia; try (rewrite Hlep in *; simpl in *);
      try (apply H2; split; [reflexivity | assumption]);
      try discriminate;
      injection Hl as <- <-.
    + lia.
    + exact (firstLeast_noneBelow HN Hnone).
    + rewrite <- (firstLeast_unique HN HN') in Hnone.
      exact (firstLeast_noneBelow HB Hnone).
  - destruct Hout as [ | | cW cB HW HB]; auto. exfalso.
    destruct Hno as [ H | H2 H1 | l0 l1 Hl Hn Hs | l0 l1 Hl Hn Hnone
                    | l0 l1 cN' Hl Hn HN' Hnone | l Hl Hn Hnone
                    | l cW' Hl Hn HW' Hnone ];
      try lia; try (rewrite Hlep in *; simpl in *);
      try (apply H1; split; [reflexivity | assumption]);
      try discriminate;
      injection Hl as <-.
    + exact (firstLeast_noneBelow HW Hnone).
    + rewrite <- (firstLeast_unique HW HW') in Hnone.
      exact (firstLeast_noneBelow HB Hnone).
Qed.

Lemma produce_NoResult ev b :
  buildingBlocks cfg ev = Ok b -> NoResult cfg b ->
  produce cfg ev = Ok (mkOutput (bl_neutrinos b) (bl_leptons b) (bl_jets b) []).
Proof.
  intros Hb Hno.
  destruct (pseudoTopOf_returns cfg ev Hb)
    as (comb & out & _ & Hcomb & Hout & Hlen & _).
  rewrite (NoResult_empty Hno Hcomb) in Hlen.
  destruct out; [|discriminate].
  unfold produce. rewrite Hb. cbn [bind]. rewrite Hout. reflexivity.
Qed.

Lemma allAtSentinel_noneBelow {C : Type} (dev : C -> float) cs :
  allAtSentinel dev cs -> noneBelow dev cs.
Proof.
  apply Forall_impl. intros c H. now apply DoubleOrder.leb_not_ltb.
Qed.

End NoResultFacts.

(** C3. When the building blocks hold fewer than two b jets, or multiplicities
    of neither channel, or two dressed leptons of the same sign, or when one
    of the searches finds no combination, [produce] returns, and what it
    emits has an empty pseudo-top collection.  The building blocks themselves
    are returned whenever the clustering hands back constituents it was
    given, so that on such events nothing is raised at all. *)
Theorem no_result_is_empty :
  forall (L : Library) (cfg : Config) (ev : Event),
    (constituentsAreInputs -> exists b, buildingBlocks cfg ev = Ok b)
    /\ (forall b,
          buildingBlocks cfg ev = Ok b -> NoResult cfg b ->
          produce cfg ev
          = Ok (mkOutput (bl_neutrinos b) (bl_leptons b) (bl_jets b) [])).
Proof.
  intros L cfg ev. split; [apply buildingBlocks_returns|].
  intros b Hb Hno. now apply produce_NoResult.
Qed.

(** The statement above at an event with a single b hadron, hence a single
    b jet. *)
Lemma no_result_is_empty_witness :
  @buildingBlocks Reference.library Examples.cfg Examples.singleBEvent
  = Ok Examples.singleBBlocks
  /\ length (bl_bjetIdxs Examples.singleBBlocks) = 1%nat
  /\ length (bl_leptons Examples.singleBBlocks) = 2%nat
  /\ length (bl_neutrinos Examples.singleBBlocks) = 2%nat
  /\ @produce Reference.library Examples.cfg Examples.singleBEvent
     = Ok (mkOutput (bl_neutrinos Examples.singleBBlocks)
                    (bl_leptons Examples.singleBBlocks)
                    (bl_jets Examples.singleBBlocks) []).
Proof.
  assert (Hb : @buildingBlocks Reference.library Examples.cfg Examples.singleBEvent
               = Ok Examples.singleBBlocks) by (vm_compute; reflexivity).
  split; [exact Hb|]. repeat (split; [vm_compute; reflexivity|]).
  apply (proj2 (no_result_is_empty Reference.library Examples.cfg
                  Examples.singleBEvent) Examples.singleBBlocks Hb).
  apply NR_fewBJets. vm_compute. lia.
Defined.

(* ================================================================== *)
(** ** The sentinel *)



(* ================================================================== *)
(** ** The dilepton channel *)

Lemma opposite_signs a b :
  a * b < 0 -> (a > 0 /\ b < 0) \/ (a < 0 /\ b > 0).
Proof.
  intros H.
  destruct (Z.lt_trichotomy a 0) as [Ha|[Ha|Ha]];
    destruct (Z.lt_trichotomy b 0) as [Hb|[Hb|Hb]]; subst; lia.
Qed.

Section DileptonFacts.

Context {L : Library}.
Variable cfg : Config.

(** The block run on two leptons, at least two neutrinos and at least two
    b jets: what it returns, when it returns something, are the ten particles
    built on the first least neutrino pair and the first least b-jet pair. *)
Lemma combinePseudoTop_dilepton lep0 lep1 neutrinos jets bjetIdxs ljetIdxs out :
  Forall (fun i => (i < length jets)%nat) bjetIdxs ->
  combinePseudoTop cfg [lep0; lep1] neutrinos jets bjetIdxs ljetIdxs = Ok out ->
  out <> [] ->
  exists cN cB,
    jet_charge lep0 * jet_charge lep1 <= 0
    /\ firstLeast (nuPairDev cfg (lepton1Of lep0 lep1) (lepton2Of lep0 lep1))
                  (nuPairsOf neutrinos) cN
    /\ firstLeast
         (bPairDev cfg
            (lv_add (jet_p4 (lepton1Of lep0 lep1)) (gp_p4 (snd (fst cN))))
            (lv_add (jet_p4 (lepton2Of lep0 lep1)) (gp_p4 (snd (snd cN)))))
         (bPairsOf jets bjetIdxs) cB
    /\ out = dileptonParticles (jet_charge lep0) (jet_charge lep1)
               (lepton1Of lep0 lep1) (lepton2Of lep0 lep1)
               (snd (fst cN)) (snd (snd cN)) (snd (fst cB)) (snd (snd cB)).
Proof.
  intros Hvalid Hrun Hne. unfold combinePseudoTop in Hrun.
  destruct (length bjetIdxs <? 2)%nat; [inversion Hrun; congruence|].
  cbn [length Nat.eqb andb] in Hrun.
  destruct (2 <=? length neutrinos)%nat.
  - destruct (dileptonChannel_outcome cfg lep0 lep1 neutrinos Hvalid)
      as (out' & Heq & Hout).
    rewrite Heq in Hrun. inversion Hrun; subst out'; clear Hrun.
    destruct Hout as [ | | | cN cB Hq HN HB]; try congruence.
    exists cN, cB. auto.
  - cbn [andb] in Hrun. inversion Hrun; congruence.
Qed.

End DileptonFacts.

(** C2. In the dilepton channel [lepton1] is the positive and [lepton2] the
    negative of two leptons of opposite sign.  The neutrino search returns,
    and when it does not abort it has selected the first of the pairs (i, j),
    i different from j, of least deviation
    |mass(lepton1 + nu_i) - wMass| + |mass(lepton2 + nu_j) - wMass|,
    the pairs being visited with the outer index first and then the inner:
    no pair has a smaller deviation, and no pair visited before it has an
    equal one.  The same holds of the b-jet search with the deviation
    |mass(W1 + b_i) - tMass| + |mass(W2 + b_j) - tMass|, where W1 and W2 are
    the sums of each lepton with its selected neutrino.  The ten particles
    the channel returns are built on these two pairs.  The deviations are
    written out in the statement: [plus] is the sum of two four-vectors,
    component by component, [dW] and [dT] the distance of the mass of a sum
    to the reference mass of the W and of the top. *)
Theorem dilepton_pairs_are_first_least :
  forall (L : Library) (cfg : Config) (lep0 lep1 : GenJet)
         (neutrinos : list GenParticle) (jets : list GenJet)
         (bjetIdxs ljetIdxs : list nat),
    let plus := fun a b : LorentzVector =>
      mkLorentzVector (lv_px a + lv_px b)%float (lv_py a + lv_py b)%float
                      (lv_pz a + lv_pz b)%float (lv_E a + lv_E b)%float in
    let dW := fun (lepton : GenJet) (nu : nat * GenParticle) =>
      abs (lv_mass (plus (jet_p4 lepton) (gp_p4 (snd nu))) - wMass_ cfg)%float in
    let dT := fun (w : LorentzVector) (b : nat * GenJet) =>
      abs (lv_mass (plus w (jet_p4 (snd b))) - tMass_ cfg)%float in
    let lepton1 := lepton1Of lep0 lep1 in
    let lepton2 := lepton2Of lep0 lep1 in
    let devN := fun c : (nat * GenParticle) * (nat * GenParticle) =>
      (dW lepton1 (fst c) + dW lepton2 (snd c))%float in
    let devB := fun (w1 w2 : LorentzVector) (c : (nat * GenJet) * (nat * GenJet)) =>
      (dT w1 (fst c) + dT w2 (snd c))%float in
    Forall (fun i => (i < length jets)%nat) bjetIdxs ->
    (jet_charge lep0 * jet_charge lep1 < 0 ->
     jet_charge lepton1 > 0 /\ jet_charge lepton2 < 0)
    /\ (exists r,
          selectNuPair cfg lepton1 lepton2 neutrinos = Ok r
          /\ (Double.geb (fst r) 1e9 = false ->
              exists cN,
                r = (devN cN, encPair cN)
                /\ firstLeast devN (nuPairsOf neutrinos) cN))
    /\ (forall w1LVec w2LVec,
          exists r,
            selectBJetPair cfg w1LVec w2LVec jets bjetIdxs = Ok r
            /\ (Double.geb (fst r) 1e9 = false ->
                exists cB,
                  r = (devB w1LVec w2LVec cB, encPair cB)
                  /\ firstLeast (devB w1LVec w2LVec) (bPairsOf jets bjetIdxs) cB))
    /\ (forall out,
          combinePseudoTop cfg [lep0; lep1] neutrinos jets bjetIdxs ljetIdxs
          = Ok out ->
          out <> [] ->
          exists cN cB,
            firstLeast devN (nuPairsOf neutrinos) cN
            /\ firstLeast
                 (devB (plus (jet_p4 lepton1) (gp_p4 (snd (fst cN))))
                       (plus (jet_p4 lepton2) (gp_p4 (snd (snd cN)))))
                 (bPairsOf jets bjetIdxs) cB
            /\ out = dileptonParticles (jet_charge lep0) (jet_charge lep1)
                       lepton1 lepton2
                       (snd (fst cN)) (snd (snd cN))
                       (snd (fst cB)) (snd (snd cB))).
Proof.
  intros L cfg lep0 lep1 neutrinos jets bjetIdxs ljetIdxs
         plus dW dT lepton1 lepton2 devN devB Hvalid.
  (* the deviations of the searches are the ones written out above *)
  assert (HdevN : devN = nuPairDev cfg lepton1 lepton2) by reflexivity.
  assert (HdevB : forall w1 w2, devB w1 w2 = bPairDev cfg w1 w2) by reflexivity.
  assert (Hplus : forall a b, plus a b = lv_add a b) by reflexivity.
  split; [|split; [|split]].
  - unfold lepton1, lepton2, lepton1Of, lepton2Of. intros Hq.
    destruct (opposite_signs _ _ Hq) as [[H0 H1]|[H0 H1]];
      destruct (Z.gtb_spec (jet_charge lep0) 0); split; lia.
  - rewrite HdevN.
    eexists. split; [apply selectNuPair_search|]. intros Hsel.
    destruct (search_cases (nuPairDev cfg lepton1 lepton2)
                           encPair (-1, -1) (nuPairsOf neutrinos))
      as [[Hr _]|(c & Hr & Hc)].
    + unfold nuPairsOf in Hr. rewrite Hr in Hsel. discriminate.
    + exists c. auto.
  - intros w1 w2. rewrite HdevB.
    eexists. split; [now apply selectBJetPair_search|]. intros Hsel.
    destruct (search_cases (bPairDev cfg w1 w2) encPair (-1, -1)
                           (bPairsOf jets bjetIdxs)) as [[Hr _]|(c & Hr & Hc)].
    + unfold bPairsOf in Hr. rewrite Hr in Hsel. discriminate.
    + exists c. auto.
  - intros out Hrun Hne.
    destruct (combinePseudoTop_dilepton cfg lep0 lep1 neutrinos jets bjetIdxs
                ljetIdxs out Hvalid Hrun Hne) as (cN & cB & _ & HN & HB & Hout).
    exists cN, cB. rewrite HdevN, HdevB, !Hplus. auto.
Qed.

(** The statement above at the building blocks of the dilepton example.  Of
    the two neutrino pairs the second, (1, 0), has the strictly smaller
    deviation and is selected; the two b-jet pairs have the same deviation,
    and the first, (0, 1), is selected. *)
Lemma dilepton_pairs_are_first_least_witness :
  let plus := fun a b : LorentzVector =>
    mkLorentzVector (lv_px a + lv_px b)%float (lv_py a + lv_py b)%float
                    (lv_pz a + lv_pz b)%float (lv_E a + lv_E b)%float in
  let mass := @lv_mass Reference.library in
  let lepton1 := lepton1Of Examples.leadingLepton Examples.secondLepton in
  let lepton2 := lepton2Of Examples.leadingLepton Examples.secondLepton in
  let devN := fun c : (nat * GenParticle) * (nat * GenParticle) =>
    (abs (mass (plus (jet_p4 lepton1) (gp_p4 (snd (fst c))))
          - wMass_ Examples.cfg)
     + abs (mass (plus (jet_p4 lepton2) (gp_p4 (snd (snd c))))
            - wMass_ Examples.cfg))%float in
  let w1 := plus (jet_p4 lepton1) (gp_p4 (snd (fst Examples.chosenNuPair))) in
  let w2 := plus (jet_p4 lepton2) (gp_p4 (snd (snd Examples.chosenNuPair))) in
  let devB := fun c : (nat * GenJet) * (nat * GenJet) =>
    (abs (mass (plus w1 (jet_p4 (snd (fst c)))) - tMass_ Examples.cfg)
     + abs (mass (plus w2 (jet_p4 (snd (snd c)))) - tMass_ Examples.cfg))%float in
  Forall (fun i => (i < length (bl_jets Examples.dileptonBlocks))%nat)
         (bl_bjetIdxs Examples.dileptonBlocks)
  /\ @combinePseudoTop Reference.library Examples.cfg
       [Examples.leadingLepton; Examples.secondLepton]
       (bl_neutrinos Examples.dileptonBlocks) (bl_jets Examples.dileptonBlocks)
       (bl_bjetIdxs Examples.dileptonBlocks) (bl_ljetIdxs Examples.dileptonBlocks)
     = Ok Examples.dileptonComb
  /\ length Examples.dileptonComb = 10%nat
  (* the candidates, in the order they are visited *)
  /\ nuPairsOf (bl_neutrinos Examples.dileptonBlocks)
     = [Examples.otherNuPair; Examples.chosenNuPair]
  /\ bPairsOf (bl_jets Examples.dileptonBlocks)
              (bl_bjetIdxs Examples.dileptonBlocks)
     = [Examples.chosenBPair; Examples.otherBPair]
  /\ encPair Examples.chosenNuPair = (1, 0)
  /\ encPair Examples.chosenBPair = (0, 1)
  (* their deviations *)
  /\ (devN Examples.chosenNuPair <? devN Examples.otherNuPair)%float = true
  /\ (devB Examples.chosenBPair =? devB Examples.otherBPair)%float = true
  (* what the searches return *)
  /\ @selectNuPair Reference.library Examples.cfg lepton1 lepton2
       (bl_neutrinos Examples.dileptonBlocks)
     = Ok (devN Examples.chosenNuPair, (1, 0))
  /\ @selectBJetPair Reference.library Examples.cfg w1 w2
       (bl_jets Examples.dileptonBlocks) (bl_bjetIdxs Examples.dileptonBlocks)
     = Ok (devB Examples.chosenBPair, (0, 1))
  (* the selected pairs and the particles built on them *)
  /\ firstLeast devN (nuPairsOf (bl_neutrinos Examples.dileptonBlocks))
                Examples.chosenNuPair
  /\ firstLeast devB (bPairsOf (bl_jets Examples.dileptonBlocks)
                               (bl_bjetIdxs Examples.dileptonBlocks))
                Examples.chosenBPair
  /\ Examples.dileptonComb
     = dileptonParticles (jet_charge Examples.leadingLepton)
         (jet_charge Examples.secondLepton) lepton1 lepton2
         (snd (fst Examples.chosenNuPair)) (snd (snd Examples.chosenNuPair))
         (snd (fst Examples.chosenBPair)) (snd (snd Examples.chosenBPair)).
Proof.
  intros plus mass lepton1 lepton2 devN w1 w2 devB.
  assert (Hvalid : Forall (fun i => (i < length (bl_jets Examples.dileptonBlocks))%nat)
                          (bl_bjetIdxs Examples.dileptonBlocks))
    by (vm_compute; repeat constructor).
  assert (Hrun : @combinePseudoTop Reference.library Examples.cfg
            [Examples.leadingLepton; Examples.secondLepton]
            (bl_neutrinos Examples.dileptonBlocks) (bl_jets Examples.dileptonBlocks)
            (bl_bjetIdxs Examples.dileptonBlocks)
            (bl_ljetIdxs Examples.dileptonBlocks)
          = Ok Examples.dileptonComb) by (vm_compute; reflexivity).
  assert (Hne : Examples.dileptonComb <> []) by discriminate.
  assert (HpairsN : nuPairsOf (bl_neutrinos Examples.dileptonBlocks)
                    = [Examples.otherNuPair; Examples.chosenNuPair])
    by (vm_compute; reflexivity).
  assert (HpairsB : bPairsOf (bl_jets Examples.dileptonBlocks)
                             (bl_bjetIdxs Examples.dileptonBlocks)
                    = [Examples.chosenBPair; Examples.otherBPair])
    by (vm_compute; reflexivity).
  (* the named pairs are the first least ones, by evaluation *)
  assert (HN0 : firstLeast devN (nuPairsOf (bl_neutrinos Examples.dileptonBlocks))
                           Examples.chosenNuPair).
  { split; [vm_compute; reflexivity|].
    exists [Examples.otherNuPair], []. split; [exact HpairsN|].
    split; [|constructor].
    constructor; [vm_compute; reflexivity|constructor]. }
  assert (HB0 : firstLeast devB (bPairsOf (bl_jets Examples.dileptonBlocks)
                                          (bl_bjetIdxs Examples.dileptonBlocks))
                           Examples.chosenBPair).
  { split; [vm_compute; reflexivity|].
    exists [], [Examples.otherBPair]. split; [exact HpairsB|].
    split; [constructor|].
    constructor; [vm_compute; reflexivity|constructor]. }
  (* the pairs of the theorem are therefore the named ones *)
  destruct (dilepton_pairs_are_first_least Reference.library Examples.cfg
              Examples.leadingLepton Examples.secondLepton
              (bl_neutrinos Examples.dileptonBlocks)
              (bl_jets Examples.dileptonBlocks)
              (bl_bjetIdxs Examples.dileptonBlocks)
              (bl_ljetIdxs Examples.dileptonBlocks) Hvalid)
    as (_ & _ & _ & Hbuilt).
  destruct (Hbuilt Examples.dileptonComb Hrun Hne) as (cN & cB & HN & HB & Hout).
  assert (EN : cN = Examples.chosenNuPair) by exact (firstLeast_unique HN HN0).
  subst cN.
  assert (EB : cB = Examples.chosenBPair) by exact (firstLeast_unique HB HB0).
  subst cB.
  split; [exact Hvalid|]. split; [exact Hrun|]. split; [reflexivity|].
  split; [exact HpairsN|]. split; [exact HpairsB|].
  split; [reflexivity|]. split; [reflexivity|].
  split; [vm_compute; reflexivity|]. split; [vm_compute; reflexivity|].
  split; [vm_compute; reflexivity|]. split; [vm_compute; reflexivity|].
  split; [exact HN0|]. split; [exact HB0|]. exact Hout.
Defined.

(* ================================================================== *)
(** ** The particles of the dilepton channel *)

Lemma unlinked_fields g g' :
  unlinked g = unlinked g' ->
  gp_charge g = gp_charge g' /\ gp_p4 g = gp_p4 g' /\ gp_vertex g = gp_vertex g'
  /\ gp_pdgId g = gp_pdgId g' /\ gp_status g = gp_status g'
  /\ gp_integerCharge g = gp_integerCharge g'.
Proof. destruct g, g'. unfold unlinked. simpl. intros H. inversion H. auto 10. Qed.

Lemma map_eq_Forall2 {A B : Type} (f : A -> B) l :
  forall l', map f l = map f l' -> Forall2 (fun a b => f a = f b) l l'.
Proof.
  induction l as [|a l IH]; intros [|b l'] H; simpl in H; try discriminate.
  - constructor.
  - injection H as Hab Hl. constructor; auto.
Qed.

Lemma resolved_In {X : Type} (l : list X) idxs (a : nat * X) :
  In a (resolve l idxs) -> In (snd a) l.
Proof.
  destruct a as [i x]. rewrite resolve_In. intros [_ E]. simpl.
  eapply nth_error_In; eauto.
Qed.

(** X21. The particles of the dilepton channel, with the charges as the code
    reads them, by position in the lepton collection.  When [produce] emits a
    non-empty pseudo-top collection for two dressed leptons (and at least two
    neutrinos), the collection holds, in this order,
    t1 t2 w1 b1 l1 n1 w2 b2 l2 n2, where with q1 and q2 the charges of the
    first and of the second dressed lepton: the tops have status 3, charge
    q*2/3 and code q*6, q1 for t1 and q2 for t2, and the output leptons l1
    and l2 are given the charges q1 and q2; the W have status 3,
    charge q and code q*24; the b quarks have status 1, code q*5, and both
    the charge -q1/3; the leptons have status 1, the four-momentum and the
    code of [lepton1] and [lepton2]; the neutrinos have status 1, charge 0,
    and the four-momentum and code of two neutrinos of the neutrino
    collection.  For charges of one unit these are 2/3 and -2/3, 1 and -1,
    and -1/3 or 1/3. *)
Theorem dilepton_output_attributes :
  forall (L : Library) (cfg : Config) (ev : Event) (out : Output)
         (lep0 lep1 : GenJet),
    produce cfg ev = Ok out ->
    out_leptons out = [lep0; lep1] ->
    (2 <= length (out_neutrinos out))%nat ->
    out_pseudoTop out <> [] ->
    exists t1 t2 w1 b1 l1 n1 w2 b2 l2 n2 nu1 nu2 bJet1 bJet2,
      out_pseudoTop out = [t1; t2; w1; b1; l1; n1; w2; b2; l2; n2]
      /\ In nu1 (out_neutrinos out) /\ In nu2 (out_neutrinos out)
      /\ In bJet1 (out_jets out) /\ In bJet2 (out_jets out)
      /\ jet_charge lep0 * jet_charge lep1 <= 0
      (* tops *)
      /\ gp_status t1 = 3 /\ gp_status t2 = 3
      /\ gp_charge t1 = (Double.of_int (jet_charge lep0 * 2) / 3)%float
      /\ gp_charge t2 = (Double.of_int (jet_charge lep1 * 2) / 3)%float
      /\ gp_pdgId t1 = jet_charge lep0 * 6 /\ gp_pdgId t2 = jet_charge lep1 * 6
      /\ gp_charge l1 = Double.of_int (jet_charge lep0)
      /\ gp_charge l2 = Double.of_int (jet_charge lep1)
      (* W bosons *)
      /\ gp_status w1 = 3 /\ gp_status w2 = 3
      /\ gp_charge w1 = Double.of_int (jet_charge lep0)
      /\ gp_charge w2 = Double.of_int (jet_charge lep1)
      /\ gp_pdgId w1 = jet_charge lep0 * 24 /\ gp_pdgId w2 = jet_charge lep1 * 24
      (* b quarks *)
      /\ gp_status b1 = 1 /\ gp_status b2 = 1
      /\ gp_charge b1 = (Double.of_int (- jet_charge lep0) / 3)%float
      /\ gp_charge b2 = (Double.of_int (- jet_charge lep0) / 3)%float
      /\ gp_pdgId b1 = jet_charge lep0 * 5 /\ gp_pdgId b2 = jet_charge lep1 * 5
      /\ gp_p4 b1 = jet_p4 bJet1 /\ gp_p4 b2 = jet_p4 bJet2
      (* leptons and neutrinos *)
      /\ gp_status l1 = 1 /\ gp_status l2 = 1
      /\ gp_status n1 = 1 /\ gp_status n2 = 1
      /\ gp_p4 l1 = jet_p4 (lepton1Of lep0 lep1)
      /\ gp_p4 l2 = jet_p4 (lepton2Of lep0 lep1)
      /\ gp_pdgId l1 = jet_pdgId (lepton1Of lep0 lep1)
      /\ gp_pdgId l2 = jet_pdgId (lepton2Of lep0 lep1)
      /\ gp_p4 n1 = gp_p4 nu1 /\ gp_p4 n2 = gp_p4 nu2
      /\ gp_pdgId n1 = gp_pdgId nu1 /\ gp_pdgId n2 = gp_pdgId nu2
      /\ gp_charge n1 = 0%float /\ gp_charge n2 = 0%float
      (* the composite momenta *)
      /\ gp_p4 w1 = lv_add (gp_p4 l1) (gp_p4 n1)
      /\ gp_p4 w2 = lv_add (gp_p4 l2) (gp_p4 n2)
      /\ gp_p4 t1 = lv_add (gp_p4 w1) (gp_p4 b1)
      /\ gp_p4 t2 = lv_add (gp_p4 w2) (gp_p4 b2)
      (* unit charges *)
      /\ (jet_charge lep0 = 1 ->
          gp_charge t1 = (2 / 3)%float /\ gp_charge w1 = 1%float
          /\ gp_charge b1 = (- (1 / 3))%float /\ gp_charge b2 = (- (1 / 3))%float)
      /\ (jet_charge lep0 = -1 ->
          gp_charge t1 = (- (2 / 3))%float /\ gp_charge w1 = (-1)%float
          /\ gp_charge b1 = (1 / 3)%float /\ gp_charge b2 = (1 / 3)%float)
      /\ (jet_charge lep1 = 1 ->
          gp_charge t2 = (2 / 3)%float /\ gp_charge w2 = 1%float)
      /\ (jet_charge lep1 = -1 ->
          gp_charge t2 = (- (2 / 3))%float /\ gp_charge w2 = (-1)%float).
Proof.
  intros L cfg ev out lep0 lep1 Hrun Hlep Hnu Hne.
  unfold produce in Hrun. apply bind_Ok_inv in Hrun as (b & Hb & Hrun).
  destruct (pseudoTopOf_returns cfg ev Hb)
    as (comb & pt & Hcomb & _ & Hpt & Hlen & Hmap).
  destruct (buildingBlocks_valid cfg ev Hb) as [Hvalid _].
  rewrite Hpt in Hrun. cbn [bind] in Hrun. inversion Hrun; subst out; clear Hrun.
  simpl in *. rewrite Hlep in Hcomb.
  assert (Hcne : comb <> []) by (intros ->; destruct pt; [congruence|discriminate]).
  destruct (combinePseudoTop_dilepton cfg lep0 lep1 _ _ _ _ _ Hvalid Hcomb Hcne)
    as ([aN bN] & [aB bB] & Hq & HN & HB & ->).
  apply firstLeast_In, orderedPairs_In in HN as (HaN & HbN & _).
  apply firstLeast_In, orderedPairs_In in HB as (HaB & HbB & _).
  apply resolved_In in HaN, HbN, HaB, HbB.
  destruct pt as [|t1 [|t2 [|w1 [|b1 [|l1 [|n1 [|w2 [|b2 [|l2 [|n2 [|]]]]]]]]]]];
    try discriminate.
  apply map_eq_Forall2 in Hmap. unfold dileptonParticles in Hmap.
  repeat match goal with
         | H : Forall2 _ (_ :: _) (_ :: _) |- _ =>
             apply Forall2_cons_iff in H;
             let Hx := fresh "Hx" in destruct H as [Hx H];
             apply unlinked_fields in Hx
         end.
  simpl in *.
  exists t1, t2, w1, b1, l1, n1, w2, b2, l2, n2, (snd aN), (snd bN),
         (snd aB), (snd bB).
  repeat match goal with H : _ /\ _ |- _ => destruct H end.
  repeat (split; [first [reflexivity | assumption | congruence]|]).
  split; [|split; [|split]]; intros Hone; rewrite Hone in *; repeat split;
    match goal with
    | H : ?x = _ |- ?x = _ => rewrite H; reflexivity
    end.
Qed.

(** The statement above at the dilepton example: the leading lepton is the
    positron, so that t1 is a top quark and t2 an antitop. *)
Lemma dilepton_output_attributes_witness :
  @produce Reference.library Examples.cfg Examples.dileptonEvent
  = Ok Examples.dileptonOutput
  /\ out_leptons Examples.dileptonOutput
     = [Examples.leadingLepton; Examples.secondLepton]
  /\ (2 <= length (out_neutrinos Examples.dileptonOutput))%nat
  /\ jet_charge Examples.leadingLepton = 1
  /\ jet_charge Examples.secondLepton = -1
  /\ exists t1 t2 w1 b1 l1 n1 w2 b2 l2 n2,
       out_pseudoTop Examples.dileptonOutput
       = [t1; t2; w1; b1; l1; n1; w2; b2; l2; n2]
       /\ gp_pdgId t1 = 6 /\ gp_pdgId t2 = -6
       /\ gp_charge t1 = (2 / 3)%float /\ gp_charge t2 = (- (2 / 3))%float
       /\ gp_pdgId w1 = 24 /\ gp_pdgId w2 = -24
       /\ gp_pdgId b1 = 5 /\ gp_pdgId b2 = -5
       /\ gp_charge b1 = (- (1 / 3))%float /\ gp_charge b2 = (- (1 / 3))%float.
Proof.
  assert (Hrun : @produce Reference.library Examples.cfg Examples.dileptonEvent
                 = Ok Examples.dileptonOutput) by (vm_compute; reflexivity).
  assert (Hlep : out_leptons Examples.dileptonOutput
                 = [Examples.leadingLepton; Examples.secondLepton])
    by (vm_compute; reflexivity).
  assert (Hnu : (2 <= length (out_neutrinos Examples.dileptonOutput))%nat)
    by (vm_compute; lia).
  assert (Hne : out_pseudoTop Examples.dileptonOutput <> []) by discriminate.
  split; [exact Hrun|]. split; [exact Hlep|]. split; [exact Hnu|].
  split; [reflexivity|]. split; [reflexivity|].
  destruct (dilepton_output_attributes Reference.library Examples.cfg
              Examples.dileptonEvent Examples.dileptonOutput
              Examples.leadingLepton Examples.secondLepton Hrun Hlep Hnu Hne)
    as (t1 & t2 & w1 & b1 & l1 & n1 & w2 & b2 & l2 & n2
        & nu1 & nu2 & bJet1 & bJet2 & H).
  repeat match goal with H : _ /\ _ |- _ => destruct H end.
  exists t1, t2, w1, b1, l1, n1, w2, b2, l2, n2.
  repeat split; try assumption;
    match goal with
    | H : ?x = _ |- ?x = _ => rewrite H; reflexivity
    end.
Defined.

(** C5. The charges q1 and q2 are read by position in the lepton collection,
    while [lepton1], on which the first side is built, is the lepton picked
    by sign.  In the event below the muon leads in pt, so that the dressed
    leptons come as the muon (charge -1) and the positron (charge +1):
    [lepton1] is the positron and q1 is the charge of the muon.  The first
    top is then an antitop of charge -2/3 (code -6) and the first W a W-
    (code -24), built on the momentum of the positron; the first output
    lepton has the momentum and the code -11 of the positron, and the charge
    -1; and both b quarks have the charge +1/3, where the charge of the
    positive lepton gives -1/3.  So the charge of the first top does not
    match the sign of its lepton, and the sign of the b charges is not the
    one of the positive-lepton side. *)
Lemma negative_leading_lepton_sides :
  let lep0 := nth 0 (out_leptons Examples.muonLeadingOutput) Examples.noJet in
  let lep1 := nth 1 (out_leptons Examples.muonLeadingOutput) Examples.noJet in
  let lepton1 := lepton1Of lep0 lep1 in
  let lepton2 := lepton2Of lep0 lep1 in
  let particle i :=
    nth i (out_pseudoTop Examples.muonLeadingOutput)
          (neutrinoCopy Examples.nu_e) in
  let t1 := particle 0%nat in
  let w1 := particle 2%nat in
  let b1 := particle 3%nat in
  let l1 := particle 4%nat in
  let n1 := particle 5%nat in
  let b2 := particle 7%nat in
  let l2 := particle 8%nat in
  finalStates Examples.muonLeadingEvent
  = [Examples.positron; Examples.hardMuon; Examples.nu_e; Examples.nu_mubar;
     Examples.Bminus; Examples.Bplus]
  /\ @produce Reference.library Examples.cfg Examples.muonLeadingEvent
     = Ok Examples.muonLeadingOutput
  /\ out_leptons Examples.muonLeadingOutput = [lep0; lep1]
  /\ length (out_pseudoTop Examples.muonLeadingOutput) = 10%nat
  (* the dressed leptons, and which of them is [lepton1] *)
  /\ (jet_pdgId lep0, jet_charge lep0) = (13, -1)
  /\ (jet_pdgId lep1, jet_charge lep1) = (-11, 1)
  /\ lepton1 = lep1 /\ lepton2 = lep0
  (* the first side is built on the positive lepton ... *)
  /\ gp_p4 l1 = jet_p4 lepton1
  /\ gp_pdgId l1 = -11
  /\ gp_p4 w1 = lv_add (jet_p4 lepton1) (gp_p4 n1)
  /\ gp_p4 t1 = lv_add (gp_p4 w1) (gp_p4 b1)
  (* ... with the charge of the negative one *)
  /\ gp_charge l1 = (-1)%float
  /\ (gp_pdgId w1, gp_charge w1) = (-24, (-1)%float)
  /\ (gp_pdgId t1, gp_charge t1) = (-6, (- (2 / 3))%float)
  /\ gp_charge l2 = 1%float
  (* the b charges against the charge of the positive lepton *)
  /\ gp_charge b1 = (1 / 3)%float
  /\ gp_charge b2 = (1 / 3)%float
  /\ (Double.of_int (- jet_charge lepton1) / 3)%float = (- (1 / 3))%float
  (* codes and charges of the ten particles *)
  /\ map (fun g => (gp_pdgId g, gp_charge g))
         (out_pseudoTop Examples.muonLeadingOutput)
     = [ (-6, (- (2 / 3))%float); (6, (2 / 3)%float); (-24, (-1)%float);
         (-5, (1 / 3)%float); (-11, (-1)%float); (-14, 0%float);
         (24, 1%float); (5, (1 / 3)%float); (13, 1%float); (12, 0%float) ].
Proof. cbv zeta. repeat split; vm_compute; reflexivity. Qed.

(* ================================================================== *)
(** ** The pt test on the inputs of the clusterings *)

(** C9 (as amended).  A particle whose pt is NaN, or is not above zero, is in
    none of the three parts of the clustering inputs: not in the input of the
    lepton clustering, not among the final-state entries of the input of the
    jet clustering, and, for a b hadron, not among the ghosts.  The two loops
    that read the collections by index return.  (A pt of plus infinity is
    neither NaN nor at most zero: such a particle stays.) *)
Theorem bad_pt_is_filtered :
  forall (ev : Event),
  exists lepInputs ghosts,
    fjLepInputs (finalStates ev) (leptonIdxs ev) = Ok lepInputs
    /\ fjJetInputsGhosts (genParticles ev) (bHadronIdxs ev) = Ok ghosts
    /\ (forall i p,
          nth_error (finalStates ev) i = Some p ->
          Double.isnan (cand_pt p) = true \/ (cand_pt p <=? 0)%float = true ->
          ~ In i (map user_index lepInputs))
    /\ (forall lepDauIdxs i p,
          nth_error (finalStates ev) i = Some p ->
          Double.isnan (cand_pt p) = true \/ (cand_pt p <=? 0)%float = true ->
          ~ In i (map user_index
                    (fjJetInputsFinal lepDauIdxs 0 (finalStates ev))))
    /\ (forall i g,
          nth_error (genParticles ev) i = Some g ->
          Double.isnan (cand_pt g) = true \/ (cand_pt g <=? 0)%float = true ->
          ~ In i (map user_index ghosts)).
Proof.
  intros ev.
  destruct (fjLepInputs_spec (leptonIdxs_valid ev)) as (lepInputs & Hlep & Hin & _).
  destruct (fjJetInputsGhosts_spec (bHadronIdxs_valid ev)) as (ghosts & Hgh & Hgin).
  assert (Hbad : forall p, Double.isnan (cand_pt p) = true
                           \/ (cand_pt p <=? 0)%float = true -> badPt p = true).
  { intros p [H|H]; unfold badPt; rewrite H; auto using orb_true_r. }
  exists lepInputs, ghosts. split; [exact Hlep|]. split; [exact Hgh|].
  split; [|split].
  - intros i p Hp Hpt Hi. apply in_map_iff in Hi as (c & <- & Hc).
    destruct (Hin c Hc) as (_ & p' & Hp' & Hgood & _).
    rewrite Hp in Hp'. injection Hp' as <-. rewrite (Hbad p Hpt) in Hgood.
    discriminate.
  - intros lepDauIdxs i p Hp Hpt Hi. apply in_map_iff in Hi as (c & <- & Hc).
    apply fjJetInputsFinal_In in Hc as (_ & _ & p' & Hp' & _ & Hgood & _).
    rewrite Nat.sub_0_r, Hp in Hp'. injection Hp' as <-.
    rewrite (Hbad p Hpt) in Hgood. discriminate.
  - intros i g Hg Hpt Hi. apply in_map_iff in Hi as (c & <- & Hc).
    destruct (Hgin c Hc) as (_ & g' & Hg' & Hgood & _).
    rewrite Hg in Hg'. injection Hg' as <-. rewrite (Hbad g Hpt) in Hgood.
    discriminate.
Qed.

(** The statement above at an event with a positron of NaN pt (index 0), one
    at rest (index 1) and a b hadron of NaN pt (index 3): none of the three
    indices is in an input. *)
Lemma bad_pt_is_filtered_witness :
  Double.isnan (cand_pt Examples.nanPositron) = true
  /\ (cand_pt Examples.restPositron <=? 0)%float = true
  /\ Double.isnan (cand_pt Examples.nanB) = true
  /\ exists lepInputs ghosts,
       fjLepInputs (finalStates Examples.badPtEvent)
                   (leptonIdxs Examples.badPtEvent) = Ok lepInputs
       /\ fjJetInputsGhosts (genParticles Examples.badPtEvent)
                            (bHadronIdxs Examples.badPtEvent) = Ok ghosts
       /\ ~ In 0%nat (map user_index lepInputs)
       /\ ~ In 1%nat (map user_index lepInputs)
       /\ ~ In 0%nat (map user_index
                        (fjJetInputsFinal [] 0 (finalStates Examples.badPtEvent)))
       /\ ~ In 3%nat (map user_index ghosts).
Proof.
  assert (H0 : Double.isnan (cand_pt Examples.nanPositron) = true)
    by (vm_compute; reflexivity).
  assert (H1 : (cand_pt Examples.restPositron <=? 0)%float = true)
    by (vm_compute; reflexivity).
  assert (H3 : Double.isnan (cand_pt Examples.nanB) = true)
    by (vm_compute; reflexivity).
  split; [exact H0|]. split; [exact H1|]. split; [exact H3|].
  destruct (bad_pt_is_filtered Examples.badPtEvent)
    as (lepInputs & ghosts & Hlep & Hgh & Hl & Hj & Hg).
  exists lepInputs, ghosts. split; [exact Hlep|]. split; [exact Hgh|].
  split; [|split; [|split]].
  - exact (Hl 0%nat Examples.nanPositron eq_refl (or_introl H0)).
  - exact (Hl 1%nat Examples.restPositron eq_refl (or_intror H1)).
  - exact (Hj [] 0%nat Examples.nanPositron eq_refl (or_introl H0)).
  - exact (Hg 3%nat Examples.nanB eq_refl (or_introl H3)).
Defined.

(** Against C9 as stated: a pt of plus infinity is not finite, and the
    particle is kept in all three parts of the inputs. *)
Lemma infinite_pt_is_kept :
  PrimFloat.is_finite (cand_pt Examples.infinitePositron) = false
  /\ PrimFloat.is_finite (cand_pt Examples.infiniteB) = false
  /\ nth_error (finalStates Examples.infinitePtEvent) 0
     = Some Examples.infinitePositron
  /\ nth_error (genParticles Examples.infinitePtEvent) 1 = Some Examples.infiniteB
  /\ fjLepInputs (finalStates Examples.infinitePtEvent)
                 (leptonIdxs Examples.infinitePtEvent)
     = Ok [toPseudoJet Examples.infinitePositron 0]
  /\ fjJetInputsFinal [] 0 (finalStates Examples.infinitePtEvent)
     = [toPseudoJet Examples.infinitePositron 0]
  /\ bHadronIdxs Examples.infinitePtEvent = [1%nat]
  /\ option_map (map user_index)
       (match fjJetInputsGhosts (genParticles Examples.infinitePtEvent)
                                (bHadronIdxs Examples.infinitePtEvent) with
        | Ok ghosts => Some ghosts
        | Raise _ => None
        end)
     = Some [1%nat].
Proof. repeat split; vm_compute; reflexivity. Qed.

(* ================================================================== *)
(** ** Dressed leptons and jets share no particle *)

Section DisjointFacts.

Context {L : Library}.
Variable cfg : Config.

Lemma clusterIdxs_inputs R inputs ptmin :
  constituentsAreInputs ->
  incl (clusterIdxs (fjCluster R inputs ptmin)) (map user_index inputs).
Proof.
  intros Hcontract i Hi. unfold clusterIdxs in Hi.
  apply in_map_iff in Hi as (c & <- & Hc).
  apply in_flat_map in Hc as (jet & Hjet & Hc).
  apply in_map. eapply Hcontract; eauto.
Qed.

(** What is recorded as consumed was an input of the lepton clustering:
    a stable particle of the final state. *)
Lemma consumed_is_stable ev b i :
  constituentsAreInputs ->
  buildingBlocks cfg ev = Ok b ->
  In i (bl_lepDauIdxs b) ->
  exists p, nth_error (finalStates ev) i = Some p /\ cand_status p = 1.
Proof.
  intros Hcontract Hb Hi.
  destruct (buildingBlocks_inv cfg ev b Hb)
    as (lepInputs & ghosts & HlepIn & Hlep & _).
  unfold buildLeptons in Hlep.
  apply buildLeptons_fold in Hlep as (D & K & HD & HDi & _).
  simpl in HD. subst D.
  apply HDi, (clusterIdxs_inputs _ _ _ Hcontract) in Hi.
  apply in_map_iff in Hi as (c & <- & Hc).
  destruct (fjLepInputs_spec (leptonIdxs_valid ev)) as (inputs' & Heq & Hin & _).
  rewrite HlepIn in Heq. injection Heq as <-.
  destruct (Hin c Hc) as (Hidx & _). now apply leptonIdxs_spec.
Qed.

End DisjointFacts.

(** C7.  The two collections are taken to share their index space, and the
    clustering to hand back constituents it was given, in disjoint clusters.
    Then no index is a constituent of a dressed lepton and of a jet: every
    index recorded as consumed by an accepted lepton cluster is left out of
    the input of the jet clustering, final-state entries and ghosts alike,
    hence out of the constituents of every jet, and the constituents of the
    dressed leptons are among the recorded indices.  No index is recorded
    twice: a particle is consumed by one cluster at most.  That the recorded
    indices are left out of the final-state entries of the jet input, and
    that they hold the constituents of the dressed leptons, needs none of the
    assumptions. *)
Theorem consumed_indices_stay_out_of_jets :
  forall (L : Library) (cfg : Config) (ev : Event) (b : Blocks),
    buildingBlocks cfg ev = Ok b ->
    (constituentsAreInputs -> sharedIndexSpace ev ->
     forall i, In i (flat_map jet_constituents (bl_leptons b)) ->
               ~ In i (flat_map jet_constituents (bl_jets b)))
    /\ (forall i, In i (bl_lepDauIdxs b) ->
                  ~ In i (map user_index
                            (fjJetInputsFinal (bl_lepDauIdxs b) 0 (finalStates ev))))
    /\ incl (flat_map jet_constituents (bl_leptons b)) (bl_lepDauIdxs b)
    /\ (constituentsAreInputs -> sharedIndexSpace ev ->
        forall i, In i (bl_lepDauIdxs b) ->
                  ~ In i (map user_index (bl_jetInputs b))
                  /\ ~ In i (flat_map jet_constituents (bl_jets b)))
    /\ (clustersAreDisjoint -> NoDup (bl_lepDauIdxs b)).
Proof.
  intros L cfg ev b Hb.
  destruct (buildingBlocks_inv cfg ev b Hb)
    as (lepInputs & ghosts & HlepIn & Hlep & Hgh & HjetIn & _ & Hjets).
  assert (Hfinal : forall i, In i (bl_lepDauIdxs b) ->
             ~ In i (map user_index
                       (fjJetInputsFinal (bl_lepDauIdxs b) 0 (finalStates ev)))).
  { intros i Hi Hin. apply in_map_iff in Hin as (c & <- & Hc).
    apply fjJetInputsFinal_In in Hc as (_ & Hset & _).
    apply inSet_In in Hi. congruence. }
  pose proof Hlep as Hfold. unfold buildLeptons in Hfold.
  apply buildLeptons_fold in Hfold as (D & K & HD & HDi & HDn & HK & HKi).
  simpl in HD, HK. subst D.
  assert (Hincl : incl (flat_map jet_constituents (bl_leptons b))
                       (bl_lepDauIdxs b)) by now rewrite HK.
  assert (Hconsumed : constituentsAreInputs -> sharedIndexSpace ev ->
            forall i, In i (bl_lepDauIdxs b) ->
                      ~ In i (map user_index (bl_jetInputs b))
                      /\ ~ In i (flat_map jet_constituents (bl_jets b))).
  { intros Hcontract Hshared i Hi.
    assert (Hout : ~ In i (map user_index (bl_jetInputs b))).
    { rewrite HjetIn, map_app, in_app_iff. intros [Hin|Hin].
      - exact (Hfinal i Hi Hin).
      - apply in_map_iff in Hin as (c & <- & Hc).
        destruct (consumed_is_stable cfg ev b _ Hcontract Hb Hi)
          as (p & Hp & Hstable).
        destruct (fjJetInputsGhosts_spec (bHadronIdxs_valid ev))
          as (ghosts' & Heq & Hgin).
        rewrite Hgh in Heq. injection Heq as <-.
        destruct (Hgin c Hc) as (Hidx & _).
        apply bHadronIdxs_spec in Hidx as (g & Hg & Hunstable & _).
        apply Hunstable. eapply Hshared; eauto. }
    split; [exact Hout|]. intros Hin. apply Hout.
    rewrite Hjets in Hin. apply buildJets_constituents in Hin.
    now apply (clusterIdxs_inputs _ _ _ Hcontract) in Hin. }
  split; [|split; [exact Hfinal|split; [exact Hincl|split; [exact Hconsumed|]]]].
  - intros Hcontract Hshared i Hi.
    exact (proj2 (Hconsumed Hcontract Hshared i (Hincl i Hi))).
  - intros Hdisjoint. apply HDn. apply Hdisjoint.
    destruct (fjLepInputs_spec (leptonIdxs_valid ev)) as (inputs' & Heq & _ & Hnd).
    rewrite HlepIn in Heq. injection Heq as <-.
    apply Hnd. apply collectLeptonIdxs_NoDup.
Qed.

Lemma same_collection_shares_index_space ps : sharedIndexSpace (mkEvent ps ps).
Proof. intros i p g Hp Hg. simpl in *. congruence. Qed.

(** The statement above at the dilepton example, whose two handles read the
    same collection: the positron and the muon, indices 0 and 1, make the
    dressed leptons, and the two jets are made of the ghosts, indices 4
    and 5. *)
Lemma consumed_indices_stay_out_of_jets_witness :
  @buildingBlocks Reference.library Examples.cfg Examples.dileptonEvent
  = Ok Examples.dileptonBlocks
  /\ sharedIndexSpace Examples.dileptonEvent
  /\ bl_lepDauIdxs Examples.dileptonBlocks = [0; 1]%nat
  /\ map jet_constituents (bl_leptons Examples.dileptonBlocks) = [[0]; [1]]%nat
  /\ map jet_constituents (bl_jets Examples.dileptonBlocks) = [[4]; [5]]%nat
  /\ (forall i, In i (flat_map jet_constituents
                        (bl_leptons Examples.dileptonBlocks)) ->
                ~ In i (flat_map jet_constituents
                          (bl_jets Examples.dileptonBlocks)))
  /\ (forall i, In i (bl_lepDauIdxs Examples.dileptonBlocks) ->
                ~ In i (map user_index (bl_jetInputs Examples.dileptonBlocks))
                /\ ~ In i (flat_map jet_constituents
                             (bl_jets Examples.dileptonBlocks)))
  /\ NoDup (bl_lepDauIdxs Examples.dileptonBlocks).
Proof.
  assert (Hb : @buildingBlocks Reference.library Examples.cfg Examples.dileptonEvent
               = Ok Examples.dileptonBlocks) by (vm_compute; reflexivity).
  assert (Hshared : sharedIndexSpace Examples.dileptonEvent)
    by exact (same_collection_shares_index_space Examples.dileptonParticlesList).
  split; [exact Hb|]. split; [exact Hshared|].
  split; [reflexivity|]. split; [reflexivity|]. split; [reflexivity|].
  destruct (consumed_indices_stay_out_of_jets Reference.library Examples.cfg
              Examples.dileptonEvent Examples.dileptonBlocks Hb)
    as (Hboth & _ & _ & Hjets & Hnodup).
  split; [|split].
  - exact (Hboth ReferenceFacts.reference_constituentsAreInputs Hshared).
  - exact (Hjets ReferenceFacts.reference_constituentsAreInputs Hshared).
  - exact (Hnodup ReferenceFacts.reference_clustersAreDisjoint).
Defined.

(** The assumption on the index space is used: the ghosts carry indices into
    [genParticles], and [lepDauIdxs] guards the loop over the final state
    only.  On two collections that do not share their indices, a positron at
    index 0 of the final state and a b hadron at index 0 of [genParticles],
    index 0 is recorded as consumed by the dressed lepton and is the index of
    the ghost in the input of the jet clustering. *)
Lemma ghost_index_collides :
  @buildingBlocks Reference.library Examples.cfg Examples.misalignedEvent
  = Ok Examples.misalignedBlocks
  /\ bl_lepDauIdxs Examples.misalignedBlocks = [0%nat]
  /\ map user_index (bl_jetInputs Examples.misalignedBlocks) = [0%nat]
  /\ map jet_constituents (bl_leptons Examples.misalignedBlocks) = [[0%nat]]
  /\ map jet_constituents (bl_jets Examples.misalignedBlocks) = [[0%nat]].
Proof. repeat split; vm_compute; reflexivity. Qed.

(* ================================================================== *)
(** ** The order of the neutrinos *)

Lemma StronglySorted_weaken {A : Type} (R R' : A -> A -> Prop) l :
  (forall a b, In a l -> In b l -> R a b -> R' a b) ->
  StronglySorted R l -> StronglySorted R' l.
Proof.
  intros Himp Hs. induction Hs as [|a l Hl IH Ha]; constructor.
  - apply IH. intros x y Hx Hy. apply Himp; now right.
  - rewrite Forall_forall in Ha |- *. intros x Hx.
    apply Himp; [now left | now right | now apply Ha].
Qed.

Section NeutrinoOrder.

Context {L : Library}.

(** Away from NaN, [GreaterByPt] is a strict weak ordering. *)
Lemma GreaterByPt_strictWeakOrder l :
  (forall nu, In nu l -> Double.isnan (gp_pt nu) = false) ->
  strictWeakOrderOn GreaterByPt l.
Proof.
  intros Hnum. unfold GreaterByPt, Double.gtb. split; [|split].
  - intros a _. apply DoubleOrder.ltb_irrefl.
  - intros a b c _ _ _ Hab Hbc. eapply DoubleOrder.ltb_trans; eauto.
  - intros a b c Ha Hb Hc Hab Hba Hbc Hcb.
    apply DoubleOrder.not_ltb_leb in Hab, Hba, Hbc, Hcb; auto.
    split; apply DoubleOrder.leb_not_ltb; eapply DoubleOrder.leb_trans; eauto.
Qed.

Lemma sortedNeutrinos_sorted ev :
  sortContract ->
  (forall nu, In nu (collectNeutrinos (finalStates ev)) ->
              Double.isnan (gp_pt nu) = false) ->
  Permutation (sortedNeutrinos ev) (collectNeutrinos (finalStates ev))
  /\ StronglySorted (fun a b => (gp_pt b <=? gp_pt a)%float = true)
                    (sortedNeutrinos ev).
Proof.
  intros Hsort Hnum. unfold sortedNeutrinos.
  destruct (Hsort GreaterByPt (collectNeutrinos (finalStates ev)))
    as [Hperm Hsorted].
  split; [exact Hperm|].
  eapply StronglySorted_weaken;
    [|apply Hsorted; now apply GreaterByPt_strictWeakOrder].
  intros a b Ha Hb Hcmp. unfold GreaterByPt, Double.gtb in Hcmp.
  apply DoubleOrder.not_ltb_leb; auto; apply Hnum; eapply Permutation_in; eauto.
Qed.

End NeutrinoOrder.

(** C8 (as amended).  With a [std::sort] that meets its contract, and on an
    event none of whose neutrinos has a NaN pt, the neutrino collection
    [produce] emits is the collection as the sort left it, holds the
    neutrinos of the final state, and is in order of non-increasing pt:
    every entry has a pt at least the pt of each entry behind it. *)
Theorem neutrinos_sorted_by_pt :
  forall (L : Library) (cfg : Config) (ev : Event) (out : Output),
    sortContract ->
    (forall nu, In nu (collectNeutrinos (finalStates ev)) ->
                Double.isnan (gp_pt nu) = false) ->
    produce cfg ev = Ok out ->
    out_neutrinos out = sortedNeutrinos ev
    /\ Permutation (out_neutrinos out) (collectNeutrinos (finalStates ev))
    /\ StronglySorted (fun a b => (gp_pt b <=? gp_pt a)%float = true)
                      (out_neutrinos out).
Proof.
  intros L cfg ev out Hsort Hnum Hrun.
  unfold produce in Hrun. apply bind_Ok_inv in Hrun as (b & Hb & Hrun).
  apply bind_Ok_inv in Hrun as (pt & _ & Hrun).
  inversion Hrun; subst out; clear Hrun. simpl.
  destruct (buildingBlocks_inv cfg ev b Hb) as (_ & _ & _ & _ & _ & _ & -> & _).
  split; [reflexivity|]. now apply sortedNeutrinos_sorted.
Qed.

(** The statement above at the dilepton example. *)
Lemma neutrinos_sorted_by_pt_witness :
  @sortContract Reference.library
  /\ (forall nu,
        In nu (collectNeutrinos (finalStates Examples.dileptonEvent)) ->
        Double.isnan (@gp_pt Reference.library nu) = false)
  /\ @produce Reference.library Examples.cfg Examples.dileptonEvent
     = Ok Examples.dileptonOutput
  /\ length (out_neutrinos Examples.dileptonOutput) = 2%nat
  /\ StronglySorted
       (fun a b => (@gp_pt Reference.library b <=? @gp_pt Reference.library a)%float
                   = true)
       (out_neutrinos Examples.dileptonOutput).
Proof.
  assert (Hnum : forall nu,
             In nu (collectNeutrinos (finalStates Examples.dileptonEvent)) ->
             Double.isnan (@gp_pt Reference.library nu) = false).
  { intros nu [<-|[<-|[]]]; vm_compute; reflexivity. }
  assert (Hrun : @produce Reference.library Examples.cfg Examples.dileptonEvent
                 = Ok Examples.dileptonOutput) by (vm_compute; reflexivity).
  split; [exact ReferenceFacts.reference_sortContract|].
  split; [exact Hnum|]. split; [exact Hrun|]. split; [reflexivity|].
  exact (proj2 (proj2 (neutrinos_sorted_by_pt Reference.library Examples.cfg
                         Examples.dileptonEvent Examples.dileptonOutput
                         ReferenceFacts.reference_sortContract Hnum Hrun))).
Defined.

(** Against C8 as stated: with a neutrino whose pt is NaN next to one of pt
    26.9, the emitted collection is not in order of non-increasing pt, and
    would not be in the other arrangement either; and two neutrinos of equal
    pt are emitted with equal pt, so that the order is not strictly
    decreasing. *)
Lemma nan_neutrino_breaks_order :
  @produce Reference.library Examples.cfg Examples.nanNeutrinoEvent
  = Ok Examples.nanNeutrinoOutput
  /\ length (out_neutrinos Examples.nanNeutrinoOutput) = 2%nat
  /\ Examples.nonIncreasing
       (map (@gp_pt Reference.library)
            (out_neutrinos Examples.nanNeutrinoOutput)) = false
  /\ Examples.nonIncreasing
       (map (@gp_pt Reference.library)
            (rev (out_neutrinos Examples.nanNeutrinoOutput))) = false
  /\ @produce Reference.library Examples.cfg Examples.twinNeutrinoEvent
     = Ok Examples.twinNeutrinoOutput
  /\ map (@gp_pt Reference.library) (out_neutrinos Examples.twinNeutrinoOutput)
     = [(sqrt 1000)%float; (sqrt 1000)%float].
Proof. repeat split; vm_compute; reflexivity. Qed.

(* ================================================================== *)
(** * Further properties of the code *)

(** ** Decay chains: [getLast] *)

(** Induction on a particle, with the property at hand for its mothers and
    its daughters. *)
Lemma Candidate_links_ind (P : Candidate -> Prop) :
  (forall p, Forall P (cand_mothers p) -> Forall P (cand_daughters p) -> P p) ->
  forall p, P p.
Proof.
  intros step. fix IH 1. intros [id st q p4 v pt pp ms ds].
  apply step; simpl.
  - induction ms as [|m ms IHms]; constructor; [apply IH | exact IHms].
  - induction ds as [|d ds IHds]; constructor; [apply IH | exact IHds].
Qed.

Lemma getLast_unfold p : getLast p = getLastFrom p (cand_daughters p).
Proof.
  destruct p as [id st q p4 v pt pp ms ds].
  set (p := mkCandidate id st q p4 v pt pp ms ds).
  change (cand_daughters p) with ds.
  change (getLast p)
    with ((fix loop (ds : list Candidate) : Candidate :=
             match ds with
             | [] => p
             | dau :: rest =>
                 if cand_pdgId p =? cand_pdgId dau then getLast dau
                 else loop rest
             end) ds).
  clearbody p. induction ds as [|d ds IH]; simpl; auto.
  destruct (cand_pdgId p =? cand_pdgId d); auto.
Qed.

Lemma getLastFrom_cases p ds :
  (getLastFrom p ds = p
   /\ Forall (fun d => cand_pdgId d <> cand_pdgId p) ds)
  \/ (exists pre d post,
        ds = pre ++ d :: post
        /\ Forall (fun d' => cand_pdgId d' <> cand_pdgId p) pre
        /\ cand_pdgId d = cand_pdgId p
        /\ getLastFrom p ds = getLast d).
Proof.
  induction ds as [|d ds IH]; simpl.
  - left. split; auto.
  - destruct (Z.eqb_spec (cand_pdgId p) (cand_pdgId d)) as [E|E].
    + right. exists [], d, ds. repeat split; auto.
    + destruct IH as [[H1 H2]|(pre & d' & post & -> & Hpre & Hd & Hg)].
      * left. split; auto.
      * right. exists (d :: pre), d', post. repeat split; auto.
Qed.

Lemma getLast_chain p : lastOfChain p (getLast p).
Proof.
  induction p as [p _ IH] using Candidate_links_ind.
  rewrite getLast_unfold.
  destruct (getLastFrom_cases p (cand_daughters p))
    as [[H1 H2]|(pre & d & post & E & Hpre & Hd & Hg)].
  - rewrite H1. now apply LC_stop.
  - rewrite Hg. eapply LC_follow; eauto.
    rewrite Forall_forall in IH. apply IH. rewrite E. apply in_elt.
Qed.

Lemma first_split_unique {A : Type} (P : A -> Prop) pre a post pre' a' post' :
  pre ++ a :: post = pre' ++ a' :: post' ->
  Forall (fun x => ~ P x) pre -> P a ->
  Forall (fun x => ~ P x) pre' -> P a' ->
  pre = pre' /\ a = a' /\ post = post'.
Proof.
  revert pre'. induction pre as [|x pre IH]; intros [|x' pre'] E H1 Ha H2 Ha';
    simpl in E; injection E as -> E.
  - auto.
  - inversion H2; subst. contradiction.
  - inversion H1; subst. contradiction.
  - inversion H1; inversion H2; subst.
    destruct (IH pre' E) as (-> & -> & ->); auto.
Qed.

Lemma lastOfChain_unique p q : lastOfChain p q -> q = getLast p.
Proof.
  intros H. induction H as [p Hp|p pre d post q E Hpre Hd _ IH].
  - rewrite getLast_unfold.
    destruct (getLastFrom_cases p (cand_daughters p))
      as [[H1 _]|(pre & d & post & E & _ & Hd & _)]; auto.
    rewrite Forall_forall in Hp. exfalso. apply (Hp d); auto.
    rewrite E. apply in_elt.
  - rewrite IH, (getLast_unfold p).
    destruct (getLastFrom_cases p (cand_daughters p))
      as [[_ H2]|(pre' & d' & post' & E' & Hpre' & Hd' & ->)].
    + rewrite Forall_forall in H2. exfalso. apply (H2 d); auto.
      rewrite E. apply in_elt.
    + rewrite E in E'.
      destruct (first_split_unique (fun x => cand_pdgId x = cand_pdgId p)
                  _ _ _ _ _ _ E' Hpre Hd Hpre' Hd') as (_ & -> & _).
      reflexivity.
Qed.

(** X1. [getLast] returns the end of the chain that starts at the particle and
    goes, at each step, to the first daughter that carries the species code
    of the particle it leaves; and it returns nothing else. *)
Theorem getLast_ends_first_chain :
  forall p q : Candidate, getLast p = q <-> lastOfChain p q.
Proof.
  intros p q. split.
  - intros <-. apply getLast_chain.
  - intros H. symmetry. now apply lastOfChain_unique.
Qed.

Lemma lastOfChain_code p q :
  lastOfChain p q ->
  cand_pdgId q = cand_pdgId p
  /\ Forall (fun d => cand_pdgId d <> cand_pdgId q) (cand_daughters q).
Proof.
  induction 1 as [p Hp|p pre d post q E Hpre Hd _ [IH1 IH2]]; auto.
  split; auto. congruence.
Qed.

(** X2. The particle [getLast] returns carries the species code of the one it
    was called on and has no daughter of that code; calling [getLast] on it
    again returns it unchanged; and [getLast] returns the particle it was
    called on exactly when none of its daughters carries its code. *)
Theorem getLast_keeps_code_and_is_last :
  forall p : Candidate,
    cand_pdgId (getLast p) = cand_pdgId p
    /\ Forall (fun d => cand_pdgId d <> cand_pdgId p)
              (cand_daughters (getLast p))
    /\ getLast (getLast p) = getLast p
    /\ (getLast p = p <->
        Forall (fun d => cand_pdgId d <> cand_pdgId p) (cand_daughters p)).
Proof.
  intros p.
  destruct (lastOfChain_code _ _ (getLast_chain p)) as [Hc Hl].
  split; [exact Hc|]. split; [now rewrite <- Hc|].
  split.
  - symmetry. apply lastOfChain_unique. now apply LC_stop.
  - split.
    + intros E. rewrite E in Hl. exact Hl.
    + intros H. symmetry. apply lastOfChain_unique. now apply LC_stop.
Qed.

(* ================================================================== *)
(** ** Ancestry: [isFromHadron] *)

Lemma isFromHadron_unfold p :
  isFromHadron p = existsb viaMother (cand_mothers p).
Proof.
  destruct p as [id st q p4 v pt pp ms ds]. simpl.
  induction ms as [|m ms IH]; simpl; auto.
  unfold viaMother at 1.
  destruct (cand_mothers m); simpl; auto.
  destruct (Z.abs (cand_pdgId m) >? 100); simpl; auto.
  destruct (isFromHadron m); simpl; auto.
Qed.

Lemma isFromHadron_sound p : isFromHadron p = true -> hadronAncestor p.
Proof.
  induction p as [p IH _] using Candidate_links_ind.
  rewrite isFromHadron_unfold. intros H.
  apply existsb_exists in H as (m & Hin & Hm).
  unfold viaMother in Hm.
  destruct (cand_mothers m) as [|m0 ms0] eqn:Em; [discriminate|].
  apply orb_true_iff in Hm as [Hm|Hm].
  - apply HA_mother with m; auto; [congruence | lia].
  - apply HA_further with m; auto; [congruence|].
    rewrite Forall_forall in IH. now apply IH.
Qed.

Lemma isFromHadron_complete p : hadronAncestor p -> isFromHadron p = true.
Proof.
  induction 1 as [p m Hin Hm Hid|p m Hin Hm _ IH];
    rewrite isFromHadron_unfold; apply existsb_exists; exists m; split; auto;
    unfold viaMother; destruct (cand_mothers m); try congruence;
    apply orb_true_iff; [left; lia | right; exact IH].
Qed.

(** X3. [isFromHadron] holds exactly of the particles that have, on a line of
    mothers, an ancestor with an absolute species code above 100, where no
    mother on the line, that ancestor included, is without mothers of its own
    (an incident beam particle is passed over, hadron or not, and the line is
    not followed through it).  In particular it fails on a particle all of
    whose mothers are beam particles. *)
Theorem isFromHadron_is_hadron_ancestry :
  (forall p : Candidate, isFromHadron p = true <-> hadronAncestor p)
  /\ (forall p : Candidate,
        Forall (fun m => cand_mothers m = []) (cand_mothers p) ->
        isFromHadron p = false).
Proof.
  split.
  - intros p. split; [apply isFromHadron_sound | apply isFromHadron_complete].
  - intros p H. rewrite isFromHadron_unfold.
    induction H as [|m ms Hm _ IH]; simpl; auto.
    unfold viaMother at 1. now rewrite Hm.
Qed.

(* ================================================================== *)
(** ** The passes over the two collections *)

Lemma classifyStable_cases p :
  (classifyStable p = ForDressing <->
   promptStable p
   /\ (Z.abs (cand_pdgId p) = 11 \/ Z.abs (cand_pdgId p) = 13
       \/ Z.abs (cand_pdgId p) = 22))
  /\ (classifyStable p = IsNeutrino <->
      promptStable p
      /\ (Z.abs (cand_pdgId p) = 12 \/ Z.abs (cand_pdgId p) = 14
          \/ Z.abs (cand_pdgId p) = 16)).
Proof.
  unfold classifyStable, promptStable.
  destruct (Z.eqb_spec (cand_status p) 1) as [Hs|Hs]; simpl.
  2: { split; split; try discriminate; intros [[H _] _]; contradiction. }
  destruct (cand_mothers p) as [|m ms].
  { split; split; try discriminate; intros [(_ & (? & ? & ? & _) & _) _];
      discriminate. }
  destruct (Z.eqb_spec (cand_status m) 4) as [Hm|Hm].
  { split; split; try discriminate;
      intros [(_ & (m' & ms' & E & H4) & _) _]; injection E as <- <-;
      contradiction. }
  destruct (isFromHadron p).
  { split; split; try discriminate; intros [(_ & _ & ?) _]; discriminate. }
  assert (Hp : cand_status p = 1
               /\ (exists m' ms', m :: ms = m' :: ms' /\ cand_status m' <> 4)
               /\ false = false) by (repeat split; eauto).
  destruct (Z.eqb_spec (Z.abs (cand_pdgId p)) 11);
    destruct (Z.eqb_spec (Z.abs (cand_pdgId p)) 13);
    destruct (Z.eqb_spec (Z.abs (cand_pdgId p)) 22);
    destruct (Z.eqb_spec (Z.abs (cand_pdgId p)) 12);
    destruct (Z.eqb_spec (Z.abs (cand_pdgId p)) 14);
    destruct (Z.eqb_spec (Z.abs (cand_pdgId p)) 16);
    try lia; simpl;
    (split;
     (split;
      [ intros H; first [discriminate H | split; [exact Hp | lia]]
      | intros [_ H]; first [reflexivity | lia] ])).
Qed.

Lemma collectLeptonIdxs_complete k ps i p :
  nth_error ps i = Some p -> classifyStable p = ForDressing ->
  In (k + i)%nat (collectLeptonIdxs k ps).
Proof.
  revert k i. induction ps as [|q ps IH]; intros k [|i] Hn Hc; simpl in *;
    try discriminate.
  - injection Hn as ->. rewrite Hc, Nat.add_0_r. now left.
  - replace (k + S i)%nat with (S k + i)%nat by lia.
    destruct (classifyStable q); [|right|]; now apply IH.
Qed.

Lemma collectLeptonIdxs_sorted k ps : StronglySorted lt (collectLeptonIdxs k ps).
Proof.
  revert k. induction ps as [|p ps IH]; intros k; simpl; [constructor|].
  destruct (classifyStable p); auto. constructor; auto.
  apply Forall_forall. intros i Hi.
  apply collectLeptonIdxs_In in Hi as [Hle _]. lia.
Qed.

(** X4. [leptonIdxs] holds exactly the indices of the particles of the final
    state that are stable (status 1), have a mother, the first of their
    mothers not of status 4, are not from a hadron, and are an electron, a
    muon or a photon (absolute code 11, 13 or 22); it holds them in
    increasing order, each once. *)
Theorem leptonIdxs_are_the_prompt_leptons_and_photons :
  forall ev : Event,
    (forall i, In i (leptonIdxs ev) <->
       exists p, nth_error (finalStates ev) i = Some p
                 /\ promptStable p
                 /\ (Z.abs (cand_pdgId p) = 11 \/ Z.abs (cand_pdgId p) = 13
                     \/ Z.abs (cand_pdgId p) = 22))
    /\ StronglySorted lt (leptonIdxs ev).
Proof.
  intros ev. split; [|apply collectLeptonIdxs_sorted].
  intros i. split.
  - intros Hin. apply collectLeptonIdxs_In in Hin as (_ & p & Hp & Hc).
    rewrite Nat.sub_0_r in Hp. exists p. split; auto.
    now apply classifyStable_cases.
  - intros (p & Hp & Hprompt & Hcode).
    apply (collectLeptonIdxs_complete 0 _ i p Hp).
    apply classifyStable_cases. auto.
Qed.

Lemma collectBHadrons_complete k ps i p :
  nth_error ps i = Some p -> cand_status p <> 1 -> isBHadron p = true ->
  In (k + i)%nat (collectBHadrons k ps).
Proof.
  revert k i. induction ps as [|q ps IH]; intros k [|i] Hn Hs Hb; simpl in *;
    try discriminate.
  - injection Hn as ->. destruct (Z.eqb_spec (cand_status p) 1); [contradiction|].
    rewrite Hb, Nat.add_0_r. now left.
  - replace (k + S i)%nat with (S k + i)%nat by lia.
    destruct (cand_status q =? 1); [|destruct (isBHadron q); [right|]];
      now apply IH.
Qed.

Lemma collectBHadrons_sorted k ps : StronglySorted lt (collectBHadrons k ps).
Proof.
  revert k. induction ps as [|p ps IH]; intros k; simpl; [constructor|].
  destruct (cand_status p =? 1); auto.
  destruct (isBHadron p); auto. constructor; auto.
  apply Forall_forall. intros i Hi.
  apply collectBHadrons_In in Hi as [Hle _]. lia.
Qed.

(** X5. [bHadronIdxs] holds exactly the indices of the particles of
    [genParticles] whose status is not 1 and that pass [isBHadron]; it holds
    them in increasing order, each once. *)
Theorem bHadronIdxs_are_the_unstable_b_hadrons :
  forall ev : Event,
    (forall i, In i (bHadronIdxs ev) <->
       exists g, nth_error (genParticles ev) i = Some g
                 /\ cand_status g <> 1 /\ isBHadron g = true)
    /\ StronglySorted lt (bHadronIdxs ev).
Proof.
  intros ev. split; [|apply collectBHadrons_sorted].
  intros i. split.
  - apply bHadronIdxs_spec.
  - intros (g & Hg & Hs & Hb). now apply (collectBHadrons_complete 0 _ i g).
Qed.

Lemma collectNeutrinos_filter ps :
  collectNeutrinos ps = map neutrinoCopy (filter keptAsNeutrino ps).
Proof.
  induction ps as [|p ps IH]; simpl; auto.
  unfold keptAsNeutrino at 1. destruct (classifyStable p); simpl; congruence.
Qed.

(** X6. Given that [std::sort] permutes its input, the neutrino collection
    [produce] emits is a rearrangement of the copies of the particles of the
    final state that are prompt and stable in the sense above and carry an
    absolute code of 12, 14 or 16: one copy for each, and nothing else.  Every
    emitted neutrino has status 1 and no mother or daughter link.  (A
    neutrino from a hadron decay, an orphan, or one directly from the beam is
    not emitted.) *)
Theorem emitted_neutrinos_are_the_prompt_ones :
  forall (L : Library) (cfg : Config) (ev : Event) (out : Output),
    (forall cmp l, Permutation (std_sort cmp l) l) ->
    produce cfg ev = Ok out ->
    Permutation (out_neutrinos out)
                (map neutrinoCopy (filter keptAsNeutrino (finalStates ev)))
    /\ (forall p, keptAsNeutrino p = true <->
          promptStable p
          /\ (Z.abs (cand_pdgId p) = 12 \/ Z.abs (cand_pdgId p) = 14
              \/ Z.abs (cand_pdgId p) = 16))
    /\ Forall (fun g => gp_status g = 1 /\ gp_daughters g = []
                        /\ gp_mothers g = []) (out_neutrinos out).
Proof.
  intros L cfg ev out Hsort Hp.
  unfold produce in Hp.
  apply bind_Ok_inv in Hp as (b & Hb & Hp).
  apply bind_Ok_inv in Hp as (pt & _ & Hp). injection Hp as <-. simpl.
  destruct (buildingBlocks_inv cfg ev b Hb) as (li & gh & _ & _ & _ & _ & Hn & _).
  rewrite Hn. unfold sortedNeutrinos.
  pose proof (Hsort GreaterByPt (collectNeutrinos (finalStates ev))) as Hperm.
  assert (Hk : forall p, keptAsNeutrino p = true <->
          promptStable p
          /\ (Z.abs (cand_pdgId p) = 12 \/ Z.abs (cand_pdgId p) = 14
              \/ Z.abs (cand_pdgId p) = 16)).
  { intros p. unfold keptAsNeutrino.
    destruct (classifyStable_cases p) as [_ H].
    destruct (classifyStable p); split; intros X; try discriminate; auto;
      try (apply H in X; discriminate). now apply H. }
  split; [|split; [exact Hk|]].
  - now rewrite <- collectNeutrinos_filter.
  - eapply Permutation_Forall; [symmetry; exact Hperm|].
    rewrite collectNeutrinos_filter. apply Forall_forall.
    intros g Hg. apply in_map_iff in Hg as (p & <- & Hin).
    apply filter_In in Hin as [_ Hkp]. apply Hk in Hkp as [[Hs _] _].
    simpl. auto.
Qed.


(** The statement above at the dilepton example: two neutrinos, both prompt. *)
Lemma emitted_neutrinos_are_the_prompt_ones_witness :
  (forall cmp l, Permutation (@std_sort Reference.library cmp l) l)
  /\ @produce Reference.library Examples.cfg Examples.dileptonEvent
     = Ok Examples.dileptonOutput
  /\ Permutation (out_neutrinos Examples.dileptonOutput)
                 (map neutrinoCopy
                      (filter keptAsNeutrino
                              (finalStates Examples.dileptonEvent)))
  /\ map gp_pdgId (out_neutrinos Examples.dileptonOutput) = [12; -14].
Proof.
  assert (Hsort : forall cmp l, Permutation (@std_sort Reference.library cmp l) l)
    by (intros cmp l; apply ReferenceFacts.insertionSort_perm).
  assert (Hrun : @produce Reference.library Examples.cfg Examples.dileptonEvent
                 = Ok Examples.dileptonOutput) by (vm_compute; reflexivity).
  split; [exact Hsort|]. split; [exact Hrun|]. split; [|reflexivity].
  exact (proj1 (emitted_neutrinos_are_the_prompt_ones Reference.library
                  Examples.cfg Examples.dileptonEvent Examples.dileptonOutput
                  Hsort Hrun)).
Defined.

(* ================================================================== *)
(** ** The inputs of the two clusterings *)

Lemma fjLepInputs_iff final idxs inputs c :
  fjLepInputs final idxs = Ok inputs ->
  (In c inputs <->
   exists i p, In i idxs /\ nth_error final i = Some p /\ badPt p = false
               /\ c = toPseudoJet p i).
Proof.
  revert inputs. induction idxs as [|i idxs IH]; intros inputs; simpl.
  - intros [= <-]. split; [contradiction|]. intros (? & ? & [] & _).
  - intros H. apply bind_Ok_inv in H as (g & Hg & H).
    apply bind_Ok_inv in H as (rest & Hrest & H).
    apply at_Ok_inv in Hg. specialize (IH rest Hrest).
    destruct (badPt g) eqn:Hb; injection H as <-.
    + rewrite IH. split.
      * intros (j & g' & Hin & H). exists j, g'. auto.
      * intros (j & g' & [<-|Hin] & Hn & Hb' & ->).
        -- congruence.
        -- exists j, g'. auto.
    + simpl. rewrite IH. split.
      * intros [<-|(j & g' & Hin & H)]; [exists i, g; auto|].
        exists j, g'. auto.
      * intros (j & g' & [<-|Hin] & Hn & Hb' & ->).
        -- left. congruence.
        -- right. exists j, g'. auto.
Qed.

Lemma fjLepInputs_sorted final idxs inputs :
  StronglySorted lt idxs ->
  fjLepInputs final idxs = Ok inputs ->
  StronglySorted lt (map user_index inputs).
Proof.
  intros Hs. revert inputs.
  induction Hs as [|i idxs Hs IH Hall]; intros inputs; simpl.
  - intros [= <-]. constructor.
  - intros H. apply bind_Ok_inv in H as (g & Hg & H).
    apply bind_Ok_inv in H as (rest & Hrest & H).
    specialize (IH rest Hrest).
    destruct (badPt g); injection H as <-; auto.
    simpl. constructor; auto.
    apply Forall_forall. intros j Hj. apply in_map_iff in Hj as (c & <- & Hc).
    apply (fjLepInputs_iff _ _ _ c Hrest) in Hc as (k & p & Hk & _ & _ & ->).
    rewrite Forall_forall in Hall. now apply Hall.
Qed.

(** X7. The loop that prepares the input of the lepton clustering returns,
    and its result holds exactly the prompt stable electrons, muons and
    photons of the final state whose pt is a number above zero: each with its
    own four-momentum and with its index in the final state as user index,
    in increasing order of that index. *)
Theorem lepton_inputs_are_the_prompt_leptons_and_photons :
  forall ev : Event,
    exists inputs,
      fjLepInputs (finalStates ev) (leptonIdxs ev) = Ok inputs
      /\ (forall c,
            In c inputs <->
            exists i p, nth_error (finalStates ev) i = Some p
                        /\ promptStable p
                        /\ (Z.abs (cand_pdgId p) = 11
                            \/ Z.abs (cand_pdgId p) = 13
                            \/ Z.abs (cand_pdgId p) = 22)
                        /\ badPt p = false
                        /\ c = toPseudoJet p i)
      /\ StronglySorted lt (map user_index inputs).
Proof.
  intros ev.
  destruct (fjLepInputs_spec (leptonIdxs_valid ev)) as (inputs & Hin & _).
  exists inputs. split; [exact Hin|]. split.
  - intros c. rewrite (fjLepInputs_iff _ _ _ c Hin). split.
    + intros (i & p & Hi & Hp & Hb & ->).
      apply collectLeptonIdxs_In in Hi as (_ & p' & Hp' & Hc).
      rewrite Nat.sub_0_r in Hp'. assert (p' = p) by congruence. subst p'.
      apply classifyStable_cases in Hc as [Hpr Hcode].
      exists i, p. auto 10.
    + intros (i & p & Hp & Hpr & Hcode & Hb & ->).
      exists i, p. repeat split; auto.
      apply (collectLeptonIdxs_complete 0 _ i p Hp).
      apply classifyStable_cases. auto.
  - eapply fjLepInputs_sorted; [|exact Hin]. apply collectLeptonIdxs_sorted.
Qed.


Lemma fjJetInputsFinal_cons lepDauIdxs k q ps :
  (fjJetInputsFinal lepDauIdxs k (q :: ps)
   = toPseudoJet q k :: fjJetInputsFinal lepDauIdxs (S k) ps
   /\ cand_status q = 1 /\ badPt q = false /\ ~ neutrinoCode q
   /\ ~ In k lepDauIdxs)
  \/ (fjJetInputsFinal lepDauIdxs k (q :: ps)
      = fjJetInputsFinal lepDauIdxs (S k) ps
      /\ ~ (cand_status q = 1 /\ badPt q = false /\ ~ neutrinoCode q
            /\ ~ In k lepDauIdxs)).
Proof.
  simpl. unfold neutrinoCode.
  destruct (Z.eqb_spec (cand_status q) 1) as [Hs|Hs]; simpl; [|right; tauto].
  destruct (badPt q) eqn:Hb; [right; split; auto; intros (_ & ? & _); discriminate|].
  destruct (Z.eqb_spec (Z.abs (cand_pdgId q)) 12); simpl; [right; tauto|].
  destruct (Z.eqb_spec (Z.abs (cand_pdgId q)) 14); simpl; [right; tauto|].
  destruct (Z.eqb_spec (Z.abs (cand_pdgId q)) 16); simpl; [right; tauto|].
  destruct (inSet k lepDauIdxs) eqn:Hset.
  - right. apply inSet_In in Hset. tauto.
  - left. repeat split; auto; [tauto|].
    intros Hin. apply inSet_In in Hin. congruence.
Qed.

Lemma fjJetInputsFinal_iff lepDauIdxs k ps c :
  In c (fjJetInputsFinal lepDauIdxs k ps) <->
  exists i p, nth_error ps i = Some p
              /\ cand_status p = 1 /\ badPt p = false /\ ~ neutrinoCode p
              /\ ~ In (k + i)%nat lepDauIdxs
              /\ c = toPseudoJet p (k + i)%nat.
Proof.
  revert k. induction ps as [|q ps IH]; intros k.
  - simpl. split; [contradiction|]. intros ([|i] & p & H & _); discriminate.
  - assert (Hshift : forall i, (k + S i = S k + i)%nat) by (intros; lia).
    destruct (fjJetInputsFinal_cons lepDauIdxs k q ps) as [(-> & Hq)|(-> & Hq)].
    + simpl. rewrite IH. split.
      * intros [<-|(i & p & Hn & H)].
        -- exists 0%nat, q. rewrite Nat.add_0_r. simpl. tauto.
        -- exists (S i), p. rewrite Hshift. auto.
      * intros ([|i] & p & Hn & H); simpl in Hn.
        -- injection Hn as ->. rewrite Nat.add_0_r in H. left. symmetry. tauto.
        -- right. exists i, p. rewrite Hshift in H. auto.
    + rewrite IH. split.
      * intros (i & p & Hn & H). exists (S i), p. rewrite Hshift. auto.
      * intros ([|i] & p & Hn & H); simpl in Hn.
        -- injection Hn as ->. rewrite Nat.add_0_r in H. tauto.
        -- exists i, p. rewrite Hshift in H. auto.
Qed.

Lemma fjJetInputsGhosts_iff gen idxs ghosts c :
  fjJetInputsGhosts gen idxs = Ok ghosts ->
  (In c ghosts <->
   exists i g, In i idxs /\ nth_error gen i = Some g /\ badPt g = false
               /\ c = ghost g i).
Proof.
  revert ghosts. induction idxs as [|i idxs IH]; intros ghosts; simpl.
  - intros [= <-]. split; [contradiction|]. intros (? & ? & [] & _).
  - intros H. apply bind_Ok_inv in H as (g & Hg & H).
    apply bind_Ok_inv in H as (rest & Hrest & H).
    apply at_Ok_inv in Hg. specialize (IH rest Hrest).
    destruct (badPt g) eqn:Hb; injection H as <-.
    + rewrite IH. split.
      * intros (j & g' & Hin & H). exists j, g'. auto.
      * intros (j & g' & [<-|Hin] & Hn & Hb' & ->).
        -- congruence.
        -- exists j, g'. auto.
    + simpl. rewrite IH. split.
      * intros [<-|(j & g' & Hin & H)]; [exists i, g; auto|].
        exists j, g'. auto.
      * intros (j & g' & [<-|Hin] & Hn & Hb' & ->).
        -- left. congruence.
        -- right. exists j, g'. auto.
Qed.

(** X8. The input of the jet clustering holds exactly: for every stable
    particle of the final state whose pt is a number above zero, that is no
    neutrino (absolute code 12, 14 or 16, prompt or not) and whose index was
    not recorded by an accepted dressed lepton, its four-momentum under its
    index in the final state; and for every particle of [genParticles] that
    is not stable, passes [isBHadron] and has a pt that is a number above
    zero, its scaled-down four-momentum under its index in [genParticles]. *)
Theorem jet_inputs_are_the_visible_rest_and_the_ghosts :
  forall (L : Library) (cfg : Config) (ev : Event) (b : Blocks),
    buildingBlocks cfg ev = Ok b ->
    forall c,
      In c (bl_jetInputs b) <->
      (exists i p, nth_error (finalStates ev) i = Some p
                   /\ cand_status p = 1 /\ badPt p = false /\ ~ neutrinoCode p
                   /\ ~ In i (bl_lepDauIdxs b)
                   /\ c = toPseudoJet p i)
      \/ (exists i g, nth_error (genParticles ev) i = Some g
                      /\ cand_status g <> 1 /\ isBHadron g = true
                      /\ badPt g = false
                      /\ c = ghost g i).
Proof.
  intros L cfg ev b Hb c.
  destruct (buildingBlocks_inv cfg ev b Hb)
    as (li & gh & _ & _ & Hgh & Hin & _ & _).
  rewrite Hin, in_app_iff, fjJetInputsFinal_iff,
    (fjJetInputsGhosts_iff _ _ _ c Hgh).
  split; (intros [H|H]; [left; exact H | right]).
  - destruct H as (i & g & Hi & Hg & Hbad & ->).
    apply bHadronIdxs_spec in Hi as (g' & Hg' & Hs & HB).
    exists i, g. rewrite Hg in Hg'. injection Hg' as <-. auto.
  - destruct H as (i & g & Hg & Hs & HB & Hbad & ->).
    exists i, g. repeat split; auto.
    apply (collectBHadrons_complete 0 _ i g); auto.
Qed.


(** The statement above at the semileptonic example: the two pions and the
    ghosts of the two b hadrons; the positron is consumed by the dressed
    lepton and the neutrino is left out. *)
Lemma jet_inputs_are_the_visible_rest_and_the_ghosts_witness :
  @buildingBlocks Reference.library Examples.cfg Examples.semileptonicEvent
  = Ok Examples.semileptonicBlocks
  /\ map user_index (bl_jetInputs Examples.semileptonicBlocks) = [4; 5; 2; 3]%nat
  /\ forall c,
       In c (bl_jetInputs Examples.semileptonicBlocks) <->
       (exists i p, nth_error (finalStates Examples.semileptonicEvent) i = Some p
                    /\ cand_status p = 1 /\ badPt p = false /\ ~ neutrinoCode p
                    /\ ~ In i (bl_lepDauIdxs Examples.semileptonicBlocks)
                    /\ c = toPseudoJet p i)
       \/ (exists i g, nth_error (genParticles Examples.semileptonicEvent) i = Some g
                       /\ cand_status g <> 1 /\ isBHadron g = true
                       /\ badPt g = false
                       /\ c = ghost g i).
Proof.
  assert (Hb : @buildingBlocks Reference.library Examples.cfg
                 Examples.semileptonicEvent
               = Ok Examples.semileptonicBlocks) by (vm_compute; reflexivity).
  split; [exact Hb|]. split; [reflexivity|].
  exact (jet_inputs_are_the_visible_rest_and_the_ghosts Reference.library
           Examples.cfg Examples.semileptonicEvent Examples.semileptonicBlocks
           Hb).
Defined.

(* ================================================================== *)
(** ** The constituents of a dressed lepton *)

Lemma representative_In {final seen i r} :
  representative final seen i r ->
  exists c, In c seen /\ nth_error final (user_index c) = Some r
            /\ isChargedLepton r = true.
Proof.
  intros (pre & c & post & -> & Hi & Hr & Hl & _).
  exists c. rewrite Hi. split; auto. apply in_elt.
Qed.

Lemma representative_bounds {final seen i r} :
  Forall (goodConstituent final) seen ->
  representative final seen i r ->
  forall c p, In c seen -> nth_error final (user_index c) = Some p ->
              isChargedLepton p = true -> (cand_pt p <=? cand_pt r)%float = true.
Proof.
  intros Hgood (pre & cr & post & -> & Hi & Hr & Hl & Hpre & Hpost) c p Hin Hp Hlp.
  rewrite Forall_forall in Hpre, Hpost, Hgood.
  apply in_app_or in Hin as [Hin|[<-|Hin]].
  - eapply Hpre; eauto.
  - rewrite Hi in Hp. assert (p = r) by congruence. subst p.
    apply DoubleOrder.leb_refl.
    destruct (Hgood cr) as (r' & Hr' & Hn); [apply in_elt|].
    rewrite Hi in Hr'. congruence.
  - apply DoubleOrder.ltb_leb. eapply Hpost; eauto.
Qed.

Lemma overshadowed_by_representative {final seen c p} lepCand :
  nth_error final (user_index c) = Some p ->
  Double.isnan (cand_pt p) = false ->
  Forall (goodConstituent final) seen ->
  repInv final seen lepCand ->
  overshadowed final seen c
  = isChargedLepton p
    && match lepCand with
       | Some (_, lep) => Double.gtb (cand_pt lep) (cand_pt p)
       | None => false
       end.
Proof.
  intros Hp Hnan Hgood Hinv. unfold overshadowed. rewrite Hp.
  destruct (isChargedLepton p) eqn:Hlp; simpl; auto.
  destruct lepCand as [[i r]|]; simpl in Hinv.
  - unfold Double.gtb. destruct (cand_pt p <? cand_pt r)%float eqn:Hlt.
    + apply existsb_exists.
      destruct (representative_In Hinv) as (cr & Hin & Hr & Hl).
      exists cr. split; auto. now rewrite Hr, Hl, Hlt.
    + apply not_true_is_false. intros H.
      apply existsb_exists in H as (c' & Hin & H).
      destruct (nth_error final (user_index c')) as [p'|] eqn:Hp'; [|discriminate].
      apply andb_true_iff in H as [Hl' Hlt'].
      pose proof (representative_bounds Hgood Hinv c' p' Hin Hp' Hl') as Hle.
      pose proof (DoubleOrder.ltb_leb_trans _ _ _ Hlt' Hle). congruence.
  - apply not_true_is_false. intros H.
    apply existsb_exists in H as (c' & Hin & H).
    destruct (nth_error final (user_index c')) as [p'|] eqn:Hp'; [|discriminate].
    apply andb_true_iff in H as [Hl' _].
    unfold noChargedLepton in Hinv. rewrite Forall_forall in Hinv.
    rewrite (Hinv c' Hin p' Hp') in Hl'. discriminate.
Qed.

Lemma kept_step {final seen} constituents {lepCand c} :
  goodConstituent final c ->
  Forall (goodConstituent final) seen ->
  repInv final seen lepCand ->
  exists lepCand',
    lepConstituent final (constituents, lepCand) c
    = Ok (constituents
            ++ (if overshadowed final seen c then [] else [user_index c]),
          lepCand')
    /\ repInv final (seen ++ [c]) lepCand'.
Proof.
  intros Hc Hseen Hinv.
  destruct (repInv_step constituents Hc Hseen Hinv) as (k' & l' & Hstep & Hinv').
  exists l'. split; auto. rewrite Hstep.
  destruct Hc as (p & Hp & Hnan).
  rewrite (overshadowed_by_representative lepCand Hp Hnan Hseen Hinv).
  unfold lepConstituent in Hstep. rewrite (derefPtrAt_Some Hp) in Hstep.
  cbn [bind] in Hstep. fold (isChargedLepton p) in Hstep.
  destruct (isChargedLepton p); simpl.
  - destruct lepCand as [[i r]|].
    + destruct (Double.gtb (cand_pt r) (cand_pt p)); injection Hstep as <- <-;
        now rewrite ?app_nil_r.
    + now injection Hstep as <- <-.
  - now injection Hstep as <- <-.
Qed.

Lemma kept_fold {final cs} :
  Forall (goodConstituent final) cs ->
  forall seen constituents lepCand,
    Forall (goodConstituent final) seen ->
    repInv final seen lepCand ->
    exists lepCand',
      foldM (lepConstituent final) cs (constituents, lepCand)
      = Ok (constituents ++ keptConstituents final seen cs, lepCand')
      /\ repInv final (seen ++ cs) lepCand'.
Proof.
  induction 1 as [|c cs Hc Hcs IH]; intros seen constituents lepCand Hseen Hinv.
  - simpl. rewrite !app_nil_r. eauto.
  - destruct (kept_step constituents Hc Hseen Hinv) as (lepCand1 & Hstep & Hinv1).
    cbn [foldM keptConstituents]. rewrite Hstep. cbn [bind].
    destruct (IH (seen ++ [c])
                 (constituents
                    ++ (if overshadowed final seen c then [] else [user_index c]))
                 lepCand1) as (l2 & Hfold & Hinv2); auto.
    + apply Forall_app. split; auto.
    + rewrite <- !app_assoc in *. eauto.
Qed.

Lemma keptConstituents_In final cs :
  forall seen i,
    In i (keptConstituents final seen cs) <->
    exists pre c post,
      cs = pre ++ c :: post /\ user_index c = i
      /\ overshadowed final (seen ++ pre) c = false.
Proof.
  induction cs as [|c cs IH]; intros seen i; cbn [keptConstituents].
  - split; [contradiction|]. intros ([|? ?] & ? & ? & H & _); discriminate.
  - rewrite in_app_iff, IH. split.
    + intros [H|(pre & c' & post & -> & Hi & Ho)].
      * exists [], c, cs. rewrite app_nil_r.
        destruct (overshadowed final seen c); [contradiction|].
        destruct H as [<-|[]]. auto.
      * exists (c :: pre), c', post. rewrite <- app_assoc in Ho. auto.
    + intros ([|x pre] & c' & post & E & Hi & Ho); simpl in E;
        injection E as -> ->.
      * left. rewrite app_nil_r in Ho. rewrite Ho. now left.
      * right. exists pre, c', post. rewrite <- app_assoc. auto.
Qed.

Lemma not_lepton_not_overshadowed final seen c :
  pointsAtChargedLepton final c = false -> overshadowed final seen c = false.
Proof.
  unfold pointsAtChargedLepton, overshadowed.
  destruct (nth_error final (user_index c)); auto. now intros ->.
Qed.

Lemma split_position {A : Type} (pre post pre' post' : list A) c c' :
  pre ++ c :: post = pre' ++ c' :: post' ->
  (pre = pre' /\ c = c') \/ In c' (pre ++ post).
Proof.
  intros E. apply app_eq_app in E as (l & [[-> E]|[-> E]]).
  - destruct l as [|x l]; simpl in E; injection E as -> E.
    + left. now rewrite app_nil_r.
    + right. rewrite in_app_iff. left. apply in_elt.
  - destruct l as [|x l]; simpl in E; injection E as <- E.
    + left. now rewrite app_nil_r.
    + right. rewrite E, in_app_iff. right. apply in_elt.
Qed.

(** X9. A cluster of the lepton clustering that is not beyond the
    pseudorapidity cut, whose constituents point into the final state at
    particles with a pt that is a number, and that holds a charged lepton,
    gives a dressed lepton, and all the indices of its constituents are
    recorded as consumed.  The constituent list of the dressed lepton holds
    the constituents in their order, without the charged leptons that come
    after a charged lepton of strictly greater pt: every constituent that is
    no charged lepton is in the list, and such an overshadowed charged lepton
    (whose index no other constituent carries) is not, although its index is
    recorded as consumed. *)
Theorem dressed_lepton_constituents :
  forall (cfg : Config) (final : list Candidate) (leptons : list GenJet)
         (lepDauIdxs : list nat) (fjJet : FjJet),
    Double.gtb (abs (fj_eta fjJet)) (leptonMaxEta_ cfg) = false ->
    Forall (goodConstituent final) (fj_constituents fjJet) ->
    existsb (pointsAtChargedLepton final) (fj_constituents fjJet) = true ->
    exists lepJet,
      dressLepton cfg final (leptons, lepDauIdxs) fjJet
      = Ok (leptons ++ [lepJet],
            lepDauIdxs ++ map user_index (fj_constituents fjJet))
      /\ jet_constituents lepJet
         = keptConstituents final [] (fj_constituents fjJet)
      /\ (forall c, In c (fj_constituents fjJet) ->
            pointsAtChargedLepton final c = false ->
            In (user_index c) (jet_constituents lepJet))
      /\ (forall pre c post,
            fj_constituents fjJet = pre ++ c :: post ->
            overshadowed final pre c = true ->
            ~ In (user_index c) (map user_index (pre ++ post)) ->
            ~ In (user_index c) (jet_constituents lepJet)).
Proof.
  intros cfg final leptons lepDauIdxs fjJet Heta Hgood Hlep.
  unfold dressLepton. rewrite Heta. unfold lepConstituents.
  destruct (kept_fold Hgood [] [] None) as (lepCand & Hfold & Hinv);
    [constructor | constructor |].
  rewrite Hfold. cbn [bind app].
  destruct lepCand as [[i r]|].
  - eexists. split; [reflexivity|]. cbn [jet_constituents].
    split; [reflexivity|]. split.
    + intros c Hin Hc. apply keptConstituents_In.
      apply in_split in Hin as (pre & post & E).
      exists pre, c, post. repeat split; auto.
      now apply not_lepton_not_overshadowed.
    + intros pre c post E Ho Hfresh Hin.
      apply keptConstituents_In in Hin as (pre' & c' & post' & E' & Hi & Ho').
      rewrite E in E'. apply split_position in E' as [[-> ->]|Hc'].
      * simpl in Ho'. congruence.
      * apply Hfresh. rewrite <- Hi. now apply in_map.
  - exfalso. simpl in Hinv. unfold noChargedLepton in Hinv.
    rewrite Forall_forall in Hinv.
    apply existsb_exists in Hlep as (c & Hin & Hc).
    unfold pointsAtChargedLepton in Hc.
    destruct (nth_error final (user_index c)) as [p|] eqn:Hp; [|discriminate].
    rewrite (Hinv c Hin p Hp) in Hc. discriminate.
Qed.

(** The statement above at a cluster of a muon, a softer electron and a
    photon: the dressed lepton has the muon and the photon as constituents,
    and the three indices are consumed. *)
Lemma dressed_lepton_constituents_witness :
  Double.gtb (abs (fj_eta Examples.dressCluster))
             (leptonMaxEta_ Examples.cfg) = false
  /\ Forall (goodConstituent Examples.dressFinal)
            (fj_constituents Examples.dressCluster)
  /\ existsb (pointsAtChargedLepton Examples.dressFinal)
             (fj_constituents Examples.dressCluster) = true
  /\ keptConstituents Examples.dressFinal []
                      (fj_constituents Examples.dressCluster) = [0; 2]%nat
  /\ map user_index (fj_constituents Examples.dressCluster) = [0; 1; 2]%nat
  /\ exists lepJet,
       dressLepton Examples.cfg Examples.dressFinal ([], []) Examples.dressCluster
       = Ok ([] ++ [lepJet],
             [] ++ map user_index (fj_constituents Examples.dressCluster))
       /\ jet_constituents lepJet
          = keptConstituents Examples.dressFinal []
                             (fj_constituents Examples.dressCluster).
Proof.
  assert (Heta : Double.gtb (abs (fj_eta Examples.dressCluster))
                            (leptonMaxEta_ Examples.cfg) = false)
    by (vm_compute; reflexivity).
  assert (Hgood : Forall (goodConstituent Examples.dressFinal)
                         (fj_constituents Examples.dressCluster)).
  { repeat constructor; eexists; (split; [reflexivity|]); vm_compute; reflexivity. }
  assert (Hlep : existsb (pointsAtChargedLepton Examples.dressFinal)
                         (fj_constituents Examples.dressCluster) = true)
    by (vm_compute; reflexivity).
  split; [exact Heta|]. split; [exact Hgood|]. split; [exact Hlep|].
  split; [vm_compute; reflexivity|]. split; [reflexivity|].
  destruct (dressed_lepton_constituents Examples.cfg Examples.dressFinal [] []
              Examples.dressCluster Heta Hgood Hlep) as (lepJet & Hrun & Hk & _).
  exists lepJet. split; [exact Hrun | exact Hk].
Defined.

(* ================================================================== *)
(** ** Which clusters become dressed leptons *)

Lemma lepConstituent_lepCand final k lc c k' lc' :
  lepConstituent final (k, lc) c = Ok (k', lc') ->
  (pointsAtChargedLepton final c = false -> lc' = lc)
  /\ (lc' = None -> lc = None /\ pointsAtChargedLepton final c = false)
  /\ (forall i r, lc' = Some (i, r) ->
        lc = Some (i, r) \/ isChargedLepton r = true).
Proof.
  unfold lepConstituent, pointsAtChargedLepton, derefPtrAt.
  destruct (nth_error final (user_index c)) as [p|]; [|discriminate].
  cbn [bind]. fold (isChargedLepton p).
  destruct (isChargedLepton p) eqn:Hl.
  - destruct lc as [[i r]|].
    + destruct (Double.gtb (cand_pt r) (cand_pt p)); intros [= <- <-];
        (split; [discriminate|]); (split; [discriminate|]);
        intros i' r' [= <- <-]; auto.
    + intros [= <- <-]. split; [discriminate|]. split; [discriminate|].
      intros i' r' [= <- <-]. auto.
  - intros [= <- <-]. repeat split; auto.
Qed.

Lemma lepConstituents_lepCand final cs :
  forall k lc k' lc',
    foldM (lepConstituent final) cs (k, lc) = Ok (k', lc') ->
    (existsb (pointsAtChargedLepton final) cs = false -> lc' = lc)
    /\ (lc' = None -> lc = None
                      /\ existsb (pointsAtChargedLepton final) cs = false)
    /\ (forall i r, lc' = Some (i, r) ->
          lc = Some (i, r) \/ isChargedLepton r = true).
Proof.
  induction cs as [|c cs IH]; intros k lc k' lc'; cbn [foldM existsb].
  - intros [= <- <-]. repeat split; auto.
  - intros H. apply bind_Ok_inv in H as ([k1 lc1] & Hstep & Hfold).
    apply lepConstituent_lepCand in Hstep as (S1 & S2 & S3).
    apply IH in Hfold as (F1 & F2 & F3).
    split; [|split].
    + intros H. apply orb_false_elim in H as [Hc Hcs].
      now rewrite (F1 Hcs), (S1 Hc).
    + intros H. destruct (F2 H) as [H1 Hcs]. destruct (S2 H1) as [H0 Hc].
      split; auto. now rewrite Hc, Hcs.
    + intros i r H. destruct (F3 i r H) as [H1|H1]; auto.
Qed.

Lemma isChargedLepton_code r :
  isChargedLepton r = true ->
  Z.abs (cand_pdgId r) = 11 \/ Z.abs (cand_pdgId r) = 13.
Proof. unfold isChargedLepton. intros H. apply orb_true_iff in H. lia. Qed.

Lemma dressLepton_cases cfg final leptons lepDauIdxs fjJet st' :
  dressLepton cfg final (leptons, lepDauIdxs) fjJet = Ok st' ->
  (dressable cfg final fjJet = false /\ st' = (leptons, lepDauIdxs))
  \/ (dressable cfg final fjJet = true
      /\ exists lepJet,
           st' = (leptons ++ [lepJet],
                  lepDauIdxs ++ map user_index (fj_constituents fjJet))
           /\ dressedFrom lepJet fjJet).
Proof.
  unfold dressLepton, dressable.
  destruct (Double.gtb (abs (fj_eta fjJet)) (leptonMaxEta_ cfg)).
  { intros [= <-]. left. auto. }
  intros H. apply bind_Ok_inv in H as ([k lc] & Hfold & H).
  unfold lepConstituents in Hfold.
  pose proof (lepConstituent_incl _ _ _ _ _ _ Hfold) as Hincl.
  apply lepConstituents_lepCand in Hfold as (F1 & F2 & F3).
  destruct lc as [[i r]|].
  - injection H as <-. right. split.
    + cbn [negb andb].
      destruct (existsb (pointsAtChargedLepton final) (fj_constituents fjJet));
        auto.
      discriminate (F1 eq_refl).
    + eexists. split; [reflexivity|]. unfold dressedFrom. cbn.
      repeat split; auto.
      destruct (F3 i r eq_refl) as [?|Hr]; [discriminate|].
      now apply isChargedLepton_code.
  - injection H as <-. left. destruct (F2 eq_refl) as [_ ->]. auto.
Qed.

Lemma buildLeptons_filter cfg final js :
  forall leptons lepDauIdxs leptons' lepDauIdxs',
    foldM (dressLepton cfg final) js (leptons, lepDauIdxs)
    = Ok (leptons', lepDauIdxs') ->
    exists new,
      leptons' = leptons ++ new
      /\ Forall2 dressedFrom new (filter (dressable cfg final) js)
      /\ lepDauIdxs'
         = lepDauIdxs
           ++ flat_map (fun j => map user_index (fj_constituents j))
                       (filter (dressable cfg final) js).
Proof.
  induction js as [|j js IH]; intros ls ds ls' ds'; cbn [foldM filter].
  - intros [= <- <-]. exists []. rewrite !app_nil_r. repeat split; constructor.
  - intros H. apply bind_Ok_inv in H as ([ls1 ds1] & Hstep & Hfold).
    apply IH in Hfold as (new & -> & Hnew & ->).
    apply dressLepton_cases in Hstep
      as [[-> [= -> ->]]|(-> & lepJet & [= -> ->] & Hd)].
    + exists new. auto.
    + exists (lepJet :: new). cbn [flat_map]. rewrite <- !app_assoc.
      repeat split; auto.
Qed.

(** X10. When the loop over the clusters of the lepton clustering returns,
    the dressed leptons are, in the order of the clusters, made of exactly
    the clusters that are not beyond the pseudorapidity cut and hold a
    charged lepton: each has the four-momentum and the area of its cluster,
    the vertex at the origin, an absolute species code of 11 or 13, and
    constituents among those of the cluster.  The indices recorded as
    consumed are those of all the constituents of these clusters and of no
    other: the constituents of a cluster that is skipped, such as a cluster
    of photons only, stay available to the jets. *)
Theorem dressed_leptons_are_the_dressable_clusters :
  forall (cfg : Config) (final : list Candidate) (fjLepJets : list FjJet)
         (leptons : list GenJet) (lepDauIdxs : list nat),
    buildLeptons cfg final fjLepJets = Ok (leptons, lepDauIdxs) ->
    Forall2 dressedFrom leptons (filter (dressable cfg final) fjLepJets)
    /\ lepDauIdxs
       = flat_map (fun j => map user_index (fj_constituents j))
                  (filter (dressable cfg final) fjLepJets).
Proof.
  intros cfg final js leptons lepDauIdxs H.
  apply buildLeptons_filter in H as (new & -> & Hnew & ->). auto.
Qed.

(** The statement above at a cluster of a muon and an electron followed by a
    cluster of one photon: one dressed lepton, and the photon of the second
    cluster is not consumed. *)
Lemma dressed_leptons_are_the_dressable_clusters_witness :
  buildLeptons Examples.cfg Examples.dressFinal
               [Examples.leptonPairCluster; Examples.photonCluster]
  = Ok (fst Examples.dressedState, snd Examples.dressedState)
  /\ filter (dressable Examples.cfg Examples.dressFinal)
            [Examples.leptonPairCluster; Examples.photonCluster]
     = [Examples.leptonPairCluster]
  /\ snd Examples.dressedState = [0; 1]%nat
  /\ Forall2 dressedFrom (fst Examples.dressedState)
             (filter (dressable Examples.cfg Examples.dressFinal)
                     [Examples.leptonPairCluster; Examples.photonCluster])
  /\ snd Examples.dressedState
     = flat_map (fun j => map user_index (fj_constituents j))
                (filter (dressable Examples.cfg Examples.dressFinal)
                        [Examples.leptonPairCluster; Examples.photonCluster]).
Proof.
  assert (Hrun : buildLeptons Examples.cfg Examples.dressFinal
                              [Examples.leptonPairCluster; Examples.photonCluster]
                 = Ok (fst Examples.dressedState, snd Examples.dressedState))
    by (vm_compute; reflexivity).
  split; [exact Hrun|]. split; [vm_compute; reflexivity|].
  split; [reflexivity|].
  exact (dressed_leptons_are_the_dressable_clusters Examples.cfg
           Examples.dressFinal [Examples.leptonPairCluster; Examples.photonCluster]
           (fst Examples.dressedState) (snd Examples.dressedState) Hrun).
Defined.

(* ================================================================== *)
(** ** What a dressed lepton is made of *)

(** X11. When the clustering hands back constituents it was given, every
    index recorded as consumed by a dressed lepton, and every constituent of
    a dressed lepton, is the index of a particle of the final state that is
    stable, has a mother, the first of its mothers not of status 4, is not
    from a hadron, is an electron, a muon or a photon, and has a pt that is a
    number above zero; and every dressed lepton has an absolute species code
    of 11 or 13. *)
Theorem dressed_leptons_are_made_of_prompt_particles :
  forall (L : Library) (cfg : Config) (ev : Event) (b : Blocks),
    constituentsAreInputs ->
    buildingBlocks cfg ev = Ok b ->
    Forall (dressingParticleAt ev) (bl_lepDauIdxs b)
    /\ Forall (fun lepJet =>
                 (Z.abs (jet_pdgId lepJet) = 11 \/ Z.abs (jet_pdgId lepJet) = 13)
                 /\ Forall (dressingParticleAt ev) (jet_constituents lepJet))
              (bl_leptons b).
Proof.
  intros L cfg ev b Hcontract Hb.
  destruct (buildingBlocks_inv cfg ev b Hb)
    as (lepInputs & ghosts & HlepIn & Hlep & _).
  unfold buildLeptons in Hlep.
  apply buildLeptons_filter in Hlep as (new & Hnew & Hfrom & Hdau).
  cbn [app] in Hnew, Hdau.
  assert (Hinput : forall fjJet c,
            In fjJet (filter (dressable cfg (finalStates ev))
                        (fjCluster (leptonConeSize cfg) lepInputs
                                   (leptonMinPt_ cfg))) ->
            In c (fj_constituents fjJet) ->
            dressingParticleAt ev (user_index c)).
  { intros fjJet c Hjet Hc. apply filter_In in Hjet as [Hjet _].
    pose proof (Hcontract _ _ _ _ _ Hjet Hc) as Hin.
    apply (fjLepInputs_iff _ _ _ c HlepIn) in Hin as (i & p & Hi & Hp & Hbad & ->).
    cbn [toPseudoJet user_index].
    apply collectLeptonIdxs_In in Hi as (_ & p' & Hp' & Hcl).
    rewrite Nat.sub_0_r in Hp'. assert (p' = p) by congruence. subst p'.
    apply classifyStable_cases in Hcl as [Hpr Hcode].
    exists p. auto. }
  split.
  - rewrite Hdau. apply Forall_forall. intros i Hi.
    apply in_flat_map in Hi as (fjJet & Hjet & Hi).
    apply in_map_iff in Hi as (c & <- & Hc). eauto.
  - rewrite Hnew. clear Hnew Hdau.
    induction Hfrom as [|lepJet fjJet ls js Hd _ IH]; constructor.
    + destruct Hd as (_ & _ & _ & Hcode & Hincl). split; auto.
      apply Forall_forall. intros i Hi. apply Hincl in Hi.
      apply in_map_iff in Hi as (c & <- & Hc).
      eapply Hinput; [|exact Hc]. now left.
    + apply IH. intros fjJet' c Hjet Hc.
      eapply Hinput; [|exact Hc]. now right.
Qed.

(** The statement above at the dilepton example. *)
Lemma dressed_leptons_are_made_of_prompt_particles_witness :
  @constituentsAreInputs Reference.library
  /\ @buildingBlocks Reference.library Examples.cfg Examples.dileptonEvent
     = Ok Examples.dileptonBlocks
  /\ bl_lepDauIdxs Examples.dileptonBlocks = [0; 1]%nat
  /\ Forall (dressingParticleAt Examples.dileptonEvent)
            (bl_lepDauIdxs Examples.dileptonBlocks)
  /\ Forall (fun lepJet =>
               (Z.abs (jet_pdgId lepJet) = 11 \/ Z.abs (jet_pdgId lepJet) = 13)
               /\ Forall (dressingParticleAt Examples.dileptonEvent)
                         (jet_constituents lepJet))
            (bl_leptons Examples.dileptonBlocks).
Proof.
  assert (Hc := ReferenceFacts.reference_constituentsAreInputs).
  assert (Hb : @buildingBlocks Reference.library Examples.cfg
                 Examples.dileptonEvent
               = Ok Examples.dileptonBlocks) by (vm_compute; reflexivity).
  split; [exact Hc|]. split; [exact Hb|]. split; [reflexivity|].
  exact (dressed_leptons_are_made_of_prompt_particles Reference.library
           Examples.cfg Examples.dileptonEvent Examples.dileptonBlocks Hc Hb).
Defined.

(* ================================================================== *)
(** ** The jets and their b tag *)

Lemma jetConstituent_flag bHadrons cs :
  forall k h, snd (fold_left (jetConstituent bHadrons) cs (k, h))
              = h || existsb (fun c => inSet (user_index c) bHadrons) cs.
Proof.
  induction cs as [|c cs IH]; intros k h; simpl.
  - now rewrite orb_false_r.
  - rewrite IH. destruct (inSet (user_index c) bHadrons), h; reflexivity.
Qed.

Lemma buildJet_step cfg bHadrons st fjJet :
  buildJet cfg bHadrons st fjJet
  = if withinJetEta cfg fjJet then
      mkJetState (js_jets st ++ [genJetOf bHadrons fjJet])
                 (js_bjetIdxs st
                    ++ (if hasBHadronIndex bHadrons fjJet
                        then [length (js_jets st)] else []))
                 (js_ljetIdxs st
                    ++ (if hasBHadronIndex bHadrons fjJet
                        then [] else [length (js_jets st)]))
    else st.
Proof.
  unfold buildJet, withinJetEta, genJetOf, hasBHadronIndex.
  destruct (Double.gtb (abs (fj_eta fjJet)) (jetMaxEta_ cfg)); cbn [negb]; auto.
  pose proof (jetConstituent_fold bHadrons (fj_constituents fjJet) [] false) as Hk.
  pose proof (jetConstituent_flag bHadrons (fj_constituents fjJet) [] false) as Hh.
  destruct (fold_left (jetConstituent bHadrons) (fj_constituents fjJet) ([], false))
    as [k h].
  cbn [fst snd app orb] in Hk, Hh. subst k h.
  destruct (existsb _ _); cbn; now rewrite ?app_nil_r.
Qed.

Lemma buildJets_from cfg bHadrons fjJets :
  forall st,
    js_jets (fold_left (buildJet cfg bHadrons) fjJets st)
    = js_jets st ++ map (genJetOf bHadrons) (filter (withinJetEta cfg) fjJets).
Proof.
  induction fjJets as [|j js IH]; intros st; cbn [fold_left filter map].
  - now rewrite app_nil_r.
  - rewrite IH, buildJet_step.
    destruct (withinJetEta cfg j); auto.
    cbn [js_jets map]. now rewrite <- app_assoc.
Qed.

(** X12. The jet collection is made, in the order of the clusters of the jet
    clustering, of exactly the clusters whose absolute pseudorapidity is not
    greater than the cut (a cluster whose pseudorapidity is NaN is therefore
    kept): each jet has the four-momentum and the area of its cluster, the
    vertex at the origin, the user indices of all the constituents as
    constituent keys, charge 0, and the species code 5 if one of these
    indices is the index of a b hadron, 0 otherwise. *)
Theorem jets_are_the_clusters_within_eta :
  forall (cfg : Config) (bHadrons : list nat) (fjJets : list FjJet),
    js_jets (buildJets cfg bHadrons fjJets)
    = map (genJetOf bHadrons) (filter (withinJetEta cfg) fjJets).
Proof. intros. unfold buildJets. now rewrite buildJets_from. Qed.

Lemma taggedAt_app jets g i :
  (i < length jets)%nat -> taggedAt (jets ++ [g]) i = taggedAt jets i.
Proof. intros H. unfold taggedAt. now rewrite nth_error_app1. Qed.

Lemma taggedAt_last jets g :
  taggedAt (jets ++ [g]) (length jets) = (jet_pdgId g =? 5).
Proof.
  unfold taggedAt. now rewrite nth_error_app2, Nat.sub_diag by lia.
Qed.

Lemma filter_seq_snoc (f g : nat -> bool) n :
  (forall i, (i < n)%nat -> g i = f i) ->
  filter g (seq 0 (S n)) = filter f (seq 0 n) ++ (if g n then [n] else []).
Proof.
  intros H. rewrite seq_S, filter_app. cbn [filter Nat.add]. f_equal.
  apply filter_ext_in. intros i Hi. apply in_seq in Hi. apply H. lia.
Qed.

Lemma buildJet_tagInv cfg bHadrons st fjJet :
  tagInv st -> tagInv (buildJet cfg bHadrons st fjJet).
Proof.
  intros [Hb Hl]. rewrite buildJet_step.
  destruct (withinJetEta cfg fjJet); [|split; auto].
  unfold tagInv. cbn [js_jets js_bjetIdxs js_ljetIdxs].
  rewrite length_app, Nat.add_1_r.
  rewrite (filter_seq_snoc (taggedAt (js_jets st))),
          (filter_seq_snoc (fun i => negb (taggedAt (js_jets st) i)));
    try (intros i Hi; now rewrite taggedAt_app).
  rewrite taggedAt_last, <- Hb, <- Hl. unfold genJetOf. cbn [jet_pdgId].
  destruct (hasBHadronIndex bHadrons fjJet); cbn; auto.
Qed.

Lemma buildJets_tagInv cfg bHadrons fjJets :
  tagInv (buildJets cfg bHadrons fjJets).
Proof.
  unfold buildJets. apply fold_left_invariant.
  - intros s a _. apply buildJet_tagInv.
  - split; reflexivity.
Qed.

Lemma filter_seq_sorted (f : nat -> bool) k n :
  StronglySorted lt (filter f (seq k n)).
Proof.
  revert k. induction n as [|n IH]; intros k; simpl; [constructor|].
  destruct (f k); auto. constructor; auto.
  apply Forall_forall. intros i Hi. apply filter_In in Hi as [Hi _].
  apply in_seq in Hi. lia.
Qed.

Lemma buildJets_jet_tag cfg bHadrons fjJets jet :
  In jet (js_jets (buildJets cfg bHadrons fjJets)) ->
  (jet_pdgId jet = 5 \/ jet_pdgId jet = 0)
  /\ (jet_pdgId jet = 5 <->
      exists k, In k (jet_constituents jet) /\ In k bHadrons).
Proof.
  intros Hin. unfold buildJets in Hin. rewrite buildJets_from in Hin.
  cbn [js_jets app] in Hin.
  apply in_map_iff in Hin as (j & <- & _). unfold genJetOf. cbn.
  unfold hasBHadronIndex.
  destruct (existsb _ _) eqn:E.
  - split; auto. split; auto. intros _.
    apply existsb_exists in E as (c & Hc & Hs). apply inSet_In in Hs.
    exists (user_index c). split; auto. now apply in_map.
  - split; auto. split; [discriminate|].
    intros (k & Hk & HB). apply in_map_iff in Hk as (c & <- & Hc).
    apply inSet_In in HB.
    assert (existsb (fun c => inSet (user_index c) bHadrons)
                    (fj_constituents j) = true)
      by (apply existsb_exists; eauto).
    congruence.
Qed.

Lemma buildJets_bjetIdxs_In cfg bHadrons fjJets i :
  In i (js_bjetIdxs (buildJets cfg bHadrons fjJets)) <->
  exists jet, nth_error (js_jets (buildJets cfg bHadrons fjJets)) i = Some jet
              /\ jet_pdgId jet = 5.
Proof.
  destruct (buildJets_tagInv cfg bHadrons fjJets) as [Hb _].
  set (js := buildJets cfg bHadrons fjJets) in *.
  rewrite Hb, filter_In, in_seq. unfold taggedAt. split.
  - intros [_ H]. destruct (nth_error (js_jets js) i) as [jet|]; [|discriminate].
    exists jet. split; auto. lia.
  - intros (jet & Hn & H5). rewrite Hn. split; [|lia].
    assert (i < length (js_jets js))%nat by (apply nth_error_Some; congruence).
    lia.
Qed.

Lemma buildJets_ljetIdxs_In cfg bHadrons fjJets i :
  In i (js_ljetIdxs (buildJets cfg bHadrons fjJets)) <->
  exists jet, nth_error (js_jets (buildJets cfg bHadrons fjJets)) i = Some jet
              /\ jet_pdgId jet = 0.
Proof.
  destruct (buildJets_tagInv cfg bHadrons fjJets) as [_ Hl].
  pose proof (buildJets_jet_tag cfg bHadrons fjJets) as Hjets.
  set (js := buildJets cfg bHadrons fjJets) in *.
  rewrite Hl, filter_In, in_seq. unfold taggedAt. split.
  - intros [Hi H]. destruct (nth_error (js_jets js) i) as [jet|] eqn:Hn.
    + exists jet. split; auto.
      destruct (Hjets jet (nth_error_In _ _ Hn)) as [[H5|H0] _]; auto.
      rewrite H5 in H. discriminate.
    + apply nth_error_None in Hn. lia.
  - intros (jet & Hn & H0). rewrite Hn, H0. split; auto.
    assert (i < length (js_jets js))%nat by (apply nth_error_Some; congruence).
    lia.
Qed.

Lemma buildJets_idxs_sorted cfg bHadrons fjJets :
  StronglySorted lt (js_bjetIdxs (buildJets cfg bHadrons fjJets))
  /\ StronglySorted lt (js_ljetIdxs (buildJets cfg bHadrons fjJets)).
Proof.
  destruct (buildJets_tagInv cfg bHadrons fjJets) as [Hb Hl].
  rewrite Hb, Hl. split; apply filter_seq_sorted.
Qed.

(** X13. After the jet loop, [bjetIdxs] holds exactly the positions of the
    jets of species code 5 and [ljetIdxs] exactly the positions of the jets
    of species code 0, both in increasing order; every jet has one of the two
    codes, so that every position of the jet collection is in exactly one of
    the two lists, and a jet has code 5 exactly when one of its constituent
    keys is the index of a b hadron. *)
Theorem jet_indices_split_by_b_tag :
  forall (cfg : Config) (bHadrons : list nat) (fjJets : list FjJet),
    let js := buildJets cfg bHadrons fjJets in
    (forall i, In i (js_bjetIdxs js) <->
       exists jet, nth_error (js_jets js) i = Some jet /\ jet_pdgId jet = 5)
    /\ (forall i, In i (js_ljetIdxs js) <->
          exists jet, nth_error (js_jets js) i = Some jet /\ jet_pdgId jet = 0)
    /\ StronglySorted lt (js_bjetIdxs js)
    /\ StronglySorted lt (js_ljetIdxs js)
    /\ (forall jet, In jet (js_jets js) ->
          (jet_pdgId jet = 5 \/ jet_pdgId jet = 0)
          /\ (jet_pdgId jet = 5 <->
              exists k, In k (jet_constituents jet) /\ In k bHadrons)).
Proof.
  intros cfg bHadrons fjJets js.
  split; [|split; [|split; [|split]]].
  - apply buildJets_bjetIdxs_In.
  - apply buildJets_ljetIdxs_In.
  - apply buildJets_idxs_sorted.
  - apply buildJets_idxs_sorted.
  - apply buildJets_jet_tag.
Qed.

(** X14. When the clustering hands back constituents it was given and the
    two collections share their index space, the jet collection is made of
    the clusters of the jet clustering run on the jet inputs (those not
    beyond the pseudorapidity cut), and the jet made of a cluster carries the
    species code 5 exactly when one of the constituents of the cluster is the
    ghost of a b hadron: the scaled-down four-momentum of a particle of
    [genParticles] that is not stable, passes [isBHadron] and has a pt that
    is a number above zero, under the index of that particle. *)
Theorem b_tag_means_a_clustered_ghost :
  forall (L : Library) (cfg : Config) (ev : Event) (b : Blocks),
    constituentsAreInputs ->
    sharedIndexSpace ev ->
    buildingBlocks cfg ev = Ok b ->
    bl_jets b
    = map (genJetOf (bHadronIdxs ev))
          (filter (withinJetEta cfg)
                  (fjCluster (jetConeSize cfg) (bl_jetInputs b) (jetMinPt_ cfg)))
    /\ forall fjJet,
         In fjJet (fjCluster (jetConeSize cfg) (bl_jetInputs b) (jetMinPt_ cfg)) ->
         (jet_pdgId (genJetOf (bHadronIdxs ev) fjJet) = 5 <->
          exists c, In c (fj_constituents fjJet) /\ isGhostOfBHadron ev c).
Proof.
  intros L cfg ev b Hcontract Hshared Hb.
  destruct (buildingBlocks_inv cfg ev b Hb)
    as (lepInputs & ghosts & _ & _ & Hgh & HjetIn & _ & Hjets).
  split.
  { rewrite Hjets. unfold buildJets. now rewrite buildJets_from. }
  intros fjJet Hjet. unfold genJetOf, hasBHadronIndex. cbn [jet_pdgId].
  split.
  - destruct (existsb _ _) eqn:E; [intros _|discriminate].
    apply existsb_exists in E as (c & Hc & Hset). apply inSet_In in Hset.
    exists c. split; auto.
    pose proof (Hcontract _ _ _ _ _ Hjet Hc) as Hin.
    rewrite HjetIn in Hin. apply in_app_or in Hin as [Hin|Hin].
    + exfalso. apply fjJetInputsFinal_In in Hin as (_ & _ & p & Hp & Hs & _).
      rewrite Nat.sub_0_r in Hp.
      apply bHadronIdxs_spec in Hset as (g & Hg & Hu & _).
      apply Hu. eapply Hshared; eauto.
    + destruct (fjJetInputsGhosts_spec (bHadronIdxs_valid ev))
        as (ghosts' & Heq & Hgin).
      rewrite Hgh in Heq. injection Heq as <-.
      destruct (Hgin c Hin) as (_ & g & Hg & Hbad & Hc').
      apply bHadronIdxs_spec in Hset as (g' & Hg' & Hu & HB).
      assert (g' = g) by congruence. subst g'.
      exists g. auto 10.
  - intros (c & Hc & g & Hg & Hu & HB & _ & _).
    assert (E : existsb (fun c => inSet (user_index c) (bHadronIdxs ev))
                        (fj_constituents fjJet) = true).
    { apply existsb_exists. exists c. split; auto. apply inSet_In.
      now apply (collectBHadrons_complete 0 _ (user_index c) g). }
    now rewrite E.
Qed.


(** The statement above at the semileptonic example: the ghosts of the two
    b hadrons are the two jets of code 5. *)
Lemma b_tag_means_a_clustered_ghost_witness :
  @constituentsAreInputs Reference.library
  /\ sharedIndexSpace Examples.semileptonicEvent
  /\ @buildingBlocks Reference.library Examples.cfg Examples.semileptonicEvent
     = Ok Examples.semileptonicBlocks
  /\ map jet_pdgId (bl_jets Examples.semileptonicBlocks) = [0; 0; 5; 5]
  /\ bl_jets Examples.semileptonicBlocks
     = map (genJetOf (bHadronIdxs Examples.semileptonicEvent))
           (filter (withinJetEta Examples.cfg)
                   (@fjCluster Reference.library (jetConeSize Examples.cfg)
                      (bl_jetInputs Examples.semileptonicBlocks)
                      (jetMinPt_ Examples.cfg))).
Proof.
  assert (Hc := ReferenceFacts.reference_constituentsAreInputs).
  assert (Hs := same_collection_shares_index_space
                  Examples.semileptonicParticlesList).
  assert (Hb : @buildingBlocks Reference.library Examples.cfg
                 Examples.semileptonicEvent
               = Ok Examples.semileptonicBlocks) by (vm_compute; reflexivity).
  split; [exact Hc|]. split; [exact Hs|]. split; [exact Hb|].
  split; [reflexivity|].
  exact (proj1 (b_tag_means_a_clustered_ghost Reference.library Examples.cfg
                  Examples.semileptonicEvent Examples.semileptonicBlocks
                  Hc Hs Hb)).
Defined.

(* ================================================================== *)
(** ** The links of the decay tree *)

Lemma linkDecayTree_ten l l' :
  length l = 10%nat -> Forall noLinks l ->
  linkDecayTree l = Ok l' ->
  map gp_daughters l' = treeDaughters /\ map gp_mothers l' = treeMothers.
Proof.
  intros Hlen Hno.
  destruct l as [|a0 [|a1 [|a2 [|a3 [|a4 [|a5 [|a6 [|a7 [|a8 [|a9 [|]]]]]]]]]]];
    try discriminate Hlen.
  repeat match goal with
         | H : Forall _ (_ :: _) |- _ =>
             let Hx := fresh "Hx" in
             apply Forall_cons_iff in H; destruct H as [[Hx ?Hy] H]
         end.
  cbv [linkDecayTree length Nat.eqb decayLinks foldM modifyAt at_ nth_error bind
       fst snd firstn skipn app addDaughter addMother
       gp_charge gp_p4 gp_vertex gp_pdgId gp_status gp_integerCharge
       gp_daughters gp_mothers].
  destruct a0, a1, a2, a3, a4, a5, a6, a7, a8, a9. cbn in *. subst.
  intros [= <-]. split; reflexivity.
Qed.

Section DecayTree.

Context {L : Library}.
Variable cfg : Config.

Lemma CombineOutcome_noLinks leptons neutrinos jets bjetIdxs ljetIdxs comb :
  CombineOutcome cfg leptons neutrinos jets bjetIdxs ljetIdxs comb ->
  Forall noLinks comb.
Proof.
  intros [ | lep0 lep1 o _ _ _ [] | lepton o _ _ _ [] | ];
    try constructor;
    unfold dileptonParticles, semileptonicParticles, noLinks;
    repeat constructor.
Qed.

End DecayTree.

(** X15. When [produce] emits a pseudo-top collection that is not empty, its
    ten entries are linked as two decay trees: entry 0 has the daughters 2
    and 3, entry 2 the daughters 4 and 5, entry 1 the daughters 6 and 7,
    entry 6 the daughters 8 and 9, and no other entry has a daughter; entries
    2 and 3 have the mother 0, entries 4 and 5 the mother 2, entries 6 and 7
    the mother 1, entries 8 and 9 the mother 6, and entries 0 and 1 have no
    mother.  Every link is recorded at both ends. *)
Theorem decay_tree_links_both_ways :
  forall (L : Library) (cfg : Config) (ev : Event) (out : Output),
    produce cfg ev = Ok out ->
    out_pseudoTop out <> [] ->
    map gp_daughters (out_pseudoTop out) = treeDaughters
    /\ map gp_mothers (out_pseudoTop out) = treeMothers
    /\ (forall i j,
          linkedTo (map gp_daughters (out_pseudoTop out)) i j
          <-> linkedTo (map gp_mothers (out_pseudoTop out)) j i).
Proof.
  intros L cfg ev out Hrun Hne.
  unfold produce in Hrun. apply bind_Ok_inv in Hrun as (b & Hb & Hrun).
  destruct (pseudoTopOf_returns cfg ev Hb)
    as (comb & pt & Hcomb & Hout & Hpt & Hlen & _).
  rewrite Hpt in Hrun. cbn [bind] in Hrun. injection Hrun as <-.
  cbn [out_pseudoTop] in *.
  unfold pseudoTopOf in Hpt. rewrite Hcomb in Hpt. cbn [bind] in Hpt.
  destruct (CombineOutcome_length cfg _ _ _ _ _ _ Hout) as [H0|H10].
  { exfalso. apply Hne. destruct pt; [reflexivity|]. simpl in Hlen. lia. }
  destruct (linkDecayTree_ten comb pt H10 (CombineOutcome_noLinks cfg _ _ _ _ _ _ Hout) Hpt)
    as [Hd Hm].
  split; [exact Hd|]. split; [exact Hm|]. rewrite Hd, Hm.
  intros i j. unfold linkedTo, treeDaughters, treeMothers. split.
  - intros (l & Hl & Hj).
    do 10 (destruct i as [|i]; [injection Hl as <-; simpl in Hj;
             repeat (destruct Hj as [<-|Hj]; [eexists; split; [reflexivity|simpl; auto]|]);
             contradiction|]).
    destruct i; discriminate.
  - intros (l & Hl & Hi).
    do 10 (destruct j as [|j]; [injection Hl as <-; simpl in Hi;
             repeat (destruct Hi as [<-|Hi]; [eexists; split; [reflexivity|simpl; auto]|]);
             contradiction|]).
    destruct j; discriminate.
Qed.


(** The statement above at the dilepton example. *)
Lemma decay_tree_links_both_ways_witness :
  @produce Reference.library Examples.cfg Examples.dileptonEvent
  = Ok Examples.dileptonOutput
  /\ out_pseudoTop Examples.dileptonOutput <> []
  /\ map gp_daughters (out_pseudoTop Examples.dileptonOutput) = treeDaughters
  /\ map gp_mothers (out_pseudoTop Examples.dileptonOutput) = treeMothers.
Proof.
  assert (Hrun : @produce Reference.library Examples.cfg Examples.dileptonEvent
                 = Ok Examples.dileptonOutput) by (vm_compute; reflexivity).
  assert (Hne : out_pseudoTop Examples.dileptonOutput <> []) by discriminate.
  split; [exact Hrun|]. split; [exact Hne|].
  destruct (decay_tree_links_both_ways Reference.library Examples.cfg
              Examples.dileptonEvent Examples.dileptonOutput Hrun Hne)
    as (Hd & Hm & _).
  split; [exact Hd | exact Hm].
Defined.

(* ================================================================== *)
(** ** The semileptonic channel *)

Lemma laterPairs_before {X : Type} (l : list X) a b :
  In (a, b) (laterPairs l) <-> before l a b.
Proof.
  unfold before. induction l as [|x l IH]; simpl.
  - split; [contradiction|]. intros ([|? ?] & ? & ? & H); discriminate.
  - rewrite in_app_iff, in_map_iff, IH. split.
    + intros [(b' & [= <- <-] & Hin)|(pre & mid & post & ->)].
      * apply in_split in Hin as (mid & post & ->). now exists [], mid, post.
      * now exists (x :: pre), mid, post.
    + intros ([|y pre] & mid & post & H); simpl in H; injection H as -> ->.
      * left. exists b. split; auto. apply in_elt.
      * right. eauto.
Qed.

Lemma resolve_valid {X : Type} (l : list X) idxs :
  Forall (fun i => (i < length l)%nat) idxs ->
  map fst (resolve l idxs) = idxs.
Proof.
  induction 1 as [|i idxs Hi _ IH]; auto.
  destruct (at_Ok l i Hi) as (x & _ & Hx).
  rewrite (resolve_cons_valid _ _ _ _ Hx). simpl. now rewrite IH.
Qed.

Lemma before_map {X Y : Type} (f : X -> Y) l a b :
  before l a b -> before (map f l) (f a) (f b).
Proof.
  intros (pre & mid & post & ->).
  exists (map f pre), (map f mid), (map f post).
  now rewrite map_app, map_cons, map_app, map_cons.
Qed.

Section Semileptonic.

Context {L : Library}.
Variable cfg : Config.

Lemma wCombos_meaning neutrinos jets ljetIdxs a b c :
  Forall (fun i => (i < length jets)%nat) ljetIdxs ->
  In (a, (b, c)) (wCombos neutrinos jets ljetIdxs) ->
  nth_error neutrinos (fst a) = Some (snd a)
  /\ nth_error jets (fst b) = Some (snd b)
  /\ nth_error jets (fst c) = Some (snd c)
  /\ before ljetIdxs (fst b) (fst c).
Proof.
  intros Hl Hin.
  pose proof (wCombos_In _ _ _ _ _ _ Hin) as (Ha & Hb & Hc).
  destruct a as [ia na], b as [ib jb], c as [ic jc].
  apply resolve_In in Ha as [_ Ha], Hb as [_ Hb], Hc as [_ Hc].
  repeat split; auto.
  unfold wCombos in Hin. apply in_flat_map in Hin as (a' & _ & Hin).
  apply in_map_iff in Hin as ([b' c'] & [= _ -> ->] & Hin).
  apply laterPairs_before in Hin.
  apply (before_map fst) in Hin. now rewrite (resolve_valid _ _ Hl) in Hin.
Qed.

Lemma combinePseudoTop_semileptonic lepton neutrinos jets bjetIdxs ljetIdxs out :
  Forall (fun i => (i < length jets)%nat) bjetIdxs ->
  Forall (fun i => (i < length jets)%nat) ljetIdxs ->
  combinePseudoTop cfg [lepton] neutrinos jets bjetIdxs ljetIdxs = Ok out ->
  out <> [] ->
  exists cW cB,
    firstLeast (wDev cfg lepton) (wCombos neutrinos jets ljetIdxs) cW
    /\ firstLeast
         (bPairDev cfg
            (lv_add (jet_p4 lepton) (gp_p4 (snd (fst cW))))
            (lv_add (jet_p4 (snd (fst (snd cW)))) (jet_p4 (snd (snd (snd cW))))))
         (bPairsOf jets bjetIdxs) cB
    /\ out = semileptonicParticles (jet_charge lepton) lepton (snd (fst cW))
               (snd (fst (snd cW))) (snd (snd (snd cW)))
               (snd (fst cB)) (snd (snd cB)).
Proof.
  intros Hb Hl Hrun Hne. unfold combinePseudoTop in Hrun.
  destruct (length bjetIdxs <? 2)%nat; [inversion Hrun; congruence|].
  cbn [length Nat.eqb andb] in Hrun.
  destruct (1 <=? length neutrinos)%nat.
  - destruct (semileptonicChannel_outcome cfg lepton neutrinos Hb Hl)
      as (out' & Heq & Hout).
    rewrite Heq in Hrun. inversion Hrun; subst out'; clear Hrun.
    destruct Hout as [ | | cW cB HW HB]; try congruence.
    exists cW, cB. auto.
  - cbn [andb] in Hrun. inversion Hrun; congruence.
Qed.

End Semileptonic.

(** X16. In the semileptonic channel the search visits every neutrino with
    every pair of light jets in which the first comes before the second in
    [ljetIdxs].  The search returns and, when its deviation is below 1e9,
    holds the first of the combinations of least deviation.  What the block
    returns for one lepton, when it returns something, are the ten particles
    built on that combination and on the first least pair of b jets; with
    fewer than two light jets it returns nothing. *)
Theorem semileptonic_choice_is_first_least :
  forall (L : Library) (cfg : Config) (lepton : GenJet)
         (neutrinos : list GenParticle) (jets : list GenJet)
         (bjetIdxs ljetIdxs : list nat),
    Forall (fun i => (i < length jets)%nat) bjetIdxs ->
    Forall (fun i => (i < length jets)%nat) ljetIdxs ->
    (forall a b c,
        In (a, (b, c)) (wCombos neutrinos jets ljetIdxs) ->
        nth_error neutrinos (fst a) = Some (snd a)
        /\ nth_error jets (fst b) = Some (snd b)
        /\ nth_error jets (fst c) = Some (snd c)
        /\ before ljetIdxs (fst b) (fst c))
    /\ (exists r,
          selectW cfg lepton neutrinos jets ljetIdxs = Ok r
          /\ (Double.geb (fst r) 1e9 = false ->
              exists cW,
                r = (wDev cfg lepton cW, encTriple cW)
                /\ firstLeast (wDev cfg lepton)
                              (wCombos neutrinos jets ljetIdxs) cW))
    /\ (forall out,
          combinePseudoTop cfg [lepton] neutrinos jets bjetIdxs ljetIdxs = Ok out ->
          out <> [] ->
          exists cW cB,
            firstLeast (wDev cfg lepton) (wCombos neutrinos jets ljetIdxs) cW
            /\ firstLeast
                 (bPairDev cfg
                    (lv_add (jet_p4 lepton) (gp_p4 (snd (fst cW))))
                    (lv_add (jet_p4 (snd (fst (snd cW))))
                            (jet_p4 (snd (snd (snd cW))))))
                 (bPairsOf jets bjetIdxs) cB
            /\ out = semileptonicParticles (jet_charge lepton) lepton
                       (snd (fst cW)) (snd (fst (snd cW))) (snd (snd (snd cW)))
                       (snd (fst cB)) (snd (snd cB)))
    /\ ((length ljetIdxs < 2)%nat ->
        combinePseudoTop cfg [lepton] neutrinos jets bjetIdxs ljetIdxs = Ok []).
Proof.
  intros L cfg lepton neutrinos jets bjetIdxs ljetIdxs Hb Hl.
  split; [|split; [|split]].
  - intros a b c. now apply wCombos_meaning.
  - rewrite selectW_search by assumption. eexists. split; [reflexivity|].
    intros Hsel.
    destruct (search_cases (wDev cfg lepton) encTriple (-1, (-1, -1))
                           (wCombos neutrinos jets ljetIdxs))
      as [[E _]|(cW & E & HW)]; rewrite E in *.
    + discriminate Hsel.
    + eauto.
  - intros out. now apply combinePseudoTop_semileptonic.
  - intros Hfew.
    destruct (combinePseudoTop_outcome cfg [lepton] neutrinos jets bjetIdxs
                ljetIdxs Hb Hl) as (out & Hrun & _).
    rewrite Hrun. f_equal.
    destruct out as [|g out]; auto. exfalso.
    destruct (combinePseudoTop_semileptonic cfg _ _ _ _ _ _ Hb Hl Hrun)
      as ([a [b c]] & _ & HW & _); [discriminate|].
    apply firstLeast_In, (wCombos_meaning _ _ _ _ _ _ Hl) in HW
      as (_ & _ & _ & pre & mid & post & E).
    rewrite E, length_app in Hfew. simpl in Hfew.
    rewrite length_app in Hfew. simpl in Hfew. lia.
Qed.

(** The statement above at the semileptonic example. *)
Lemma semileptonic_choice_is_first_least_witness :
  Forall (fun i => (i < length (bl_jets Examples.semileptonicBlocks))%nat)
         (bl_bjetIdxs Examples.semileptonicBlocks)
  /\ Forall (fun i => (i < length (bl_jets Examples.semileptonicBlocks))%nat)
            (bl_ljetIdxs Examples.semileptonicBlocks)
  /\ @combinePseudoTop Reference.library Examples.cfg
       [Examples.semileptonicLepton]
       (bl_neutrinos Examples.semileptonicBlocks)
       (bl_jets Examples.semileptonicBlocks)
       (bl_bjetIdxs Examples.semileptonicBlocks)
       (bl_ljetIdxs Examples.semileptonicBlocks)
     = Ok Examples.semileptonicComb
  /\ length Examples.semileptonicComb = 10%nat
  /\ exists cW cB,
       firstLeast
         (@wDev Reference.library Examples.cfg Examples.semileptonicLepton)
         (wCombos (bl_neutrinos Examples.semileptonicBlocks)
                  (bl_jets Examples.semileptonicBlocks)
                  (bl_ljetIdxs Examples.semileptonicBlocks)) cW
       /\ firstLeast
            (@bPairDev Reference.library Examples.cfg
               (lv_add (jet_p4 Examples.semileptonicLepton)
                       (gp_p4 (snd (fst cW))))
               (lv_add (jet_p4 (snd (fst (snd cW))))
                       (jet_p4 (snd (snd (snd cW))))))
            (bPairsOf (bl_jets Examples.semileptonicBlocks)
                      (bl_bjetIdxs Examples.semileptonicBlocks)) cB
       /\ Examples.semileptonicComb
          = semileptonicParticles (jet_charge Examples.semileptonicLepton)
              Examples.semileptonicLepton
              (snd (fst cW)) (snd (fst (snd cW))) (snd (snd (snd cW)))
              (snd (fst cB)) (snd (snd cB)).
Proof.
  assert (Hvb : Forall (fun i => (i < length (bl_jets Examples.semileptonicBlocks))%nat)
                       (bl_bjetIdxs Examples.semileptonicBlocks))
    by (vm_compute; repeat constructor).
  assert (Hvl : Forall (fun i => (i < length (bl_jets Examples.semileptonicBlocks))%nat)
                       (bl_ljetIdxs Examples.semileptonicBlocks))
    by (vm_compute; repeat constructor).
  assert (Hrun : @combinePseudoTop Reference.library Examples.cfg
            [Examples.semileptonicLepton]
            (bl_neutrinos Examples.semileptonicBlocks)
            (bl_jets Examples.semileptonicBlocks)
            (bl_bjetIdxs Examples.semileptonicBlocks)
            (bl_ljetIdxs Examples.semileptonicBlocks)
          = Ok Examples.semileptonicComb) by (vm_compute; reflexivity).
  assert (Hne : Examples.semileptonicComb <> []) by discriminate.
  split; [exact Hvb|]. split; [exact Hvl|]. split; [exact Hrun|].
  split; [reflexivity|].
  exact (proj1 (proj2 (proj2
           (semileptonic_choice_is_first_least Reference.library Examples.cfg
              Examples.semileptonicLepton
              (bl_neutrinos Examples.semileptonicBlocks)
              (bl_jets Examples.semileptonicBlocks)
              (bl_bjetIdxs Examples.semileptonicBlocks)
              (bl_ljetIdxs Examples.semileptonicBlocks) Hvb Hvl)))
           Examples.semileptonicComb Hrun Hne).
Defined.

Lemma sorted_before l a b :
  StronglySorted lt l -> before l a b -> (a < b)%nat.
Proof.
  intros Hs (pre & mid & post & ->).
  induction pre as [|x pre IH]; simpl in Hs.
  - apply StronglySorted_inv in Hs as [_ Hall].
    rewrite Forall_forall in Hall. apply Hall. apply in_elt.
  - apply StronglySorted_inv in Hs as [Hs _]. auto.
Qed.

Section Channels.

Context {L : Library}.
Variable cfg : Config.

Lemma buildingBlocks_jetState ev b :
  buildingBlocks cfg ev = Ok b ->
  exists fjJets,
    bl_jets b = js_jets (buildJets cfg (bHadronIdxs ev) fjJets)
    /\ bl_bjetIdxs b = js_bjetIdxs (buildJets cfg (bHadronIdxs ev) fjJets)
    /\ bl_ljetIdxs b = js_ljetIdxs (buildJets cfg (bHadronIdxs ev) fjJets).
Proof.
  unfold buildingBlocks. intros H.
  apply bind_Ok_inv in H as (lepInputs & _ & H).
  apply bind_Ok_inv in H as ([leptons lepDauIdxs] & _ & H).
  apply bind_Ok_inv in H as (jetInputs & _ & H).
  injection H as <-. cbn. eauto.
Qed.

(** What [produce] emits is what the combinator returns, linked. *)
Lemma produce_inv ev out :
  produce cfg ev = Ok out ->
  exists b comb,
    buildingBlocks cfg ev = Ok b
    /\ out_neutrinos out = bl_neutrinos b
    /\ out_leptons out = bl_leptons b
    /\ out_jets out = bl_jets b
    /\ combinePseudoTop cfg (bl_leptons b) (bl_neutrinos b) (bl_jets b)
                        (bl_bjetIdxs b) (bl_ljetIdxs b) = Ok comb
    /\ length (out_pseudoTop out) = length comb
    /\ map unlinked (out_pseudoTop out) = map unlinked comb.
Proof.
  intros Hrun.
  unfold produce in Hrun. apply bind_Ok_inv in Hrun as (b & Hb & Hrun).
  destruct (pseudoTopOf_returns cfg ev Hb)
    as (comb & pt & Hcomb & _ & Hpt & Hlen & Hmap).
  rewrite Hpt in Hrun. cbn [bind] in Hrun. injection Hrun as <-.
  exists b, comb. cbn. auto 10.
Qed.

End Channels.

(** X17. When [produce] emits a non-empty pseudo-top collection for one
    dressed lepton of charge q, the collection holds, in this order,
    t1 t2 w1 b1 l1 n1 w2 b2 u2 d2.  On the leptonic side t1 has status 3,
    code q*6 and charge q*2/3; w1 status 3, code q*24 and charge q; b1 status
    1, code q*5 and charge -q/3; l1 status 1, the code and the four-momentum
    of the dressed lepton and charge q; n1 status 1, charge 0, and the code
    and four-momentum of a neutrino of the neutrino collection.  On the
    hadronic side t2 has status 3, code -q*6 and charge -q*2/3; w2 status 3,
    code -q*24 and charge -q; b2, u2 and d2 have status 1, charge 0, and the
    codes -q*5, -2*q and q; b1 and b2 have the four-momenta of two jets, u2
    and d2 those of two further jets.  Each W carries the sum of the momenta
    of its two daughters and each top the sum of its W and its b.  All ten
    have the vertex at the origin, and the integer-charge flag is unset for
    the two tops only. *)
Theorem semileptonic_output_attributes :
  forall (L : Library) (cfg : Config) (ev : Event) (out : Output)
         (lepton : GenJet),
    produce cfg ev = Ok out ->
    out_leptons out = [lepton] ->
    out_pseudoTop out <> [] ->
    exists t1 t2 w1 b1 l1 n1 w2 b2 u2 d2 nu1 wJet1 wJet2 bJet1 bJet2,
      out_pseudoTop out = [t1; t2; w1; b1; l1; n1; w2; b2; u2; d2]
      /\ In nu1 (out_neutrinos out)
      /\ In wJet1 (out_jets out) /\ In wJet2 (out_jets out)
      /\ In bJet1 (out_jets out) /\ In bJet2 (out_jets out)
      (* the leptonic side *)
      /\ gp_status t1 = 3 /\ gp_pdgId t1 = jet_charge lepton * 6
      /\ gp_charge t1 = (Double.of_int (jet_charge lepton * 2) / 3)%float
      /\ gp_status w1 = 3 /\ gp_pdgId w1 = jet_charge lepton * 24
      /\ gp_charge w1 = Double.of_int (jet_charge lepton)
      /\ gp_status b1 = 1 /\ gp_pdgId b1 = jet_charge lepton * 5
      /\ gp_charge b1 = (Double.of_int (- jet_charge lepton) / 3)%float
      /\ gp_status l1 = 1 /\ gp_pdgId l1 = jet_pdgId lepton
      /\ gp_charge l1 = Double.of_int (jet_charge lepton)
      /\ gp_status n1 = 1 /\ gp_pdgId n1 = gp_pdgId nu1
      /\ gp_charge n1 = 0%float
      (* the hadronic side *)
      /\ gp_status t2 = 3 /\ gp_pdgId t2 = - jet_charge lepton * 6
      /\ gp_charge t2 = (Double.of_int (- jet_charge lepton * 2) / 3)%float
      /\ gp_status w2 = 3 /\ gp_pdgId w2 = - jet_charge lepton * 24
      /\ gp_charge w2 = Double.of_int (- jet_charge lepton)
      /\ gp_status b2 = 1 /\ gp_pdgId b2 = - jet_charge lepton * 5
      /\ gp_charge b2 = 0%float
      /\ gp_status u2 = 1 /\ gp_pdgId u2 = -2 * jet_charge lepton
      /\ gp_charge u2 = 0%float
      /\ gp_status d2 = 1 /\ gp_pdgId d2 = jet_charge lepton
      /\ gp_charge d2 = 0%float
      (* the momenta *)
      /\ gp_p4 l1 = jet_p4 lepton /\ gp_p4 n1 = gp_p4 nu1
      /\ gp_p4 b1 = jet_p4 bJet1 /\ gp_p4 b2 = jet_p4 bJet2
      /\ gp_p4 u2 = jet_p4 wJet1 /\ gp_p4 d2 = jet_p4 wJet2
      /\ gp_p4 w1 = lv_add (gp_p4 l1) (gp_p4 n1)
      /\ gp_p4 w2 = lv_add (gp_p4 u2) (gp_p4 d2)
      /\ gp_p4 t1 = lv_add (gp_p4 w1) (gp_p4 b1)
      /\ gp_p4 t2 = lv_add (gp_p4 w2) (gp_p4 b2)
      (* vertex and charge flag *)
      /\ Forall (fun g => gp_vertex g = genVertex_) (out_pseudoTop out)
      /\ map gp_integerCharge (out_pseudoTop out)
         = [false; false; true; true; true; true; true; true; true; true].
Proof.
  intros L cfg ev out lepton Hrun Hlep Hne.
  destruct (produce_inv cfg ev out Hrun)
    as (b & comb & Hb & Hn & Hl & Hj & Hcomb & Hlen & Hmap).
  destruct (buildingBlocks_valid cfg ev Hb) as [Hvb Hvl].
  rewrite Hn, Hj. rewrite Hl in Hlep. rewrite Hlep in Hcomb.
  assert (Hcne : comb <> []).
  { intros ->. destruct (out_pseudoTop out); [congruence|discriminate]. }
  destruct (combinePseudoTop_semileptonic cfg lepton _ _ _ _ _ Hvb Hvl Hcomb Hcne)
    as ([aW [bW cW]] & [aB bB] & HW & HB & ->).
  apply firstLeast_In, wCombos_In in HW as (HaW & HbW & HcW).
  apply firstLeast_In, orderedPairs_In in HB as (HaB & HbB & _).
  apply resolved_In in HaW, HbW, HcW, HaB, HbB.
  destruct (out_pseudoTop out)
    as [|t1 [|t2 [|w1 [|b1 [|l1 [|n1 [|w2 [|b2 [|u2 [|d2 [|]]]]]]]]]]];
    try discriminate.
  apply map_eq_Forall2 in Hmap. unfold semileptonicParticles in Hmap.
  repeat match goal with
         | H : Forall2 _ (_ :: _) (_ :: _) |- _ =>
             apply Forall2_cons_iff in H;
             let Hx := fresh "Hx" in destruct H as [Hx H];
             apply unlinked_fields in Hx
         end.
  cbn in *.
  exists t1, t2, w1, b1, l1, n1, w2, b2, u2, d2, (snd aW), (snd bW), (snd cW),
         (snd aB), (snd bB).
  repeat match goal with H : _ /\ _ |- _ => destruct H end.
  repeat (split; [first [reflexivity | assumption | congruence]|]).
  split.
  - repeat constructor; assumption.
  - repeat f_equal; assumption.
Qed.

(** The statement above at the semileptonic example: the lepton is the
    positron, so that t1 is a top quark and the hadronic side an antitop. *)
Lemma semileptonic_output_attributes_witness :
  @produce Reference.library Examples.cfg Examples.semileptonicEvent
  = Ok Examples.semileptonicOutput
  /\ out_leptons Examples.semileptonicOutput = [Examples.semileptonicLepton]
  /\ out_pseudoTop Examples.semileptonicOutput <> []
  /\ jet_charge Examples.semileptonicLepton = 1
  /\ exists t1 t2 w1 b1 l1 n1 w2 b2 u2 d2,
       out_pseudoTop Examples.semileptonicOutput
       = [t1; t2; w1; b1; l1; n1; w2; b2; u2; d2]
       /\ gp_pdgId t1 = 6 /\ gp_pdgId t2 = -6
       /\ gp_pdgId w1 = 24 /\ gp_pdgId w2 = -24
       /\ gp_pdgId b1 = 5 /\ gp_pdgId b2 = -5
       /\ gp_pdgId u2 = -2 /\ gp_pdgId d2 = 1
       /\ gp_charge t1 = (2 / 3)%float /\ gp_charge t2 = (- (2 / 3))%float
       /\ gp_charge b1 = (- (1 / 3))%float /\ gp_charge b2 = 0%float.
Proof.
  assert (Hrun : @produce Reference.library Examples.cfg
                   Examples.semileptonicEvent
                 = Ok Examples.semileptonicOutput) by (vm_compute; reflexivity).
  assert (Hlep : out_leptons Examples.semileptonicOutput
                 = [Examples.semileptonicLepton]) by (vm_compute; reflexivity).
  assert (Hne : out_pseudoTop Examples.semileptonicOutput <> []) by discriminate.
  split; [exact Hrun|]. split; [exact Hlep|]. split; [exact Hne|].
  split; [reflexivity|].
  destruct (semileptonic_output_attributes Reference.library Examples.cfg
              Examples.semileptonicEvent Examples.semileptonicOutput
              Examples.semileptonicLepton Hrun Hlep Hne)
    as (t1 & t2 & w1 & b1 & l1 & n1 & w2 & b2 & u2 & d2
        & nu1 & wJet1 & wJet2 & bJet1 & bJet2 & H).
  repeat match goal with H : _ /\ _ |- _ => destruct H end.
  exists t1, t2, w1, b1, l1, n1, w2, b2, u2, d2.
  repeat split; try assumption;
    match goal with
    | H : ?x = _ |- ?x = _ => rewrite H; reflexivity
    end.
Defined.

(* ================================================================== *)
(** ** The objects a reconstruction is built on *)

Lemma unlinked_nth l l' k g' :
  map unlinked l = map unlinked l' -> nth_error l' k = Some g' ->
  exists g, nth_error l k = Some g /\ gp_p4 g = gp_p4 g'
            /\ gp_pdgId g = gp_pdgId g'.
Proof.
  intros Hmap Hk.
  assert (H : nth_error (map unlinked l) k = Some (unlinked g'))
    by (rewrite Hmap; now apply map_nth_error).
  rewrite nth_error_map in H.
  destruct (nth_error l k) as [g|]; [|discriminate].
  simpl in H. assert (H' : unlinked g = unlinked g') by congruence.
  apply unlinked_fields in H' as (_ & Hp & _ & Hc & _).
  eauto.
Qed.

Lemma builtOnJet_intro jets pt comb k i jet code g' :
  map unlinked pt = map unlinked comb -> nth_error comb k = Some g' ->
  nth_error jets i = Some jet -> jet_pdgId jet = code ->
  gp_p4 g' = jet_p4 jet ->
  builtOnJet jets pt k i code.
Proof.
  intros Hmap Hk Hi Hc Hp.
  destruct (unlinked_nth _ _ k _ Hmap Hk) as (g & Hg & Hp' & _).
  exists jet, g. repeat split; auto. congruence.
Qed.

Lemma builtOnNeutrino_intro neutrinos pt comb k i nu g' :
  map unlinked pt = map unlinked comb -> nth_error comb k = Some g' ->
  nth_error neutrinos i = Some nu ->
  gp_p4 g' = gp_p4 nu -> gp_pdgId g' = gp_pdgId nu ->
  builtOnNeutrino neutrinos pt k i.
Proof.
  intros Hmap Hk Hi Hp Hc.
  destruct (unlinked_nth _ _ k _ Hmap Hk) as (g & Hg & Hp' & Hc').
  exists nu, g. repeat split; auto; congruence.
Qed.

Section Distinct.

Context {L : Library}.
Variable cfg : Config.

Lemma bPair_tagged ev b (cB : (nat * GenJet) * (nat * GenJet)) :
  buildingBlocks cfg ev = Ok b ->
  In cB (bPairsOf (bl_jets b) (bl_bjetIdxs b)) ->
  fst (fst cB) <> fst (snd cB)
  /\ nth_error (bl_jets b) (fst (fst cB)) = Some (snd (fst cB))
  /\ nth_error (bl_jets b) (fst (snd cB)) = Some (snd (snd cB))
  /\ jet_pdgId (snd (fst cB)) = 5 /\ jet_pdgId (snd (snd cB)) = 5.
Proof.
  intros Hb Hin. destruct cB as [[i ji] [j jj]].
  apply orderedPairs_In in Hin as (Hi & Hj & Hne).
  apply resolve_In in Hi as [Hi Hni], Hj as [Hj Hnj]. cbn in *.
  destruct (buildingBlocks_jetState cfg ev b Hb) as (fjJets & Ej & Eb & _).
  rewrite Eb in Hi, Hj. rewrite Ej in Hni, Hnj |- *.
  apply buildJets_bjetIdxs_In in Hi as (ji' & Hi1 & Hi2).
  apply buildJets_bjetIdxs_In in Hj as (jj' & Hj1 & Hj2).
  repeat split; auto; congruence.
Qed.

Lemma wCombo_untagged ev b
    (cW : (nat * GenParticle) * ((nat * GenJet) * (nat * GenJet))) :
  buildingBlocks cfg ev = Ok b ->
  In cW (wCombos (bl_neutrinos b) (bl_jets b) (bl_ljetIdxs b)) ->
  (fst (fst (snd cW)) < fst (snd (snd cW)))%nat
  /\ nth_error (bl_jets b) (fst (fst (snd cW))) = Some (snd (fst (snd cW)))
  /\ nth_error (bl_jets b) (fst (snd (snd cW))) = Some (snd (snd (snd cW)))
  /\ jet_pdgId (snd (fst (snd cW))) = 0 /\ jet_pdgId (snd (snd (snd cW))) = 0.
Proof.
  intros Hb Hin. destruct cW as [a [[i ji] [j jj]]].
  destruct (buildingBlocks_valid cfg ev Hb) as [_ Hvl].
  pose proof (wCombos_In _ _ _ _ _ _ Hin) as (_ & Hi & Hj).
  apply (wCombos_meaning _ _ _ _ _ _ Hvl) in Hin as (_ & Hni & Hnj & Hbefore).
  apply resolve_In in Hi as [Hi _], Hj as [Hj _]. cbn in *.
  destruct (buildingBlocks_jetState cfg ev b Hb) as (fjJets & Ej & _ & El).
  rewrite El in Hi, Hj, Hbefore. rewrite Ej in Hni, Hnj |- *.
  apply buildJets_ljetIdxs_In in Hi as (ji' & Hi1 & Hi2).
  apply buildJets_ljetIdxs_In in Hj as (jj' & Hj1 & Hj2).
  repeat split; auto; try congruence.
  eapply sorted_before; [|exact Hbefore]. apply buildJets_idxs_sorted.
Qed.

End Distinct.

(** X18. When [produce] emits a non-empty pseudo-top collection, the two b
    quarks (entries 3 and 7) have the four-momenta of the jets at two
    different positions of the jet collection, both of species code 5.  With
    one dressed lepton, the two quarks of the hadronic W (entries 8 and 9)
    have the four-momenta of the jets at two positions of which the first is
    the smaller, both of species code 0.  With two dressed leptons, the two
    neutrinos (entries 5 and 9) have the four-momenta and codes of the
    neutrinos at two different positions of the neutrino collection. *)
Theorem reconstruction_uses_distinct_objects :
  forall (L : Library) (cfg : Config) (ev : Event) (out : Output),
    produce cfg ev = Ok out ->
    out_pseudoTop out <> [] ->
    (exists i j,
        i <> j
        /\ builtOnJet (out_jets out) (out_pseudoTop out) 3 i 5
        /\ builtOnJet (out_jets out) (out_pseudoTop out) 7 j 5)
    /\ (length (out_leptons out) = 1%nat ->
        exists k l,
          (k < l)%nat
          /\ builtOnJet (out_jets out) (out_pseudoTop out) 8 k 0
          /\ builtOnJet (out_jets out) (out_pseudoTop out) 9 l 0)
    /\ (length (out_leptons out) = 2%nat ->
        exists m n,
          m <> n
          /\ builtOnNeutrino (out_neutrinos out) (out_pseudoTop out) 5 m
          /\ builtOnNeutrino (out_neutrinos out) (out_pseudoTop out) 9 n).
Proof.
  intros L cfg ev out Hrun Hne.
  destruct (produce_inv cfg ev out Hrun)
    as (b & comb & Hb & Hn & Hl & Hj & Hcomb & Hlen & Hmap).
  destruct (buildingBlocks_valid cfg ev Hb) as [Hvb Hvl].
  rewrite Hn, Hl, Hj.
  assert (Hcne : comb <> []).
  { intros ->. destruct (out_pseudoTop out); [congruence|discriminate]. }
  destruct (combinePseudoTop_outcome cfg (bl_leptons b) (bl_neutrinos b)
              (bl_jets b) (bl_bjetIdxs b) (bl_ljetIdxs b) Hvb Hvl)
    as (comb' & Hcomb' & Hout).
  rewrite Hcomb in Hcomb'. injection Hcomb' as <-.
  destruct Hout as [ | lep0 lep1 o _ El _ [ | | |cN cB _ HN HB]
                     | lepton o _ El _ [ | |cW cB HW HB] | ];
    try congruence.
  - (* dilepton *)
    apply firstLeast_In in HN, HB.
    destruct (bPair_tagged cfg ev b cB Hb HB) as (Hd & Hi & Hj' & Hti & Htj).
    destruct cN as [[m nm] [n nn]].
    apply orderedPairs_In in HN as (Hm & Hn' & Hmn).
    apply resolve_In in Hm as [_ Hm], Hn' as [_ Hn']. cbn in Hm, Hn', Hmn.
    split; [|split].
    + exists (fst (fst cB)), (fst (snd cB)). split; auto. split.
      * exact (builtOnJet_intro _ _ _ 3 _ _ 5 _ Hmap eq_refl Hi Hti eq_refl).
      * exact (builtOnJet_intro _ _ _ 7 _ _ 5 _ Hmap eq_refl Hj' Htj eq_refl).
    + rewrite El. discriminate.
    + intros _. exists m, n. split; auto. split.
      * exact (builtOnNeutrino_intro _ _ _ 5 _ _ _ Hmap eq_refl Hm eq_refl eq_refl).
      * exact (builtOnNeutrino_intro _ _ _ 9 _ _ _ Hmap eq_refl Hn' eq_refl eq_refl).
  - (* semileptonic *)
    apply firstLeast_In in HW, HB.
    destruct (bPair_tagged cfg ev b cB Hb HB) as (Hd & Hi & Hj' & Hti & Htj).
    destruct (wCombo_untagged cfg ev b cW Hb HW) as (Hkl & Hk & Hl' & Htk & Htl).
    split; [|split].
    + exists (fst (fst cB)), (fst (snd cB)). split; auto. split.
      * exact (builtOnJet_intro _ _ _ 3 _ _ 5 _ Hmap eq_refl Hi Hti eq_refl).
      * exact (builtOnJet_intro _ _ _ 7 _ _ 5 _ Hmap eq_refl Hj' Htj eq_refl).
    + intros _. exists (fst (fst (snd cW))), (fst (snd (snd cW))). split; auto.
      split.
      * exact (builtOnJet_intro _ _ _ 8 _ _ 0 _ Hmap eq_refl Hk Htk eq_refl).
      * exact (builtOnJet_intro _ _ _ 9 _ _ 0 _ Hmap eq_refl Hl' Htl eq_refl).
    + rewrite El. discriminate.
Qed.

(** The statement above at the semileptonic example: the b jets are the jets
    2 and 3, the light jets the jets 0 and 1. *)
Lemma reconstruction_uses_distinct_objects_witness :
  @produce Reference.library Examples.cfg Examples.semileptonicEvent
  = Ok Examples.semileptonicOutput
  /\ out_pseudoTop Examples.semileptonicOutput <> []
  /\ length (out_leptons Examples.semileptonicOutput) = 1%nat
  /\ map jet_pdgId (out_jets Examples.semileptonicOutput) = [0; 0; 5; 5]
  /\ (exists i j,
         i <> j
         /\ builtOnJet (out_jets Examples.semileptonicOutput)
                       (out_pseudoTop Examples.semileptonicOutput) 3 i 5
         /\ builtOnJet (out_jets Examples.semileptonicOutput)
                       (out_pseudoTop Examples.semileptonicOutput) 7 j 5)
  /\ (exists k l,
         (k < l)%nat
         /\ builtOnJet (out_jets Examples.semileptonicOutput)
                       (out_pseudoTop Examples.semileptonicOutput) 8 k 0
         /\ builtOnJet (out_jets Examples.semileptonicOutput)
                       (out_pseudoTop Examples.semileptonicOutput) 9 l 0).
Proof.
  assert (Hrun : @produce Reference.library Examples.cfg
                   Examples.semileptonicEvent
                 = Ok Examples.semileptonicOutput) by (vm_compute; reflexivity).
  assert (Hne : out_pseudoTop Examples.semileptonicOutput <> []) by discriminate.
  assert (Hone : length (out_leptons Examples.semileptonicOutput) = 1%nat)
    by reflexivity.
  split; [exact Hrun|]. split; [exact Hne|]. split; [exact Hone|].
  split; [reflexivity|].
  destruct (reconstruction_uses_distinct_objects Reference.library Examples.cfg
              Examples.semileptonicEvent Examples.semileptonicOutput Hrun Hne)
    as (Hb & Hw & _).
  split; [exact Hb | exact (Hw Hone)].
Defined.

(* ================================================================== *)
(** ** When [produce] fails *)

Lemma lepConstituent_fails final st c :
  (nth_error final (user_index c) = None
   /\ lepConstituent final st c = Raise InvalidPtr)
  \/ (nth_error final (user_index c) <> None
      /\ exists st', lepConstituent final st c = Ok st').
Proof.
  unfold lepConstituent, derefPtrAt. destruct st as [k lc].
  destruct (nth_error final (user_index c)) as [p|]; [right|left; auto].
  split; [discriminate|]. cbn [bind].
  destruct (_ || _); [|eauto].
  destruct lc as [[i r]|]; [|eauto].
  destruct (Double.gtb _ _); eauto.
Qed.

Lemma lepConstituents_fails final cs :
  forall st,
    (existsb (fun c => (length final <=? user_index c)%nat) cs = true
     /\ foldM (lepConstituent final) cs st = Raise InvalidPtr)
    \/ (existsb (fun c => (length final <=? user_index c)%nat) cs = false
        /\ exists st', foldM (lepConstituent final) cs st = Ok st').
Proof.
  induction cs as [|c cs IH]; intros st; cbn [foldM existsb].
  - right. eauto.
  - destruct (lepConstituent_fails final st c) as [[Hn ->]|[Hn (st1 & ->)]];
      cbn [bind].
    + left. split; auto. apply nth_error_None in Hn.
      apply Nat.leb_le in Hn. now rewrite Hn.
    + assert (Hlt : (length final <=? user_index c)%nat = false).
      { apply Nat.leb_gt. now apply nth_error_Some. }
      rewrite Hlt. cbn [orb]. apply IH.
Qed.

Lemma dressLepton_fails cfg final st fjJet :
  (danglingCluster cfg final fjJet = true
   /\ dressLepton cfg final st fjJet = Raise InvalidPtr)
  \/ (danglingCluster cfg final fjJet = false
      /\ exists st', dressLepton cfg final st fjJet = Ok st').
Proof.
  unfold dressLepton, danglingCluster. destruct st as [ls ds].
  destruct (Double.gtb (abs (fj_eta fjJet)) (leptonMaxEta_ cfg)); cbn [negb andb].
  { right. eauto. }
  unfold lepConstituents.
  destruct (lepConstituents_fails final (fj_constituents fjJet) ([], None))
    as [[-> ->]|[-> ([k lc] & ->)]]; cbn [bind]; [left; auto|right].
  split; auto. destruct lc as [[i r]|]; eauto.
Qed.

Lemma buildLeptons_fails cfg final js :
  forall st,
    (existsb (danglingCluster cfg final) js = true
     /\ foldM (dressLepton cfg final) js st = Raise InvalidPtr)
    \/ (existsb (danglingCluster cfg final) js = false
        /\ exists st', foldM (dressLepton cfg final) js st = Ok st').
Proof.
  induction js as [|j js IH]; intros st; cbn [foldM existsb].
  - right. eauto.
  - destruct (dressLepton_fails cfg final st j) as [[-> ->]|[-> (st1 & ->)]];
      cbn [bind orb]; [left; auto|apply IH].
Qed.

(** X19. The loop that prepares the input of the lepton clustering always
    returns.  If a cluster of the lepton clustering that is not beyond the
    pseudorapidity cut has a constituent whose user index is outside the
    final state, [produce] fails on the dereference of the pointer made for
    it.  In every other case the code of [produce] runs to its end (the
    library calls taken to return): no index read with [at] is ever out of
    range, and a cluster beyond the cut is skipped before its constituents
    are looked at. *)
Theorem produce_fails_only_on_a_dangling_constituent :
  forall (L : Library) (cfg : Config) (ev : Event),
    exists lepInputs,
      fjLepInputs (finalStates ev) (leptonIdxs ev) = Ok lepInputs
      /\ (existsb (danglingCluster cfg (finalStates ev))
                  (fjCluster (leptonConeSize cfg) lepInputs (leptonMinPt_ cfg))
          = true ->
          produce cfg ev = Raise InvalidPtr)
      /\ (existsb (danglingCluster cfg (finalStates ev))
                  (fjCluster (leptonConeSize cfg) lepInputs (leptonMinPt_ cfg))
          = false ->
          exists out, produce cfg ev = Ok out).
Proof.
  intros L cfg ev.
  destruct (fjLepInputs_spec (leptonIdxs_valid ev)) as (lepInputs & Hin & _).
  exists lepInputs. split; [exact Hin|].
  unfold produce, buildingBlocks. rewrite Hin. cbn [bind]. unfold buildLeptons.
  destruct (buildLeptons_fails cfg (finalStates ev)
              (fjCluster (leptonConeSize cfg) lepInputs (leptonMinPt_ cfg))
              ([], []))
    as [[Hd Hf]|[Hd ([ls ds] & Hf)]]; rewrite Hd, Hf; cbn [bind].
  - split; [reflexivity | discriminate].
  - split; [discriminate|]. intros _.
    destruct (fjJetInputsGhosts_spec (bHadronIdxs_valid ev))
      as (ghosts & Hgh & _).
    unfold fjJetInputs. rewrite Hgh. cbn [bind].
    match goal with
    | |- exists out, bind (pseudoTopOf cfg ?b) _ = _ =>
        assert (Hb : buildingBlocks cfg ev = Ok b)
    end.
    { unfold buildingBlocks, buildLeptons, fjJetInputs.
      rewrite Hin. cbn [bind]. rewrite Hf. cbn [bind]. rewrite Hgh. reflexivity. }
    destruct (pseudoTopOf_returns cfg ev Hb) as (_ & pt & _ & _ & Hpt & _).
    rewrite Hpt. cbn [bind]. eauto.
Qed.


(* ================================================================== *)
(** ** Copies and their references: [buildGenParticle] *)

Lemma buildGenParticle_Ok cast p g outColl :
  cast p = Some g ->
  buildGenParticle cast p outColl
  = Ok (length outColl, outColl ++ [unlinked g]).
Proof.
  intros E. unfold buildGenParticle. rewrite E. cbv zeta.
  rewrite length_app. simpl. now rewrite Nat.add_sub.
Qed.

(** X20. [buildGenParticle] fails when the particle is no [reco::GenParticle]
    (the cast gives a null pointer).  Otherwise it appends one entry to the
    output collection, the copy of the particle without mother and daughter
    links; the reference it returns is the position of that entry, and
    looking the reference up in the new collection gives the copy; the
    entries that were there stay where they were, so that references
    returned before stay valid.  Called on one particle after the other, it
    returns consecutive references, starting at the size the collection had,
    and leaves the collection extended by the copies in the order of the
    calls. *)
Theorem buildGenParticle_reference_round_trip :
  forall (cast : Candidate -> option GenParticle) (p : Candidate)
         (outColl : list GenParticle),
    (cast p = None -> buildGenParticle cast p outColl = Raise InvalidPtr)
    /\ (forall g, cast p = Some g ->
          exists ref outColl',
            buildGenParticle cast p outColl = Ok (ref, outColl')
            /\ ref = length outColl
            /\ length outColl' = S (length outColl)
            /\ nth_error outColl' ref = Some (unlinked g)
            /\ (forall k, (k < length outColl)%nat ->
                          nth_error outColl' k = nth_error outColl k))
    /\ (forall ps gs,
          map cast ps = map Some gs ->
          buildGenParticles cast ps outColl
          = Ok (seq (length outColl) (length ps),
                outColl ++ map unlinked gs)).
Proof.
  intros cast p outColl. split; [|split].
  - intros E. unfold buildGenParticle. now rewrite E.
  - intros g E. rewrite (buildGenParticle_Ok _ _ _ _ E).
    do 2 eexists. split; [reflexivity|]. split; [reflexivity|].
    split; [rewrite length_app; simpl; lia|]. split.
    + now rewrite nth_error_app2, Nat.sub_diag by lia.
    + intros k Hk. now apply nth_error_app1.
  - intros ps. revert outColl.
    induction ps as [|q ps IH]; intros outColl [|g gs] E; try discriminate.
    + simpl. now rewrite app_nil_r.
    + simpl in E. injection E as Eq Eps.
      cbn [buildGenParticles]. rewrite (buildGenParticle_Ok _ _ _ _ Eq).
      cbn [bind]. rewrite (IH _ _ Eps). cbn [bind].
      rewrite length_app, <- app_assoc. simpl.
      now rewrite Nat.add_1_r.
Qed.
